(** * Katas: word search in a snaking puzzle, and Heap's permutations

    A shallow embedding of two functions of [task/11-katas-2-tasks.js],
    [findStringInSnakingPuzzle] and [getPermutations], together with the
    properties their specification states about them.  The other functions
    of the file follow, each in a module of its own with the properties
    its code shows: [parseBankAccount], [wrapText], [getPokerHandRank],
    [getFigureRectangles], [getMostProfitFromStockQuotes] and the
    [UrlShortener].

    JavaScript numbers that can leave the natural numbers ([i - 1], [j - 1],
    [index--], [k - 1]) are modelled in [Z]; strings are lists of characters;
    arrays are lists read with [!!] and updated in place with [<[ _ := _ ]>];
    the mutable variables shared by a closure and its recursive calls are
    threaded explicitly as a state.  Recursion whose depth the source does
    not bound syntactically takes a [fuel] argument and answers [None] when
    the fuel is used up. *)

From Stdlib Require Import ZArith Ascii String Lia Factorial.
From stdpp Require Import base tactics numbers option list sorting.

Local Open Scope Z_scope.

#[global] Instance ascii_eq_dec : EqDecision ascii := Ascii.ascii_dec.

(** ** JavaScript indexing *)

(** [a[i]] for a number [i]: [undefined] (here [None]) outside the array or
    string. *)
Definition js_get {A : Type} (a : list A) (i : Z) : option A :=
  if i <? 0 then None else a !! Z.to_nat i.

(** ** The snaking puzzle *)

Module SnakingPuzzle.

(** The closure's two mutable variables. *)
Record state := State { index : Z; visited : list (list bool) }.

(** The four neighbours, in the order the source tries them. *)
Inductive direction := Up | Down | Left | Right.

Definition source_order : list direction := [Up; Down; Left; Right].

Definition move (d : direction) (i j : Z) : Z * Z :=
  match d with
  | Up => (i - 1, j)
  | Down => (i + 1, j)
  | Left => (i, j - 1)
  | Right => (i, j + 1)
  end.

(** The cell [k] steps away in a straight line. *)
Definition line (d : direction) (i j : Z) (k : nat) : Z * Z :=
  match d with
  | Up => (i - Z.of_nat k, j)
  | Down => (i + Z.of_nat k, j)
  | Left => (i, j - Z.of_nat k)
  | Right => (i, j + Z.of_nat k)
  end.

(** Truthiness of [visited[i][j]]: [undefined] and [false] are falsy. *)
Definition is_visited (v : list (list bool)) (i j : Z) : bool :=
  match js_get v i with
  | Some row => default false (js_get row j)
  | None => false
  end.

(** The flag of cell [(i, j)], when the mask has one. *)
Definition flag_at (v : list (list bool)) (i j : Z) : option bool :=
  row ← js_get v i; js_get row j.

(** Truthiness of [visited[i]]: an array, even an empty one, is truthy. *)
Definition row_defined (v : list (list bool)) (i : Z) : bool :=
  bool_decide (is_Some (js_get v i)).

(** [visited[i][j] = b].  The source only performs it after
    [puzzle[i][j]] matched a character of the word, that is, on a cell
    of the grid, and [visited] has the shape of the grid (see
    [cell_matches_in_grid] and [same_shape]): row [i] exists and the write
    never lands outside it, so that nothing is said here about what
    JavaScript does with a write past the end of an array. *)
Definition set_visited (i j : Z) (b : bool) (v : list (list bool))
  : list (list bool) :=
  if (0 <=? i) && (0 <=? j)
  then alter (fun row => <[Z.to_nat j := b]> row) (Z.to_nat i) v
  else v.

Section Search.

Variable puzzle : list (list ascii).
Variable searchStr : list ascii.

(** [puzzle[i][j]], [undefined] outside the grid. *)
Definition grid_at (i j : Z) : option ascii :=
  row ← js_get puzzle i; js_get row j.

(** [puzzle[i] && puzzle[i][j] === searchStr[index]]: a missing row and
    the empty string are falsy; [===] compares characters, and
    [undefined === undefined] holds. *)
Definition cell_matches (i j idx : Z) : bool :=
  match js_get puzzle i with
  | None => false
  | Some [] => false
  | Some row => bool_decide (js_get row j = js_get searchStr idx)
  end.

(** The condition in front of each recursive call. *)
Definition guard (d : direction) (i j : Z) (st : state) : bool :=
  match d with
  | Up => row_defined (visited st) (i - 1) && negb (is_visited (visited st) (i - 1) j)
  | Down => row_defined (visited st) (i + 1) && negb (is_visited (visited st) (i + 1) j)
  | Left => negb (is_visited (visited st) i (j - 1))
  | Right => negb (is_visited (visited st) i (j + 1))
  end.

(** [index++; visited[i][j] = true] and [index--; visited[i][j] = false]. *)
Definition enter (i j : Z) (st : state) : state :=
  {| index := index st + 1; visited := set_visited i j true (visited st) |}.

Definition leave (i j : Z) (st : state) : state :=
  {| index := index st - 1; visited := set_visited i j false (visited st) |}.

(** [if (cond && call()) return true; rest] *)
Definition try_call (cond : state -> bool)
    (call : state -> option (bool * state))
    (rest : state -> option (bool * state)) (st : state)
  : option (bool * state) :=
  if cond st then
    match call st with
    | None => None
    | Some (true, st') => Some (true, st')
    | Some (false, st') => rest st'
    end
  else rest st.

Fixpoint canFindStartedFrom (fuel : nat) (i j : Z) (st : state)
  : option (bool * state) :=
  match fuel with
  | O => None
  | S fuel =>
    if cell_matches i j (index st) then
      let st := enter i j st in
      if index st =? Z.of_nat (length searchStr) then Some (true, st)
      else
        try_call (guard Up i j) (canFindStartedFrom fuel (i - 1) j)
        (try_call (guard Down i j) (canFindStartedFrom fuel (i + 1) j)
        (try_call (guard Left i j) (canFindStartedFrom fuel i (j - 1))
        (try_call (guard Right i j) (canFindStartedFrom fuel i (j + 1))
        (fun st => Some (false, leave i j st))))) st
    else Some (false, st)
  end.

(** A [for] loop whose body may [return true] out of the function. *)
Fixpoint for_until {I : Type} (body : I -> state -> option (bool * state))
    (range : list I) (st : state) : option (bool * state) :=
  match range with
  | [] => Some (false, st)
  | i :: range =>
    match body i st with
    | None => None
    | Some (true, st') => Some (true, st')
    | Some (false, st') => for_until body range st'
    end
  end.

(** [puzzle[i].length] for a row of the grid. *)
Definition row_length (i : nat) : nat := length (default [] (puzzle !! i)).

(** [new Array(puzzle.length).fill(0).map((v, i) =>
      new Array(puzzle[i].length).fill(false))] *)
Definition init_visited : list (list bool) :=
  (fun row => replicate (length row) false) <$> puzzle.

Definition init_state : state := {| index := 0; visited := init_visited |}.

(** The run of the whole function, keeping the closure's variables as
    they are when it returns. *)
Definition run (fuel : nat) : option (bool * state) :=
  for_until (fun i =>
    for_until (fun j => canFindStartedFrom fuel (Z.of_nat i) (Z.of_nat j))
              (seq 0 (row_length i)))
    (seq 0 (length puzzle)) init_state.

Definition findStringInSnakingPuzzle (fuel : nat) : option bool :=
  fst <$> run fuel.

(** *** The same search with the neighbours tried in a given order *)

Fixpoint try_dirs (call : Z -> Z -> state -> option (bool * state))
    (i j : Z) (dirs : list direction) : state -> option (bool * state) :=
  match dirs with
  | [] => fun st => Some (false, leave i j st)
  | d :: dirs =>
    try_call (guard d i j) (call (move d i j).1 (move d i j).2)
             (try_dirs call i j dirs)
  end.

Fixpoint canFindStartedFrom_ordered (dirs : list direction) (fuel : nat)
    (i j : Z) (st : state) : option (bool * state) :=
  match fuel with
  | O => None
  | S fuel =>
    if cell_matches i j (index st) then
      let st := enter i j st in
      if index st =? Z.of_nat (length searchStr) then Some (true, st)
      else try_dirs (canFindStartedFrom_ordered dirs fuel) i j dirs st
    else Some (false, st)
  end.

Definition run_ordered (dirs : list direction) (fuel : nat)
  : option (bool * state) :=
  for_until (fun i =>
    for_until (fun j =>
      canFindStartedFrom_ordered dirs fuel (Z.of_nat i) (Z.of_nat j))
              (seq 0 (row_length i)))
    (seq 0 (length puzzle)) init_state.

Definition findStringInSnakingPuzzle_ordered (dirs : list direction)
    (fuel : nat) : option bool :=
  fst <$> run_ordered dirs fuel.

(** *** The search with its history *)

(** What an observer of the closure's variables sees: each call with the
    state it starts from, the state once the cell is taken
    ([index++; visited[i][j] = true]), and each return with the states at
    the call and at the return. *)
Inductive event :=
  | Call (i j : Z) (st : state)
  | Enter (st : state)
  | Return (i j : Z) (entry : state) (result : bool) (st : state).

Definition traced : Type := bool * state * list event.

Definition try_call_traced (cond : state -> bool)
    (call : state -> option traced) (rest : state -> option traced)
    (st : state) : option traced :=
  if cond st then
    match call st with
    | None => None
    | Some (true, st', tr) => Some (true, st', tr)
    | Some (false, st', tr) =>
      match rest st' with
      | None => None
      | Some (b, st'', tr') => Some (b, st'', tr ++ tr')
      end
    end
  else rest st.

Fixpoint canFindStartedFrom_traced (fuel : nat) (i j : Z) (st : state)
  : option traced :=
  match fuel with
  | O => None
  | S fuel =>
    if cell_matches i j (index st) then
      let st1 := enter i j st in
      if index st1 =? Z.of_nat (length searchStr)
      then Some (true, st1, [Call i j st; Enter st1; Return i j st true st1])
      else
        match
          try_call_traced (guard Up i j) (canFindStartedFrom_traced fuel (i - 1) j)
          (try_call_traced (guard Down i j) (canFindStartedFrom_traced fuel (i + 1) j)
          (try_call_traced (guard Left i j) (canFindStartedFrom_traced fuel i (j - 1))
          (try_call_traced (guard Right i j) (canFindStartedFrom_traced fuel i (j + 1))
          (fun st => Some (false, leave i j st, []))))) st1
        with
        | None => None
        | Some (b, st', tr) =>
          Some (b, st', Call i j st :: Enter st1 :: tr ++ [Return i j st b st'])
        end
    else Some (false, st, [Call i j st; Return i j st false st])
  end.

Fixpoint for_until_traced {I : Type} (body : I -> state -> option traced)
    (range : list I) (st : state) : option traced :=
  match range with
  | [] => Some (false, st, [])
  | i :: range =>
    match body i st with
    | None => None
    | Some (true, st', tr) => Some (true, st', tr)
    | Some (false, st', tr) =>
      match for_until_traced body range st' with
      | None => None
      | Some (b, st'', tr') => Some (b, st'', tr ++ tr')
      end
    end
  end.

Definition run_traced (fuel : nat) : option traced :=
  for_until_traced (fun i =>
    for_until_traced (fun j =>
      canFindStartedFrom_traced fuel (Z.of_nat i) (Z.of_nat j))
              (seq 0 (row_length i)))
    (seq 0 (length puzzle)) init_state.

(** Forgetting the history. *)
Definition erase (r : option traced) : option (bool * state) :=
  (fun '(b, st, _) => (b, st)) <$> r.

(** The states an event shows. *)
Definition event_states (e : event) : list state :=
  match e with
  | Call _ _ st => [st]
  | Enter st => [st]
  | Return _ _ entry _ st => [entry; st]
  end.

(** *** What the search looks for *)

(** [snake word i j v]: the non-empty [word] can be read along a path that
    starts on cell [(i, j)], moves to one of the four neighbours at each
    step, and uses neither a cell marked in [v] nor a cell twice. *)
Fixpoint snake (word : list ascii) (i j : Z) (v : list (list bool)) : Prop :=
  match word with
  | [] => False
  | c :: word' =>
    grid_at i j = Some c /\
    (word' = [] \/
     exists d : direction,
       let v' := set_visited i j true v in
       is_visited v' (move d i j).1 (move d i j).2 = false /\
       snake word' (move d i j).1 (move d i j).2 v')
  end.

(** A column of the grid that crosses every row. *)
Definition column (c : nat) : option (list ascii) :=
  mapM (fun row => row !! c) puzzle.

(** [visited] has one flag per cell of the grid. *)
Definition same_shape (v : list (list bool)) : Prop :=
  Forall2 (fun (row : list ascii) (flags : list bool) =>
             length flags = length row) puzzle v.

End Search.

(** The puzzle of the function's doc comment. *)
Definition documented_puzzle : list (list ascii) :=
  list_ascii_of_string <$>
    ["ANGULAR"; "REDNCAE"; "RFIDTCL"; "AGNEGSA"; "YTIRTSP"]%string.

(** The number of [true] cells of a mask. *)
Definition count_true (v : list (list bool)) : nat :=
  length (filter (fun b => b = true) (mjoin v)).

Definition all_false (v : list (list bool)) : Prop :=
  Forall (Forall (fun b => b = false)) v.

(** As many cells are marked as characters of the word are matched. *)
Definition balanced (st : state) : Prop :=
  Z.of_nat (count_true (visited st)) = index st.

(** A call that answers [false] hands the variables back as it got them. *)
Definition unwound (e : event) : Prop :=
  match e with
  | Return _ _ entry false st => st = entry
  | _ => True
  end.

(** What every event of a history is to show. *)
Definition sound (e : event) : Prop :=
  unwound e /\ Forall balanced (event_states e).

(** How a search that started in state [st] comes back: with an answer,
    with the variables as they were if the answer is [false] and with the
    whole word matched if it is [true], and with a sound history. *)
Definition outcome (searchStr : list ascii) (st : state)
    (r : option traced) : Prop :=
  exists b st' tr, r = Some (b, st', tr) /\
    (b = false -> st' = st) /\
    (b = true -> balanced st' /\ index st' = Z.of_nat (length searchStr)) /\
    Forall sound tr.

End SnakingPuzzle.

(** ** Permutations *)

Module Permutations.

(** An array element: a one-character string, or [undefined] ([None]),
    which is also what a hole of the array reads as. *)
Definition cell : Type := option ascii.

(** [arr[i]] *)
Definition arr_get (arr : list cell) (i : Z) : cell := mjoin (js_get arr i).

(** [arr[i] = x]: inside the array the element is replaced; at or past the
    end the array grows up to [i], the new elements in between being
    holes.  ([generate] never writes at a negative index: it swaps only
    after [generate(k - 1)] returned, which needs [k >= 2].) *)
Definition arr_set (arr : list cell) (i : Z) (x : cell) : list cell :=
  if i <? 0 then arr
  else if (Z.to_nat i <? length arr)%nat then <[Z.to_nat i := x]> arr
  else arr ++ replicate (Z.to_nat i - length arr)%nat None ++ [x].

(** [arr.join('')]: [undefined] elements and holes give the empty string. *)
Definition join (arr : list cell) : list ascii := omap id arr.

(** The array handed down the recursion (every call works on the same
    object) and the closure's [output]. *)
Record state := State { arr : list cell; output : list (list ascii) }.

(** A [for] loop over the given values of its counter. *)
Fixpoint for_each {I : Type} (body : I -> state -> option state)
    (range : list I) (st : state) : option state :=
  match range with
  | [] => Some st
  | i :: range => st' ← body i st; for_each body range st'
  end.

Fixpoint generate (fuel : nat) (k : Z) (st : state) : option state :=
  match fuel with
  | O => None
  | S fuel =>
    if k =? 1 then
      Some {| arr := arr st; output := output st ++ [join (arr st)] |}
    else
      st ← generate fuel (k - 1) st;
      for_each (fun i st =>
          let j := if Z.rem k 2 =? 0 then i else 0 in
          let tmp := arr_get (arr st) (k - 1) in
          let a := arr_set (arr st) (k - 1) (arr_get (arr st) j) in
          let a := arr_set a j tmp in
          generate fuel (k - 1) {| arr := a; output := output st |})
        (seqZ 0 (k - 1)) st
  end.

(** The strings the generator yields, in order; [None] when the call of
    [generate] that comes before the first [yield] does not return within
    [fuel] nested calls. *)
Definition getPermutations (fuel : nat) (chars : list ascii)
  : option (list (list ascii)) :=
  st ← generate fuel (Z.of_nat (length chars))
         {| arr := Some <$> chars; output := [] |};
  Some (output st).

(** *** Heap's algorithm on lists *)

Section Heap.

Context {A : Type}.

(** Exchange of the elements at two positions of the array. *)
Definition swap (a b : nat) (l : list A) : list A :=
  match l !! a, l !! b with
  | Some x, Some y => <[b := x]> (<[a := y]> l)
  | _, _ => l
  end.

(** [heap m l]: the array [generate (m + 1)] leaves and the arrays it
    emits, from the array [l]. *)
Fixpoint heap (m : nat) (l : list A) : list A * list (list A) :=
  match m with
  | O => (l, [l])
  | S m' =>
    fold_left (fun s i =>
        let r :=
          heap m' (swap (S m') (if Nat.even (S (S m')) then i else O) s.1) in
        (r.1, s.2 ++ r.2))
      (seq 0 (S m')) (heap m' l)
  end.

(** [dst] holds at each position [p] the element [src] holds at
    position [f p]. *)
Definition gathers (f : nat -> nat) (src dst : list A) : Prop :=
  length dst = length src /\
  forall p : nat, (p < length src)%nat -> dst !! p = src !! f p.

End Heap.

(** *** Where the elements go *)

Local Open Scope nat_scope.

Definition transp (a b p : nat) : nat :=
  if p =? a then b else if p =? b then a else p.

(** The effect of [generate k] on the array, for even [k]: position [p]
    receives the element of position [tau_even k p]. *)
Definition tau_even (k p : nat) : nat :=
  if k <=? p then p
  else if p =? k - 1 then 0
  else if p =? k - 2 then k - 1
  else if p =? 0 then k - 3
  else if p =? 1 then k - 2
  else p - 1.

(** For odd [k] the first and the last of the [k] elements change
    places. *)
Definition tau (k p : nat) : nat :=
  if Nat.even k then tau_even k p else transp 0 (k - 1) p.

(** The array at the [t]-th inner call of [generate (k - 1)], for even
    [k]. *)
Definition start_even (k t p : nat) : nat :=
  if t =? 0 then p
  else if k <=? p then p
  else if p =? k - 1 then
    (if t =? k - 1 then 0 else if t =? 1 then k - 2 else t - 1)
  else if (1 <=? p) && (p <? t) then (if p =? 1 then k - 2 else p - 1)
  else if p =? 0 then (if Nat.odd t then k - 1 else 0)
  else if p =? k - 2 then (if Nat.odd t then 0 else k - 1)
  else p.

(** For odd [k] the inner calls turn the [k] positions around a cycle;
    [cyc_pos k c] is the position at place [c] of the cycle. *)
Definition cyc_pos (k c : nat) : nat :=
  if c =? k - 1 then k - 1
  else if c =? 0 then 0
  else if c =? 1 then k - 2
  else if c =? 2 then k - 3
  else c - 2.

Definition cyc_idx (k p : nat) : nat :=
  if p =? k - 1 then k - 1
  else if p =? 0 then 0
  else if p =? k - 2 then 1
  else if p =? k - 3 then 2
  else p + 2.

Definition start_odd (k t p : nat) : nat :=
  if k <=? p then p
  else
    let c := cyc_idx k p in
    cyc_pos k (if t <=? c then c - t else c + k - t).

Definition start (k t p : nat) : nat :=
  if Nat.even k then start_even k t p else start_odd k t p.

End Permutations.

(** * Paths through the puzzle *)

Module SnakePaths.
Import SnakingPuzzle.

(** Two cells side by side: one step up, down, left or right. *)
Definition adjacent (a b : Z * Z) : Prop :=
  exists d : direction, b = move d a.1 a.2.

(** Each cell of the path is next to the one before. *)
Fixpoint connected (path : list (Z * Z)) : Prop :=
  match path with
  | a :: (b :: _) as rest => adjacent a b /\ connected rest
  | _ => True
  end.

(** [path] reads [word] in the grid, cell by cell, without using a cell
    twice. *)
Definition snaking_path (puzzle : list (list ascii)) (word : list ascii)
    (path : list (Z * Z)) : Prop :=
  Forall2 (fun c cell => grid_at puzzle cell.1 cell.2 = Some c) word path /\
  connected path /\
  NoDup path.

End SnakePaths.

(** * The url shortener *)

Module UrlShortener.

(** A JavaScript string is the list of its UTF-16 code units. *)
Definition code_units (s : string) : list Z :=
  (fun c => Z.of_nat (nat_of_ascii c)) <$> list_ascii_of_string s.

Definition urlAllowedChars : list Z :=
  code_units ("ABCDEFGHIJKLMNOPQRSTUVWXYZ" ++
              "abcdefghijklmnopqrstuvwxyz" ++
              "0123456789-_.~!*'();:@&=+$,/?#[]")%string.

(** [s.indexOf(c)] for a string [c] of one code unit, counting from
    [i]: the place of the first occurrence, [-1] when there is none. *)
Fixpoint indexOf_from (s : list Z) (c : Z) (i : Z) : Z :=
  match s with
  | [] => -1
  | x :: s => if x =? c then i else indexOf_from s c (i + 1)
  end.

Definition indexOf (s : list Z) (c : Z) : Z := indexOf_from s c 0.

(** The two arrays of [encode]. *)
Record encoder := State { codes : list Z; code : list Z }.

(** One round of the loop of [encode]: [code[code.length] = ...], then
    [if (code.length === 2) { codes.push(code[0] << 8 | code[1]);
    code = [] }]. *)
Definition encode_step (st : encoder) (c : Z) : encoder :=
  match code st ++ [indexOf urlAllowedChars c] with
  | [c0; c1] =>
    {| codes := codes st ++ [Z.lor (Z.shiftl c0 8) c1]; code := [] |}
  | code' => {| codes := codes st; code := code' |}
  end.

(** [String.fromCharCode] takes each number modulo [2^16]. *)
Definition fromCharCode (codes : list Z) : list Z :=
  (fun x => x mod 65536) <$> codes.

(** After the loop: [if (code.length === 1) codes.push(code)]; the
    one-element array pushed there counts as its element when
    [String.fromCharCode] turns it into a number. *)
Definition encode (url : list Z) : list Z :=
  let st := fold_left encode_step url {| codes := []; code := [] |} in
  fromCharCode
    match code st with
    | [c0] => codes st ++ [c0]
    | _ => codes st
    end.

(** What one code unit of the short link gives back:
    [urlAllowedChars[...]] is [undefined] outside the alphabet. *)
Definition decode_unit (cu : Z) : list (option Z) :=
  if cu >? 255
  then [js_get urlAllowedChars (Z.shiftr cu 8);
        js_get urlAllowedChars (Z.land 255 cu)]
  else [js_get urlAllowedChars cu].

(** [result.join('')]: an [undefined] element gives the empty string. *)
Definition decode (code : list Z) : list Z :=
  omap id (code ≫= decode_unit).

(** The code unit of the letter A, the first of the alphabet. *)
Definition letter_A : Z := 65.

End UrlShortener.

(** * Stock quotes *)

Module StockQuotes.

(** [values[i] = x] where the source does it: at [i = values.length],
    which appends, or inside the array. *)
Definition write (values : list Z) (i : nat) (x : Z) : list Z :=
  if (i <? length values)%nat then <[i := x]> values else values ++ [x].

(** The inner loop, [n] being [j + 1]:
    [for (j = i - 1; j >= 0 && quotes[j] <= quotes[i]; j--)
       { values[j] = 0; values[i] += quotes[i] - quotes[j] }].
    A comparison with [undefined] is false. *)
Fixpoint inner (quotes : list Z) (i n : nat) (values : list Z) : list Z :=
  match n with
  | O => values
  | S j =>
    match quotes !! j, quotes !! i with
    | Some qj, Some qi =>
      if qj <=? qi
      then inner quotes i j
             (alter (fun v => v + (qi - qj)) i (write values j 0))
      else values
    | _, _ => values
    end
  end.

(** [values.reduce((sum, v) => sum + v, 0)] *)
Definition total (values : list Z) : Z := fold_left Z.add values 0.

(** The quotes are taken as integers, on which the arithmetic of
    JavaScript numbers is exact (below [2^53]). *)
Definition getMostProfitFromStockQuotes (quotes : list Z) : Z :=
  total (fold_left (fun values i => inner quotes i i (write values i 0))
                   (seq 0 (length quotes)) []).

(** The highest of a quote and the quotes after it. *)
Definition highest (q : Z) (later : list Z) : Z := foldr Z.max q later.



End StockQuotes.

(** * Text wrapping *)

Module WrapText.

(** [text.charAt(i) === ' '] *)
Definition is_space_at (text : list ascii) (i : Z) : bool :=
  bool_decide (js_get text i = Some " "%char).

(** The [for] loop: the last [i] from [1] to [columns] with a space at
    place [i], the length of the text when there is none. *)
Definition wordBoundary (text : list ascii) (columns : Z) : Z :=
  fold_left (fun wb i => if is_space_at text i then i else wb)
            (seqZ 1 columns) (Z.of_nat (length text)).

(** [text.substring(0, n)] and [text.substr(n)] for [n >= 0]. *)
Definition substring_to (text : list ascii) (n : Z) : list ascii :=
  take (Z.to_nat n) text.

Definition substr_from (text : list ascii) (n : Z) : list ascii :=
  drop (Z.to_nat n) text.

(** The lines the generator yields until it is done; [None] when the
    [while] loop is still running after [fuel] rounds. *)
Fixpoint wrapText (fuel : nat) (text : list ascii) (columns : Z)
  : option (list (list ascii)) :=
  match fuel with
  | O => None
  | S fuel =>
    if Z.of_nat (length text) >? columns then
      let wb := wordBoundary text columns in
      rest ← wrapText fuel (substr_from text (wb + 1)) columns;
      Some (substring_to text wb :: rest)
    else Some [text]
  end.

(** The lines put together again, one space between two lines. *)
Fixpoint join_spaces (lines : list (list ascii)) : list ascii :=
  match lines with
  | [] => []
  | [line] => line
  | line :: rest => line ++ " "%char :: join_spaces rest
  end.

(** A line within the limit. *)
Definition fits (columns : Z) (line : list ascii) : Prop :=
  Z.of_nat (length line) <= columns.

(** A line with no space to break it at within the limit. *)
Definition unbreakable (columns : Z) (line : list ascii) : Prop :=
  forall i, 1 <= i <= columns -> js_get line i <> Some " "%char.

End WrapText.

(** * Bank account numbers *)

Module BankAccount.

(** The line feed. *)
Definition nl : ascii := "010"%char.

(** [s.split(sep)] for a separator of one character. *)
Fixpoint split (sep : ascii) (s : list ascii) : list (list ascii) :=
  match s with
  | [] => [[]]
  | c :: s =>
    if decide (c = sep) then [] :: split sep s
    else match split sep s with
         | [] => [[c]]
         | piece :: pieces => (c :: piece) :: pieces
         end
  end.

(** [s.slice(a, b)] for [0 <= a <= b]. *)
Definition slice (s : list ascii) (a b : nat) : list ascii :=
  take (b - a) (drop a s).

(** [[r0, r1, r2].join('\n')] *)
Definition key (r0 r1 r2 : list ascii) : list ascii :=
  r0 ++ nl :: r1 ++ nl :: r2.

(** The three rows of each digit, as the keys of [map] spell them. *)
Definition glyphs : list (string * string * string) :=
  [(" _ ", "| |", "|_|"); ("   ", "  |", "  |"); (" _ ", " _|", "|_ ");
   (" _ ", " _|", " _|"); ("   ", "|_|", "  |"); (" _ ", "|_ ", " _|");
   (" _ ", "|_ ", "|_|"); (" _ ", "  |", "  |"); (" _ ", "|_|", "|_|");
   (" _ ", "|_|", " _|")]%string.

(** The character of a decimal digit. *)
Definition digit_char (d : nat) : ascii := ascii_of_nat (48 + d).

(** The object [map], key by key. *)
Definition map : list (list ascii * ascii) :=
  imap (fun d '(r0, r1, r2) =>
          (key (list_ascii_of_string r0) (list_ascii_of_string r1)
               (list_ascii_of_string r2), digit_char d)) glyphs.

(** [map[k]], [undefined] for a key that is not there. *)
Definition map_at (k : list ascii) : option ascii :=
  match list_find (fun entry => entry.1 = k) map with
  | Some (_, (_, digit)) => Some digit
  | None => None
  end.

(** [result += x]: [undefined] is appended as the word. *)
Definition append (result : list ascii) (x : option ascii) : list ascii :=
  result ++ match x with
            | Some c => [c]
            | None => list_ascii_of_string "undefined"
            end.

(** What the call gives: a number, [NaN], or a [TypeError] thrown. *)
Inductive parsed := Number (n : Z) | NaN | TypeError.

(** The decimal digits the string starts with. *)
Fixpoint leading_digits (s : list ascii) : list nat :=
  match s with
  | [] => []
  | c :: s =>
    let n := nat_of_ascii c in
    if bool_decide (48 <= n <= 57)%nat then (n - 48)%nat :: leading_digits s
    else []
  end.

Definition decimal (digits : list nat) : Z :=
  fold_left (fun n d => 10 * n + Z.of_nat d) digits 0.

(** [Number.parseInt(s)] on a string that begins with a digit or with a
    letter, as [result] does: the number its leading digits write, [NaN]
    when it has none. *)
Definition parseInt (s : list ascii) : parsed :=
  match leading_digits s with
  | [] => NaN
  | digits => Number (decimal digits)
  end.

(** [rows[1].slice] and [rows[2].slice] throw when the text has fewer
    than three lines; [rows[0]] is always there. *)
Definition parseBankAccount (bankAccount : list ascii) : parsed :=
  let rows := split nl bankAccount in
  match rows !! 0%nat, rows !! 1%nat, rows !! 2%nat with
  | Some r0, Some r1, Some r2 =>
    parseInt
      (fold_left (fun result i =>
          append result
            (map_at (key (slice r0 (3 * i) (3 * i + 3))
                         (slice r1 (3 * i) (3 * i + 3))
                         (slice r2 (3 * i) (3 * i + 3)))))
        (seq 0 9) [])
  | _, _, _ => TypeError
  end.

(** Row [k] of the picture of a digit. *)
Definition glyph_row (k : nat) (d : nat) : list ascii :=
  match glyphs !! d with
  | Some (r0, r1, r2) =>
    list_ascii_of_string
      match k with O => r0 | S O => r1 | _ => r2 end
  | None => []
  end.

(** An account number written with the pictures of the digits: three
    lines, each ended by a line feed. *)
Definition picture (digits : list nat) : list ascii :=
  mjoin (glyph_row 0 <$> digits) ++ nl ::
  mjoin (glyph_row 1 <$> digits) ++ nl ::
  mjoin (glyph_row 2 <$> digits) ++ [nl].

End BankAccount.

(** * Rectangles of a figure *)

Module FigureRectangles.

(** What an expression gives: a value, or an exception thrown. *)
Inductive error := TypeError | RangeError.

Inductive result (A : Type) := Ok (a : A) | Throw (e : error).
Arguments Ok {A} a.
Arguments Throw {A} e.

#[global] Instance result_bind : MBind result := fun A B f m =>
  match m with
  | Ok a => f a
  | Throw e => Throw e
  end.

(** [rows[top][left]]: a [TypeError] when [rows[top]] is [undefined],
    [undefined] when the row is too short. *)
Definition char_at (rows : list (list ascii)) (top left : nat)
  : result (option ascii) :=
  match rows !! top with
  | Some row => Ok (row !! left)
  | None => Throw TypeError
  end.

(** [x === c] *)
Definition is_char (c : ascii) (x : option ascii) : bool :=
  bool_decide (x = Some c).

(** The first index of a [for] loop whose body returns, [None] when the
    loop runs to its end. *)
Fixpoint find_first (test : nat -> result bool) (l : list nat)
  : result (option nat) :=
  match l with
  | [] => Ok None
  | i :: l =>
    b ← test i;
    if b : bool then Ok (Some i) else find_first test l
  end.

(** [s.repeat(count)] *)
Definition repeat (s : list ascii) (count : Z) : result (list ascii) :=
  if count <? 0 then Throw RangeError
  else Ok (mjoin (replicate (Z.to_nat count) s)).

Section Figure.
Variable rows : list (list ascii).

Definition isTopLeft (top left : nat) : result bool :=
  a ← char_at rows top left;
  if negb (is_char "+" a) then Ok false else
  b ← char_at rows (top + 1) left;
  if negb (is_char "|" b || is_char "+" b) then Ok false else
  c ← char_at rows top (left + 1);
  Ok (is_char "-" c || is_char "+" c).

Definition getWidth (top left : nat) : result Z :=
  match rows !! top with
  | None => Throw TypeError
  | Some row =>
    found ← find_first (fun i =>
        a ← char_at rows top i;
        if negb (is_char "+" a) then Ok false else
        b ← char_at rows (top + 1) i;
        Ok (is_char "|" b || is_char "+" b))
      (seq (left + 1) (length row - (left + 1)));
    Ok match found with
       | Some i => Z.of_nat i - Z.of_nat left + 1
       | None => 0
       end
  end.

Definition getHeight (top left : nat) : result Z :=
  found ← find_first (fun i =>
      a ← char_at rows i left;
      if negb (is_char "+" a) then Ok false else
      b ← char_at rows i (left + 1);
      Ok (is_char "-" b || is_char "+" b))
    (seq (top + 1) (length rows - (top + 1)));
  Ok match found with
     | Some i => Z.of_nat i - Z.of_nat top + 1
     | None => 0
     end.

Definition buildRect (top left : nat) (width height : Z)
  : result (list ascii) :=
  border ← repeat ["-"%char] (width - 2);
  inner ← repeat [" "%char] (width - 2);
  middle ← repeat ("|"%char :: inner ++ ["|"%char; BankAccount.nl])
                  (height - 2);
  border' ← repeat ["-"%char] (width - 2);
  Ok ("+"%char :: border ++ ["+"%char; BankAccount.nl] ++ middle
      ++ "+"%char :: border' ++ ["+"%char; BankAccount.nl]).

(** The body of the inner loop: the piece it yields, if any. *)
Definition visit (top left : nat) : result (option (list ascii)) :=
  corner ← isTopLeft top left;
  if corner : bool then
    width ← getWidth top left;
    height ← getHeight top left;
    if negb (width =? 0) && negb (height =? 0) then
      piece ← buildRect top left width height;
      Ok (Some piece)
    else Ok None
  else Ok None.

(** The loops over the cells: the pieces yielded, in order, and the
    exception that ended the iteration, if one did. *)
Fixpoint scan (cells : list (nat * nat))
  : list (list ascii) * option error :=
  match cells with
  | [] => ([], None)
  | at_ :: cells =>
    match visit at_.1 at_.2 with
    | Throw e => ([], Some e)
    | Ok piece =>
      let '(pieces, e) := scan cells in
      (match piece with Some p => p :: pieces | None => pieces end, e)
    end
  end.

(** The cells in the order of the two loops. *)
Definition cells : list (nat * nat) :=
  mjoin (imap (fun top row => (fun left => (top, left)) <$> seq 0 (length row))
              rows).

End Figure.

(** The rows are the lines of the figure, each spread into its
    characters. *)
Definition getFigureRectangles (figure : list ascii)
  : list (list ascii) * option error :=
  let rows := BankAccount.split BankAccount.nl figure in
  scan rows (cells rows).

(** The lines of a rectangle with [w] columns between its corners and
    [h] rows between its borders. *)
Definition edge (w : nat) : list ascii :=
  "+"%char :: replicate w "-"%char ++ ["+"%char].

Definition side (w : nat) : list ascii :=
  "|"%char :: replicate w " "%char ++ ["|"%char].

Definition rectangle_rows (w h : nat) : list (list ascii) :=
  edge w :: replicate h (side w) ++ [edge w; []].

(** The text whose lines are [rows], each ended by a line feed. *)
Definition lines (rows : list (list ascii)) : list ascii :=
  mjoin ((fun row => row ++ [BankAccount.nl]) <$> rows).

Definition figure_of (rows : list string) : list ascii :=
  lines (list_ascii_of_string <$> rows).

End FigureRectangles.

(** * Poker hands *)

Module PokerHands.

Inductive PokerRank :=
  | StraightFlush | FourOfKind | FullHouse | Flush | Straight
  | ThreeOfKind | TwoPairs | OnePair | HighCard.

(** The numbers the ranks stand for. *)
Definition rank_number (rank : PokerRank) : Z :=
  match rank with
  | StraightFlush => 8 | FourOfKind => 7 | FullHouse => 6 | Flush => 5
  | Straight => 4 | ThreeOfKind => 3 | TwoPairs => 2 | OnePair => 1
  | HighCard => 0
  end.

(** Strings are lists of UTF-16 code units; a suit sign is one unit. *)
Definition order : list (list Z) :=
  UrlShortener.code_units <$>
    ["A"; "2"; "3"; "4"; "5"; "6"; "7"; "8"; "9"; "10"; "J"; "Q"; "K"; "A"]
    %string.

(** [order.indexOf(v, from)] *)
Definition order_indexOf (v : list Z) (from : nat) : Z :=
  match list_find (fun x => x = v) (drop from order) with
  | Some (i, _) => Z.of_nat (from + i)
  | None => -1
  end.

(** An object that starts as [{}] and is only assigned numbers: its own
    properties in the order they were created. *)
Fixpoint get (o : list (list Z * Z)) (k : list Z) : option Z :=
  match o with
  | [] => None
  | (k', n) :: o => if decide (k' = k) then Some n else get o k
  end.

Fixpoint set (o : list (list Z * Z)) (k : list Z) (n : Z)
  : list (list Z * Z) :=
  match o with
  | [] => [(k, n)]
  | (k', n') :: o =>
    if decide (k' = k) then (k', n) :: o else (k', n') :: set o k n
  end.

(** The names [{}] inherits from [Object.prototype]. *)
Definition inherited : list (list Z) :=
  UrlShortener.code_units <$>
    ["constructor"; "__defineGetter__"; "__defineSetter__";
     "hasOwnProperty"; "__lookupGetter__"; "__lookupSetter__";
     "isPrototypeOf"; "propertyIsEnumerable"; "toString"; "valueOf";
     "__proto__"; "toLocaleString"]%string.

(** The body of both [reduce] calls: [o[k] = (o[k] || 0) + 1].  For a
    name of [inherited], [o[k]] is a function or an object and the sum
    is a string that depends on the engine: that is [None] here, and
    stays [None]. *)
Definition count (o : option (list (list Z * Z))) (k : list Z)
  : option (list (list Z * Z)) :=
  o ← o;
  if decide (k ∈ inherited) then None
  else
    let old := match get o k with
               | Some n => if n =? 0 then 0 else n
               | None => 0
               end in
    Some (set o k (old + 1)).

(** [card.substr(-1, 1)] and [card.substr(0, card.length - 1)] *)
Definition suit_of (card : list Z) : list Z :=
  drop (length card - 1) card.

Definition value_of (card : list Z) : list Z :=
  take (length card - 1) card.

(** The number a key stands for when it is an array index: decimal
    digits without a leading zero, below [2^32 - 1]. *)
Definition array_index (k : list Z) : option Z :=
  match k with
  | [] => None
  | c :: rest =>
    if forallb (fun c => (48 <=? c) && (c <=? 57)) k
       && negb ((c =? 48) && negb (bool_decide (rest = [])))
    then
      let n := fold_left (fun n c => 10 * n + (c - 48)) k 0 in
      if n <? 4294967295 then Some n else None
    else None
  end.

Definition index_le (a b : Z * (list Z * Z)) : Prop := a.1 <= b.1.

#[global] Instance index_le_dec a b : Decision (index_le a b) :=
  decide (a.1 <= b.1).

(** The order in which an object lists its own properties: the array
    indices in ascending order, then the other keys in the order of
    their creation. *)
Definition own (o : list (list Z * Z)) : list (list Z * Z) :=
  (snd <$> merge_sort index_le
             (omap (fun e => n ← array_index e.1; Some (n, e)) o))
  ++ filter (fun e => array_index e.1 = None) o.

Definition Object_keys (o : list (list Z * Z)) : list (list Z) :=
  fst <$> own o.

Definition Object_values (o : list (list Z * Z)) : list Z :=
  snd <$> own o.

Definition isFlush (suitsMap : list (list Z * Z)) : bool :=
  forallb (fun count => count =? 5) (Object_values suitsMap).

(** The test of [isStraight] on the keys of the object;
    [.sort((a, b) => a - b)] puts the numbers in ascending order. *)
Definition in_a_row (keys : list (list Z)) (aceLast : bool) : bool :=
  Nat.eqb (length keys) 5
  && let arr := merge_sort Z.le
                  ((fun v => order_indexOf v (if aceLast then 1 else 0)%nat)
                     <$> keys) in
     match arr with
     | [] => true
     | first :: _ =>
       forallb (fun b : bool => b)
               (imap (fun i v => v - first =? Z.of_nat i) arr)
     end.

Definition isStraight (valuesMap : list (list Z * Z)) (aceLast : bool)
  : bool :=
  in_a_row (Object_keys valuesMap) aceLast.

(** [find] gives the count it has found, which is not zero, or
    [undefined]. *)
Definition isFourOfKind (valuesMap : list (list Z * Z)) : bool :=
  existsb (fun count => count =? 4) (Object_values valuesMap).

Definition isThreeOfKind (valuesMap : list (list Z * Z)) : bool :=
  existsb (fun count => count =? 3) (Object_values valuesMap).

Definition isPair (valuesMap : list (list Z * Z)) : bool :=
  existsb (fun count => count =? 2) (Object_values valuesMap).

Definition isFullHouse (valuesMap : list (list Z * Z)) : bool :=
  isThreeOfKind valuesMap && isPair valuesMap.

Definition isTwoPairs (valuesMap : list (list Z * Z)) : bool :=
  Nat.eqb (length (filter (fun count => count = 2)
                           (Object_values valuesMap))) 2.

Definition rank_of (suits values : list (list Z * Z)) : PokerRank :=
  if isStraight values false || isStraight values true then
    if isFlush suits then StraightFlush else Straight
  else if isFlush suits then Flush
  else if isFourOfKind values then FourOfKind
  else if isFullHouse values then FullHouse
  else if isThreeOfKind values then ThreeOfKind
  else if isTwoPairs values then TwoPairs
  else if isPair values then OnePair
  else HighCard.

Definition getPokerHandRank (hand : list (list Z)) : option PokerRank :=
  suits ← fold_left (fun suits card => count suits (suit_of card))
                    hand (Some []);
  values ← fold_left (fun values card => count values (value_of card))
                     hand (Some []);
  Some (rank_of suits values).

(** The four suit signs, and a card written as its value and suit. *)
Definition hearts : Z := 9829.
Definition spades : Z := 9824.
Definition diamonds : Z := 9830.
Definition clubs : Z := 9827.

Definition card (value : string) (suit : Z) : list Z :=
  UrlShortener.code_units value ++ [suit].

(** The five values in a row that start at place [i] of [order]. *)
Definition window (i : nat) : list (list Z) := take 5 (drop i order).

(** Every choice of entries of a list, in the order of the list. *)
Fixpoint sublists {A} (l : list A) : list (list A) :=
  match l with
  | [] => [[]]
  | x :: l => ((fun s => x :: s) <$> sublists l) ++ sublists l
  end.

End PokerHands.

(** * Proofs: indexing *)

Lemma js_get_nat {A : Type} (a : list A) (n : nat) :
  js_get a (Z.of_nat n) = a !! n.
Proof.
  unfold js_get. destruct (Z.ltb_spec (Z.of_nat n) 0); [lia|].
  by rewrite Nat2Z.id.
Qed.

Lemma js_get_Some {A : Type} (a : list A) (i : Z) (x : A) :
  js_get a i = Some x -> 0 <= i /\ a !! Z.to_nat i = Some x.
Proof.
  unfold js_get. destruct (Z.ltb_spec i 0); [done|]. auto.
Qed.

Lemma js_get_neg {A : Type} (a : list A) (i : Z) : i < 0 -> js_get a i = None.
Proof. unfold js_get. destruct (Z.ltb_spec i 0); [done|lia]. Qed.

(** * Proofs: the snaking puzzle *)

Module SnakingPuzzleProofs.

Import SnakingPuzzle.

(** ** The mask *)

Lemma is_visited_flag v i j : is_visited v i j = default false (flag_at v i j).
Proof. unfold is_visited, flag_at. by destruct (js_get v i). Qed.

Lemma flag_at_Some v i j b :
  flag_at v i j = Some b <->
  0 <= i /\ 0 <= j /\
  exists row, v !! Z.to_nat i = Some row /\ row !! Z.to_nat j = Some b.
Proof.
  unfold flag_at. split.
  - destruct (js_get v i) as [row|] eqn:Hrow; [|done]. cbn.
    intros [? ?]%js_get_Some. apply js_get_Some in Hrow as [? ?]. eauto.
  - intros (Hi & Hj & row & Hrow & Hb).
    rewrite <- (Z2Nat.id i), <- (Z2Nat.id j), js_get_nat by done.
    rewrite Hrow. cbn. by rewrite js_get_nat.
Qed.

Lemma set_visited_nat (m n : nat) b v :
  set_visited (Z.of_nat m) (Z.of_nat n) b v =
  alter (fun row => <[n := b]> row) m v.
Proof.
  unfold set_visited.
  destruct (Z.leb_spec 0 (Z.of_nat m)); [|lia].
  destruct (Z.leb_spec 0 (Z.of_nat n)); [|lia].
  cbn. by rewrite !Nat2Z.id.
Qed.

Lemma flag_at_nat v (m n : nat) :
  flag_at v (Z.of_nat m) (Z.of_nat n) = row ← v !! m; row !! n.
Proof.
  unfold flag_at. rewrite js_get_nat. destruct (v !! m); [|done].
  cbn. by rewrite js_get_nat.
Qed.

Lemma flag_at_set_ne v i j i' j' b :
  (i, j) <> (i', j') ->
  flag_at (set_visited i j b v) i' j' = flag_at v i' j'.
Proof.
  intros Hne. unfold set_visited.
  destruct (Z.leb_spec 0 i); [|done].
  destruct (Z.leb_spec 0 j); [|done]. cbn.
  unfold flag_at.
  destruct (Z.ltb_spec i' 0); [by rewrite !js_get_neg|].
  rewrite <- (Z2Nat.id i'), !js_get_nat by done.
  destruct (decide (Z.to_nat i = Z.to_nat i')) as [Heq|Hneq].
  - rewrite <- Heq, list_lookup_alter_eq.
    destruct (v !! Z.to_nat i) as [row|]; [|done]. cbn.
    destruct (Z.ltb_spec j' 0); [by rewrite !js_get_neg|].
    rewrite <- (Z2Nat.id j'), !js_get_nat by done.
    apply list_lookup_insert_ne. intros Hj. apply Hne. f_equal; lia.
  - by rewrite list_lookup_alter_ne.
Qed.

Lemma set_visited_id v i j b : flag_at v i j = Some b -> set_visited i j b v = v.
Proof.
  intros (Hi & Hj & row & Hrow & Hb)%flag_at_Some.
  rewrite <- (Z2Nat.id i), <- (Z2Nat.id j) by done.
  rewrite set_visited_nat. apply list_eq. intros m.
  destruct (decide (Z.to_nat i = m)) as [<-|Hne].
  - rewrite list_lookup_alter_eq, Hrow. cbn. by rewrite list_insert_id.
  - by rewrite list_lookup_alter_ne.
Qed.

Lemma set_visited_twice v i j b b' :
  set_visited i j b (set_visited i j b' v) = set_visited i j b v.
Proof.
  unfold set_visited. destruct ((0 <=? i) && (0 <=? j)); [|done].
  rewrite list_alter_alter_eq. apply list_alter_ext; [|done].
  intros row _. cbn. apply list_insert_insert_eq.
Qed.

(** Marking a cell and unmarking it again leaves an unmarked cell of the
    mask as it was. *)
Lemma set_visited_undo v i j :
  flag_at v i j = Some false ->
  set_visited i j false (set_visited i j true v) = v.
Proof. intros H. by rewrite set_visited_twice, set_visited_id. Qed.

Lemma count_true_app v1 v2 :
  count_true (v1 ++ v2) = (count_true v1 + count_true v2)%nat.
Proof.
  unfold count_true. by rewrite join_app, filter_app, length_app.
Qed.

Lemma count_true_cons row v :
  count_true (row :: v) =
  (length (filter (fun b => b = true) row) + count_true v)%nat.
Proof. unfold count_true. cbn. by rewrite filter_app, length_app. Qed.

Lemma count_true_set_true v i j :
  flag_at v i j = Some false ->
  count_true (set_visited i j true v) = S (count_true v).
Proof.
  intros (Hi & Hj & row & Hrow & Hb)%flag_at_Some.
  rewrite <- (Z2Nat.id i), <- (Z2Nat.id j) by done.
  rewrite set_visited_nat.
  rewrite <- (take_drop_middle v _ _ Hrow) at 2.
  rewrite <- (take_drop_middle v _ _ Hrow) at 1.
  rewrite alter_app_r_alt by (rewrite length_take; apply lookup_lt_Some in Hrow; lia).
  replace (Z.to_nat i - length (take (Z.to_nat i) v))%nat with 0%nat
    by (rewrite length_take; apply lookup_lt_Some in Hrow; lia).
  cbn [alter list_alter]. rewrite !count_true_app, !count_true_cons.
  rewrite insert_take_drop by (by eapply lookup_lt_Some).
  rewrite <- (take_drop_middle row _ _ Hb) at 3.
  rewrite !filter_app, !length_app.
  rewrite filter_cons_True by done. rewrite filter_cons_False by done.
  cbn [length]. lia.
Qed.

Lemma count_true_all_false v : all_false v -> count_true v = 0%nat.
Proof.
  unfold all_false. induction 1 as [|row v Hrow _ IH]; [done|].
  rewrite count_true_cons, IH.
  induction Hrow as [|b row -> _ IHrow]; [done|].
  by rewrite filter_cons_False.
Qed.

(** ** The search *)

Section Search.

Variable puzzle : list (list ascii).
Variable searchStr : list ascii.

Lemma grid_at_Some i j c :
  grid_at puzzle i j = Some c <->
  0 <= i /\ 0 <= j /\
  exists row, puzzle !! Z.to_nat i = Some row /\ row !! Z.to_nat j = Some c.
Proof.
  unfold grid_at. split.
  - destruct (js_get puzzle i) as [row|] eqn:Hrow; [|done]. cbn.
    intros [? ?]%js_get_Some. apply js_get_Some in Hrow as [? ?]. eauto.
  - intros (Hi & Hj & row & Hrow & Hb).
    rewrite <- (Z2Nat.id i), <- (Z2Nat.id j), js_get_nat by done.
    rewrite Hrow. cbn. by rewrite js_get_nat.
Qed.

Lemma same_shape_init : same_shape puzzle (init_visited puzzle).
Proof.
  unfold same_shape, init_visited. apply Forall2_fmap_r.
  apply Forall_Forall2_diag, Forall_forall. intros row _.
  apply length_replicate.
Qed.

Lemma same_shape_set v i j b : same_shape puzzle v -> same_shape puzzle (set_visited i j b v).
Proof.
  unfold same_shape, set_visited. intros Hv.
  destruct ((0 <=? i) && (0 <=? j)); [|done].
  apply Forall2_alter_r; [done|]. intros row flags _ _ <-.
  apply length_insert.
Qed.

(** A cell of the grid has a flag, and the other way round. *)
Lemma same_shape_flag v i j :
  same_shape puzzle v -> is_Some (flag_at v i j) <-> is_Some (grid_at puzzle i j).
Proof.
  intros Hv. split.
  - intros [b (Hi & Hj & flags & Hf & Hb)%flag_at_Some].
    destruct (Forall2_lookup_r _ _ _ _ _ Hv Hf) as (row & Hrow & Hlen).
    destruct (lookup_lt_is_Some_2 row (Z.to_nat j)) as [c Hc].
    { rewrite <- Hlen. by eapply lookup_lt_Some. }
    exists c. apply grid_at_Some. eauto.
  - intros [c (Hi & Hj & row & Hrow & Hc)%grid_at_Some].
    destruct (Forall2_lookup_l _ _ _ _ _ Hv Hrow) as (flags & Hf & Hlen).
    destruct (lookup_lt_is_Some_2 flags (Z.to_nat j)) as [b Hb].
    { rewrite Hlen. by eapply lookup_lt_Some. }
    exists b. apply flag_at_Some. eauto.
Qed.

Lemma unvisited_flag v i j c :
  same_shape puzzle v -> grid_at puzzle i j = Some c -> is_visited v i j = false ->
  flag_at v i j = Some false.
Proof.
  intros Hv Hc Hvis.
  destruct (proj2 (same_shape_flag v i j Hv)) as [b Hb]; [by eexists|].
  rewrite is_visited_flag, Hb in Hvis. cbn in Hvis. by subst.
Qed.

(** On a character of the word, [puzzle[i] && puzzle[i][j] ===
    searchStr[index]] says that cell [(i, j)] of the grid holds it. *)
Lemma cell_matches_spec i j idx c :
  js_get searchStr idx = Some c ->
  cell_matches puzzle searchStr i j idx = true <-> grid_at puzzle i j = Some c.
Proof.
  intros Hc. unfold cell_matches, SnakingPuzzle.grid_at. rewrite Hc.
  destruct (js_get puzzle i) as [[|a row]|]; cbn.
  - split; [done|]. intros [_ H]%js_get_Some. by rewrite lookup_nil in H.
  - by rewrite bool_decide_eq_true.
  - done.
Qed.

Lemma cell_matches_in_grid i j idx :
  0 <= idx < Z.of_nat (length searchStr) ->
  cell_matches puzzle searchStr i j idx = true -> is_Some (grid_at puzzle i j).
Proof.
  intros Hidx Hm.
  destruct (lookup_lt_is_Some_2 searchStr (Z.to_nat idx)) as [c Hc]; [lia|].
  exists c. eapply cell_matches_spec; [|done].
  by rewrite <- (Z2Nat.id idx), js_get_nat by lia.
Qed.

Lemma snake_in_grid word i j v : snake puzzle word i j v -> is_Some (grid_at puzzle i j).
Proof. destruct word; [done|]. intros [? _]. eauto. Qed.

Lemma guard_true d i j st :
  guard d i j st = true ->
  is_visited (visited st) (move d i j).1 (move d i j).2 = false.
Proof.
  destruct d; cbn; rewrite ?andb_true_iff, !negb_true_iff; tauto.
Qed.

Lemma guard_false d i j st :
  same_shape puzzle (visited st) ->
  guard d i j st = false ->
  is_visited (visited st) (move d i j).1 (move d i j).2 = true \/
  grid_at puzzle (move d i j).1 (move d i j).2 = None.
Proof.
  intros Hv.
  assert (Hrow : forall i' j', row_defined (visited st) i' = false ->
                          grid_at puzzle i' j' = None).
  { intros i' j' Hr. unfold grid_at.
    destruct (js_get puzzle i') as [row|] eqn:Hp; [|done]. exfalso.
    apply js_get_Some in Hp as [Hi Hp].
    destruct (Forall2_lookup_l _ _ _ _ _ Hv Hp) as (flags & Hf & _).
    apply bool_decide_eq_false in Hr. apply Hr. exists flags.
    by rewrite <- (Z2Nat.id i'), js_get_nat. }
  destruct d; cbn; rewrite ?andb_false_iff, !negb_false_iff;
    intros Hg; destruct_or?; auto.
Qed.

(** The four recursive calls, in any order: what they answer, given what
    each call answers. *)
Lemma try_dirs_spec call i j word st :
  same_shape puzzle (visited st) ->
  (forall i' j', is_visited (visited st) i' j' = false ->
     exists b st', call i' j' st = Some (b, st') /\
       (b = false -> st' = st) /\
       (b = true <-> snake puzzle word i' j' (visited st))) ->
  forall dirs, exists b st',
    try_dirs call i j dirs st = Some (b, st') /\
    (b = false -> st' = leave i j st) /\
    (b = true <->
     exists d, d ∈ dirs /\
       is_visited (visited st) (move d i j).1 (move d i j).2 = false /\
       snake puzzle word (move d i j).1 (move d i j).2 (visited st)).
Proof.
  intros Hv Hcall dirs. induction dirs as [|d dirs IH].
  { exists false, (leave i j st). split_and!; [done..|].
    split; [done|]. by intros (d & ?%elem_of_nil & _). }
  destruct IH as (b & st' & Hrest & Hfalse & Htrue).
  cbn [try_dirs]. unfold try_call.
  destruct (guard d i j st) eqn:Hg.
  - apply guard_true in Hg.
    destruct (Hcall _ _ Hg) as (b1 & st1 & -> & Hf1 & Ht1).
    destruct b1.
    + exists true, st1. split_and!; [done..|]. split; [|done].
      intros _. exists d. split_and!; [left|done|by apply Ht1].
    + rewrite (Hf1 eq_refl). exists b, st'. split_and!; [done..|].
      rewrite Htrue. split.
      * intros (d' & ? & ?). exists d'. split; [by right|done].
      * intros (d' & [->|?]%elem_of_cons & Hd' & Hs); [|by eauto].
        apply Ht1 in Hs. done.
  - exists b, st'. split_and!; [done..|]. rewrite Htrue. split.
    + intros (d' & ? & ?). exists d'. split; [by right|done].
    + intros (d' & [->|?]%elem_of_cons & Hd' & Hs); [|by eauto].
      apply guard_false in Hg as [Hg|Hg]; [congruence| |done].
      apply snake_in_grid in Hs as [c Hs]. congruence.
Qed.

Lemma all_directions d : d ∈ source_order.
Proof. unfold source_order. destruct d; repeat constructor. Qed.

(** What a call answers and what it leaves behind, whatever the order of
    the neighbours. *)
Lemma canFind_ordered_spec dirs :
  (forall d, d ∈ dirs) ->
  forall fuel (idx : nat) i j v,
    (idx < length searchStr)%nat ->
    (length searchStr - idx <= fuel)%nat ->
    same_shape puzzle v ->
    is_visited v i j = false ->
    let st := {| index := Z.of_nat idx; visited := v |} in
    exists b st',
      canFindStartedFrom_ordered puzzle searchStr dirs fuel i j st
        = Some (b, st') /\
      (b = false -> st' = st) /\
      (b = true <-> snake puzzle (drop idx searchStr) i j v).
Proof.
  intros Hdirs fuel. induction fuel as [|fuel IH];
    intros idx i j v Hidx Hfuel Hv Hvis st; [lia|].
  destruct (lookup_lt_is_Some_2 searchStr idx Hidx) as [c Hc].
  rewrite (drop_S _ _ _ Hc).
  cbn [canFindStartedFrom_ordered]. subst st. cbn [index visited enter].
  pose proof (cell_matches_spec i j (Z.of_nat idx) c) as Hm.
  rewrite js_get_nat in Hm. specialize (Hm Hc).
  destruct (cell_matches puzzle searchStr i j (Z.of_nat idx)) eqn:Hcm.
  2: { eexists false, _. split_and!; [done..|]. split; [done|].
       intros [Hg _]. apply Hm in Hg. done. }
  assert (Hg : grid_at puzzle i j = Some c) by by apply Hm.
  pose proof (unvisited_flag v i j c Hv Hg Hvis) as Hflag.
  destruct (Z.eqb_spec (Z.of_nat idx + 1) (Z.of_nat (length searchStr)))
    as [Hlast|Hlast].
  { eexists true, _. split_and!; [done..|]. split; [|done]. intros _.
    split; [done|]. left. apply drop_ge. lia. }
  set (st1 := enter i j {| index := Z.of_nat idx; visited := v |}).
  destruct (try_dirs_spec
              (canFindStartedFrom_ordered puzzle searchStr dirs fuel)
              i j (drop (S idx) searchStr) st1) with (dirs := dirs)
    as (b & st' & Hrun & Hfalse & Htrue).
  { by apply same_shape_set. }
  { intros i' j' Hvis'.
    replace st1 with {| index := Z.of_nat (S idx);
                        visited := set_visited i j true v |}
      by (unfold st1, enter; cbn; f_equal; lia).
    apply IH; [lia|lia|by apply same_shape_set|done]. }
  exists b, st'. split_and!.
  - exact Hrun.
  - intros Hb. rewrite (Hfalse Hb). unfold leave, st1, enter. cbn.
    rewrite set_visited_undo by done. f_equal. lia.
  - rewrite Htrue. cbn [snake]. split.
    + intros (d & _ & ? & ?). split; [done|]. right. by exists d.
    + intros [_ [Hnil|(d & ? & ?)]].
      * apply (f_equal length) in Hnil. rewrite length_drop in Hnil.
        cbn in Hnil. lia.
      * exists d. split_and!; [apply Hdirs|done..].
Qed.

Lemma try_call_ext cond call call' rest rest' st :
  (forall st, call st = call' st) -> (forall st, rest st = rest' st) ->
  try_call cond call rest st = try_call cond call' rest' st.
Proof.
  intros Hc Hr. unfold try_call. rewrite Hc.
  destruct (cond st); [|done]. by destruct (call' st) as [[[] ?]|].
Qed.

Lemma for_until_ext {I : Type} (body body' : I -> state -> option (bool * state))
    range st :
  (forall i st, body i st = body' i st) ->
  for_until body range st = for_until body' range st.
Proof.
  intros Hb. revert st. induction range as [|i range IH]; intros st; [done|].
  cbn. rewrite Hb. destruct (body' i st) as [[[] ?]|]; auto.
Qed.

(** The source tries the neighbours in the order up, down, left, right. *)
Lemma canFindStartedFrom_source_order fuel i j st :
  canFindStartedFrom puzzle searchStr fuel i j st =
  canFindStartedFrom_ordered puzzle searchStr source_order fuel i j st.
Proof.
  revert i j st. induction fuel as [|fuel IH]; intros i j st; [done|].
  cbn [canFindStartedFrom canFindStartedFrom_ordered].
  destruct (cell_matches _ _ _ _ _); [|done].
  destruct (_ =? _); [done|].
  cbn [source_order try_dirs move fst snd].
  repeat (apply try_call_ext; [intros; apply IH|intros]). done.
Qed.

Lemma run_source_order fuel :
  run puzzle searchStr fuel = run_ordered puzzle searchStr source_order fuel.
Proof.
  unfold run, run_ordered. apply for_until_ext. intros i st.
  apply for_until_ext. intros. apply canFindStartedFrom_source_order.
Qed.

(** A loop whose body either hands the state back or returns [true]. *)
Lemma for_until_spec {I : Type} (body : I -> state -> option (bool * state))
    (P : I -> Prop) range st :
  (forall i, i ∈ range ->
     exists b st', body i st = Some (b, st') /\
       (b = false -> st' = st) /\ (b = true <-> P i)) ->
  exists b st', for_until body range st = Some (b, st') /\
    (b = false -> st' = st) /\ (b = true <-> exists i, i ∈ range /\ P i).
Proof.
  induction range as [|i range IH]; intros Hbody.
  { exists false, st. split_and!; [done..|]. split; [done|].
    by intros (? & ?%elem_of_nil & _). }
  destruct (Hbody i) as (b1 & st1 & Hrun & Hf & Ht); [left|].
  destruct IH as (b & st' & Hrest & Hfalse & Htrue).
  { intros i' Hi'. apply Hbody. by right. }
  cbn [for_until]. rewrite Hrun. destruct b1.
  - exists true, st1. split_and!; [done..|]. split; [|done]. intros _.
    exists i. split; [left|by apply Ht].
  - rewrite (Hf eq_refl). exists b, st'. split_and!; [done..|].
    rewrite Htrue. split.
    + intros (i' & ? & ?). exists i'. split; [by right|done].
    + intros (i' & [->|?]%elem_of_cons & HP); [|by eauto].
      by apply Ht in HP.
Qed.

Lemma flag_at_init i j b : flag_at (init_visited puzzle) i j = Some b -> b = false.
Proof.
  intros (_ & _ & flags & Hf & Hb)%flag_at_Some. unfold init_visited in Hf.
  rewrite list_lookup_fmap in Hf.
  destruct (puzzle !! Z.to_nat i); simplify_eq/=.
  by apply lookup_replicate in Hb as [-> _].
Qed.

Lemma is_visited_init i j : is_visited (init_visited puzzle) i j = false.
Proof.
  rewrite is_visited_flag.
  destruct (flag_at _ i j) as [b|] eqn:Hb; [|done]. by apply flag_at_init in Hb.
Qed.

Lemma all_false_init : all_false (init_visited puzzle).
Proof.
  unfold all_false, init_visited. apply Forall_fmap, Forall_forall.
  intros row _. cbn. apply Forall_replicate. done.
Qed.

Lemma grid_at_in_range i j c :
  grid_at puzzle i j = Some c ->
  exists m n : nat, i = Z.of_nat m /\ j = Z.of_nat n /\
    (m < length puzzle)%nat /\ (n < row_length puzzle m)%nat.
Proof.
  intros (Hi & Hj & row & Hrow & Hc)%grid_at_Some.
  exists (Z.to_nat i), (Z.to_nat j). split_and!; [lia|lia| |].
  - by eapply lookup_lt_Some.
  - unfold row_length. rewrite Hrow. cbn. by eapply lookup_lt_Some.
Qed.

(** The whole search, for a non-empty word: it answers, it answers [true]
    exactly when the word snakes through the grid from some cell, and when
    it answers [false] the variables are as at the start. *)
Lemma run_ordered_spec dirs fuel :
  (forall d, d ∈ dirs) -> searchStr <> [] ->
  (length searchStr <= fuel)%nat ->
  exists b st',
    run_ordered puzzle searchStr dirs fuel = Some (b, st') /\
    (b = false -> st' = init_state puzzle) /\
    (b = true <-> exists i j, snake puzzle searchStr i j (init_visited puzzle)).
Proof.
  intros Hdirs Hne Hfuel.
  assert (0 < length searchStr)%nat by (destruct searchStr; [done|cbn; lia]).
  destruct (for_until_spec
    (fun i => for_until (fun j =>
       canFindStartedFrom_ordered puzzle searchStr dirs fuel
         (Z.of_nat i) (Z.of_nat j)) (seq 0 (row_length puzzle i)))
    (fun i => exists j : nat, j ∈ seq 0 (row_length puzzle i) /\
       snake puzzle searchStr (Z.of_nat i) (Z.of_nat j) (init_visited puzzle))
    (seq 0 (length puzzle)) (init_state puzzle))
    as (b & st' & Hrun & Hfalse & Htrue).
  { intros i _. apply for_until_spec. intros j _.
    apply (canFind_ordered_spec dirs Hdirs fuel 0%nat);
      [lia|lia|apply same_shape_init|apply is_visited_init]. }
  exists b, st'. split_and!; [done..|]. rewrite Htrue. split.
  - intros (i & _ & j & _ & Hs). eauto.
  - intros (i & j & Hs).
    destruct (snake_in_grid _ _ _ _ Hs) as [c Hc].
    apply grid_at_in_range in Hc as (m & n & -> & -> & Hm & Hn).
    exists m. split; [apply elem_of_seq; lia|].
    exists n. split; [apply elem_of_seq; lia|done].
Qed.

(** The empty word matches no cell: [searchStr[0]] is [undefined], and the
    loops only visit cells that hold a character. *)
Lemma run_ordered_empty dirs fuel :
  searchStr = [] -> (0 < fuel)%nat ->
  run_ordered puzzle searchStr dirs fuel = Some (false, init_state puzzle).
Proof.
  intros Hnil Hfuel. destruct fuel as [|fuel]; [lia|].
  destruct (for_until_spec
    (fun i => for_until (fun j =>
       canFindStartedFrom_ordered puzzle searchStr dirs (S fuel)
         (Z.of_nat i) (Z.of_nat j)) (seq 0 (row_length puzzle i)))
    (fun _ => False)
    (seq 0 (length puzzle)) (init_state puzzle))
    as (b & st' & Hrun & Hfalse & Htrue).
  { intros i _.
    destruct (for_until_spec (fun j =>
       canFindStartedFrom_ordered puzzle searchStr dirs (S fuel)
         (Z.of_nat i) (Z.of_nat j)) (fun _ => False)
       (seq 0 (row_length puzzle i)) (init_state puzzle))
      as (b & st' & Hrun & Hfalse & Htrue).
    - intros j Hj%elem_of_seq. exists false, (init_state puzzle).
      split_and!; [|done..]. cbn [canFindStartedFrom_ordered].
      replace (cell_matches _ _ _ _ _) with false; [done|].
      symmetry. unfold cell_matches, row_length in *. rewrite js_get_nat.
      destruct (puzzle !! i) as [[|a row]|]; [done| |done].
      rewrite Hnil. cbn [init_state index]. apply bool_decide_eq_false.
      rewrite js_get_nat. cbn in Hj.
      destruct (lookup_lt_is_Some_2 (a :: row) j) as [c ->]; [cbn; lia|done].
    - exists b, st'. split_and!; [done..|]. rewrite Htrue.
      split; [|done]. by intros (? & _ & []). }
  unfold run_ordered. destruct b; [|by rewrite Hrun, Hfalse].
  by destruct (proj1 Htrue eq_refl) as (? & _ & []).
Qed.


Lemma snake_symbols word i j v c :
  snake puzzle word i j v -> c ∈ word ->
  exists row, row ∈ puzzle /\ c ∈ row.
Proof.
  revert i j v. induction word as [|x word IH]; intros i j v Hs Hc; [done|].
  destruct Hs as [Hg Hrest].
  apply elem_of_cons in Hc as [->|Hc].
  - apply grid_at_Some in Hg as (_ & _ & row & Hrow & Hx).
    exists row. split; by eapply list_elem_of_lookup_2.
  - destruct Hrest as [->|(d & _ & Hs)]; [by apply elem_of_nil in Hc|].
    by eapply IH.
Qed.

Lemma line_0 d i j : line d i j 0 = (i, j).
Proof. destruct d; cbn; f_equal; lia. Qed.

Lemma line_S d i j k :
  line d (move d i j).1 (move d i j).2 k = line d i j (S k).
Proof. destruct d; cbn [line move fst snd]; f_equal; lia. Qed.

Lemma move_line d i j : move d i j = line d i j 1.
Proof. by destruct d. Qed.

Lemma line_S_ne d i j k : line d i j (S k) <> (i, j).
Proof. destruct d; cbn [line]; intros [=]; lia. Qed.

(** A word written in a straight line of unmarked cells snakes along
    it. *)
Lemma snake_line d word i j v :
  word <> [] ->
  (forall k x, word !! k = Some x ->
     grid_at puzzle (line d i j k).1 (line d i j k).2 = Some x) ->
  (forall k, is_visited v (line d i j k).1 (line d i j k).2 = false) ->
  snake puzzle word i j v.
Proof.
  revert i j v. induction word as [|x word IH]; intros i j v Hne Hw Hv; [done|].
  cbn [snake]. split.
  { specialize (Hw 0%nat x eq_refl). by rewrite line_0 in Hw. }
  destruct word as [|y word]; [by left|]. right. exists d. cbv zeta.
  assert (Hfree : forall k,
    is_visited (set_visited i j true v)
      (line d i j (S k)).1 (line d i j (S k)).2 = false).
  { intros k. rewrite is_visited_flag, flag_at_set_ne.
    - rewrite <- is_visited_flag. apply Hv.
    - pose proof (line_S_ne d i j k). by destruct (line d i j (S k)). }
  split.
  - rewrite move_line. apply Hfree.
  - apply IH; [done| |].
    + intros k z Hz. rewrite line_S. by apply (Hw (S k)).
    + intros k. rewrite line_S. apply Hfree.
Qed.

End Search.

(** ** The claims about [findStringInSnakingPuzzle] *)

Lemma findString_ordered_found puzzle searchStr dirs fuel i j :
  (forall d, d ∈ dirs) -> searchStr <> [] ->
  (length searchStr <= fuel)%nat ->
  snake puzzle searchStr i j (init_visited puzzle) ->
  findStringInSnakingPuzzle_ordered puzzle searchStr dirs fuel = Some true.
Proof.
  intros Hdirs Hne Hfuel Hs. unfold findStringInSnakingPuzzle_ordered.
  destruct (run_ordered_spec puzzle searchStr dirs fuel Hdirs Hne Hfuel)
    as (b & st' & -> & _ & Htrue).
  cbn. f_equal. apply Htrue. eauto.
Qed.

Lemma findString_source_order puzzle searchStr fuel :
  findStringInSnakingPuzzle puzzle searchStr fuel =
  findStringInSnakingPuzzle_ordered puzzle searchStr source_order fuel.
Proof.
  unfold findStringInSnakingPuzzle, findStringInSnakingPuzzle_ordered.
  by rewrite run_source_order.
Qed.

(** The answers the doc comment of the function lists. *)
Example documented_answers :
  (fun word => findStringInSnakingPuzzle documented_puzzle
                 (list_ascii_of_string word) 10) <$>
    ["ANGULAR"; "REACT"; "UNDEFINED"; "RED"; "STRING"; "CLASS"; "ARRAY";
     "FUNCTION"; "NULL"]%string
  = [Some true; Some true; Some true; Some true; Some true; Some true;
     Some true; Some false; Some false].
Proof. vm_compute. reflexivity. Qed.

(** C2, as the code behaves: on the empty word the search answers [false],
    whatever the grid.  [searchStr[0]] is [undefined], no cell of the grid
    is, so no call matches and the loops run out. *)
Theorem empty_word_not_found (puzzle : list (list ascii)) (fuel : nat) :
  findStringInSnakingPuzzle puzzle [] (S fuel) = Some false.
Proof.
  rewrite findString_source_order. unfold findStringInSnakingPuzzle_ordered.
  by rewrite run_ordered_empty by (done || lia).
Qed.

(** C2 fails as stated: a grid on which the empty word is not found. *)
Lemma empty_word_found_fails :
  findStringInSnakingPuzzle [["A"; "B"]; ["C"; "D"]]%char [] 1 = Some false.
Proof. reflexivity. Qed.

(** C7: with the four neighbours tried in any other order the search
    gives the same answer as in the order of the source, and it does give
    one. *)
Theorem direction_order_irrelevant (puzzle : list (list ascii))
    (searchStr : list ascii) (dirs : list direction) (fuel : nat) :
  dirs ≡ₚ source_order ->
  (length searchStr < fuel)%nat ->
  findStringInSnakingPuzzle_ordered puzzle searchStr dirs fuel =
    findStringInSnakingPuzzle puzzle searchStr fuel /\
  is_Some (findStringInSnakingPuzzle puzzle searchStr fuel).
Proof.
  intros Hperm Hfuel.
  assert (Hdirs : forall d, d ∈ dirs).
  { intros d. rewrite Hperm. apply all_directions. }
  rewrite findString_source_order.
  unfold findStringInSnakingPuzzle_ordered.
  destruct (decide (searchStr = [])) as [Hnil|Hne].
  - rewrite !(run_ordered_empty _ _ _ _ Hnil) by lia. by split.
  - destruct (run_ordered_spec puzzle searchStr dirs fuel Hdirs Hne)
      as (b1 & st1 & -> & _ & Ht1); [lia|].
    destruct (run_ordered_spec puzzle searchStr source_order fuel
                all_directions Hne) as (b2 & st2 & -> & _ & Ht2); [lia|].
    cbn. split; [|done]. f_equal. rewrite <- Ht2 in Ht1.
    destruct b1, b2; try done.
    + symmetry. by apply Ht1.
    + by apply Ht1.
Qed.

Lemma direction_order_irrelevant_witness :
  findStringInSnakingPuzzle_ordered [["A"; "B"]; ["C"; "D"]]%char
      ["A"; "B"; "D"]%char [Right; Left; Down; Up] 4 =
    findStringInSnakingPuzzle [["A"; "B"]; ["C"; "D"]]%char
      ["A"; "B"; "D"]%char 4 /\
  is_Some (findStringInSnakingPuzzle [["A"; "B"]; ["C"; "D"]]%char
      ["A"; "B"; "D"]%char 4).
Proof.
  apply direction_order_irrelevant; [|cbn; lia].
  exact (Permutation_sym (Permutation_rev source_order)).
Defined.

(** C8, as the code behaves: every non-empty word that is a full row of
    the grid, or a column that crosses every row, is found. *)
Theorem full_row_or_column_found (puzzle : list (list ascii))
    (target : list ascii) (fuel : nat) :
  target <> [] ->
  target ∈ puzzle \/ (exists c : nat, column puzzle c = Some target) ->
  (length target <= fuel)%nat ->
  findStringInSnakingPuzzle puzzle target fuel = Some true.
Proof.
  intros Hne Hline Hfuel. rewrite findString_source_order.
  destruct Hline as [[r Hr]%list_elem_of_lookup_1|[c Hc]].
  - apply (findString_ordered_found _ _ _ _ (Z.of_nat r) 0);
      [apply all_directions|done..|].
    apply (snake_line puzzle Right); [done| |intros; apply is_visited_init].
    intros k x Hx. cbn [line fst snd]. apply grid_at_Some.
    split_and!; [lia..|]. exists target.
    rewrite Nat2Z.id. split; [done|].
    by replace (Z.to_nat (0 + Z.of_nat k)) with k by lia.
  - apply (findString_ordered_found _ _ _ _ 0 (Z.of_nat c));
      [apply all_directions|done..|].
    apply (snake_line puzzle Down); [done| |intros; apply is_visited_init].
    intros k x Hx. cbn [line fst snd]. apply grid_at_Some.
    split_and!; [lia..|]. unfold column in Hc. apply mapM_Some in Hc.
    destruct (Forall2_lookup_r _ _ _ _ _ Hc Hx) as (row & Hrow & Hcell).
    exists row. rewrite Nat2Z.id.
    by replace (Z.to_nat (0 + Z.of_nat k)) with k by lia.
Qed.

Lemma full_row_or_column_found_witness :
  findStringInSnakingPuzzle [["A"; "B"]; ["C"; "D"]]%char ["B"; "D"]%char 2
  = Some true.
Proof.
  apply full_row_or_column_found; [done| |cbn; lia].
  right. by exists 1%nat.
Defined.

(** C8 fails as stated: the empty string is a full row of this grid and
    is not found. *)
Lemma empty_row_not_found :
  [] ∈ [["A"; "B"]%char; []] /\
  findStringInSnakingPuzzle [["A"; "B"]%char; []] [] 1 = Some false.
Proof. split; [|reflexivity]. right. left. Qed.

(** C9: a word with a symbol that occurs nowhere in the grid is not
    found; the search answers [false]. *)
Theorem foreign_symbol_not_found (puzzle : list (list ascii))
    (target : list ascii) (c : ascii) (fuel : nat) :
  c ∈ target ->
  (forall row, row ∈ puzzle -> c ∉ row) ->
  (length target <= fuel)%nat ->
  findStringInSnakingPuzzle puzzle target fuel = Some false.
Proof.
  intros Hc Hforeign Hfuel.
  assert (Hne : target <> []) by (intros ->; by apply elem_of_nil in Hc).
  rewrite findString_source_order. unfold findStringInSnakingPuzzle_ordered.
  destruct (run_ordered_spec puzzle target source_order fuel
              all_directions Hne Hfuel) as (b & st' & -> & _ & Htrue).
  cbn. f_equal. destruct b; [|done].
  destruct (proj1 Htrue eq_refl) as (i & j & Hs).
  destruct (snake_symbols _ _ _ _ _ c Hs Hc) as (row & Hrow & Hin).
  by destruct (Hforeign row Hrow).
Qed.

Lemma foreign_symbol_not_found_witness :
  findStringInSnakingPuzzle [["A"; "B"]; ["C"; "D"]]%char ["A"; "Z"]%char 2
  = Some false.
Proof.
  apply (foreign_symbol_not_found _ _ "Z"%char); [by right; left| |cbn; lia].
  intros row Hrow Hin.
  repeat (apply elem_of_cons in Hrow as [->|Hrow];
          [by repeat (apply elem_of_cons in Hin as [?|Hin]; [done|]);
              apply elem_of_nil in Hin|]).
  by apply elem_of_nil in Hrow.
Defined.

(** ** The history of a search *)

Section History.

Variable puzzle : list (list ascii).
Variable searchStr : list ascii.

Lemma erase_try_call cond callT restT call rest st :
  (forall st, erase (callT st) = call st) ->
  (forall st, erase (restT st) = rest st) ->
  erase (try_call_traced cond callT restT st) = try_call cond call rest st.
Proof.
  intros Hc Hr. unfold try_call_traced, try_call.
  destruct (cond st); [|apply Hr]. rewrite <- Hc.
  destruct (callT st) as [[[[] st'] tr]|]; cbn; [done| |done].
  rewrite <- Hr. by destruct (restT st') as [[[? ?] ?]|].
Qed.

Lemma erase_canFindStartedFrom fuel i j st :
  erase (canFindStartedFrom_traced puzzle searchStr fuel i j st) =
  canFindStartedFrom puzzle searchStr fuel i j st.
Proof.
  revert i j st. induction fuel as [|fuel IH]; intros i j st; [done|].
  cbn [canFindStartedFrom_traced canFindStartedFrom].
  destruct (cell_matches _ _ _ _ _); [|done].
  destruct (_ =? _); [done|].
  match goal with
  | |- erase (match ?x with _ => _ end) = ?y =>
      assert (E : erase x = y); [|rewrite <- E; by destruct x as [[[? ?] ?]|]]
  end.
  repeat (apply erase_try_call; [intros; apply IH|intros]). done.
Qed.

Lemma erase_for_until {I : Type} (bodyT : I -> state -> option traced)
    body range st :
  (forall i st, erase (bodyT i st) = body i st) ->
  erase (for_until_traced bodyT range st) = for_until body range st.
Proof.
  intros Hb. revert st. induction range as [|i range IH]; intros st; [done|].
  cbn [for_until_traced for_until]. rewrite <- Hb.
  destruct (bodyT i st) as [[[[] st'] tr]|]; cbn; [done| |done].
  rewrite <- IH. by destruct (for_until_traced _ _ _) as [[[? ?] ?]|].
Qed.

(** Forgetting the history of the traced search gives the search. *)
Lemma erase_run fuel :
  erase (run_traced puzzle searchStr fuel) = run puzzle searchStr fuel.
Proof.
  unfold run_traced, run. apply erase_for_until. intros i st.
  apply erase_for_until. intros. apply erase_canFindStartedFrom.
Qed.

Lemma try_call_traced_outcome cond call rest st st_end :
  (cond st = true -> outcome searchStr st (call st)) ->
  outcome searchStr st_end (rest st) ->
  outcome searchStr st_end (try_call_traced cond call rest st).
Proof.
  intros Hcall (b & st' & tr & Hrest & Hf & Ht & Htr). unfold try_call_traced.
  destruct (cond st); [|by exists b, st', tr].
  destruct Hcall as (b1 & st1 & tr1 & -> & Hf1 & Ht1 & Htr1); [done|].
  destruct b1.
  - exists true, st1, tr1. split_and!; [done|done|done|done].
  - rewrite (Hf1 eq_refl), Hrest. exists b, st', (tr1 ++ tr).
    split_and!; [done..|]. by apply Forall_app.
Qed.

Lemma canFind_traced_outcome fuel (idx : nat) i j v :
  (idx < length searchStr)%nat ->
  (length searchStr - idx <= fuel)%nat ->
  same_shape puzzle v ->
  is_visited v i j = false ->
  count_true v = idx ->
  let st := {| index := Z.of_nat idx; visited := v |} in
  outcome searchStr st (canFindStartedFrom_traced puzzle searchStr fuel i j st).
Proof.
  revert idx i j v. induction fuel as [|fuel IH];
    intros idx i j v Hidx Hfuel Hv Hvis Hcount st; [lia|].
  assert (Hbal : balanced st)
    by (unfold balanced, st; cbn [index visited]; by rewrite Hcount).
  cbn [canFindStartedFrom_traced].
  destruct (cell_matches puzzle searchStr i j (index st)) eqn:Hcm.
  2: { exists false, st, [Call i j st; Return i j st false st].
       split_and!; [done..|]. repeat constructor; done. }
  destruct (cell_matches_in_grid puzzle searchStr i j (index st))
    as [c Hc]; [unfold st; cbn [index]; lia|done|].
  pose proof (unvisited_flag puzzle v i j c Hv Hc Hvis) as Hflag.
  set (st1 := enter i j st).
  assert (Hbal1 : balanced st1).
  { unfold balanced, st1, enter, st. cbn [index visited].
    rewrite count_true_set_true by done. lia. }
  destruct (Z.eqb_spec (index st1) (Z.of_nat (length searchStr)))
    as [Hlast|Hlast].
  { exists true, st1, [Call i j st; Enter st1; Return i j st true st1].
    split_and!; [done..|]. repeat constructor; done. }
  assert (Hcall : forall d,
    guard d i j st1 = true ->
    outcome searchStr st1 (canFindStartedFrom_traced puzzle searchStr fuel
                   (move d i j).1 (move d i j).2 st1)).
  { intros d Hg%guard_true.
    replace st1 with {| index := Z.of_nat (S idx);
                        visited := set_visited i j true v |}
      by (unfold st1, enter, st; cbn [index visited]; f_equal; lia).
    apply IH; [unfold st1, enter, st in Hlast; cbn [index] in Hlast; lia
              |lia|by apply same_shape_set|done|].
    rewrite <- Hcount. by apply count_true_set_true. }
  match goal with
  | |- outcome searchStr _ (match ?x with _ => _ end) =>
      assert (Hchain : outcome searchStr (leave i j st1) x)
  end.
  { apply try_call_traced_outcome; [apply (Hcall Up)|].
    apply try_call_traced_outcome; [apply (Hcall Down)|].
    apply try_call_traced_outcome; [apply (Hcall Left)|].
    apply try_call_traced_outcome; [apply (Hcall Right)|].
    exists false, (leave i j st1), []. split_and!; [done..|]. constructor. }
  destruct Hchain as (b & st' & tr & -> & Hf & Ht & Htr).
  assert (Hleave : leave i j st1 = st).
  { unfold leave, st1, enter, st. cbn [index visited].
    rewrite set_visited_undo by done. f_equal. lia. }
  rewrite Hleave in Hf.
  exists b, st', (Call i j st :: Enter st1 :: tr ++ [Return i j st b st']).
  split_and!; [done..|].
  repeat (apply Forall_cons; split); [repeat constructor; done..|].
  apply Forall_app. split; [done|]. apply Forall_singleton. split.
  - destruct b; [done|]. cbn. by apply Hf.
  - repeat constructor; [done|].
    destruct b; [by apply Ht|by rewrite Hf].
Qed.

Lemma for_until_traced_outcome {I : Type}
    (body : I -> state -> option traced) range st :
  (forall i, i ∈ range -> outcome searchStr st (body i st)) ->
  outcome searchStr st (for_until_traced body range st).
Proof.
  induction range as [|i range IH]; intros Hbody.
  { exists false, st, []. split_and!; [done..|]. constructor. }
  destruct (Hbody i) as (b1 & st1 & tr1 & Hrun & Hf1 & Ht1 & Htr1); [left|].
  destruct IH as (b & st' & tr & Hrest & Hf & Ht & Htr).
  { intros. apply Hbody. by right. }
  cbn [for_until_traced]. rewrite Hrun. destruct b1.
  - by exists true, st1, tr1.
  - rewrite (Hf1 eq_refl), Hrest. exists b, st', (tr1 ++ tr).
    split_and!; [done..|]. by apply Forall_app.
Qed.

Lemma balanced_init : balanced (init_state puzzle).
Proof.
  unfold balanced. cbn [init_state index visited].
  by rewrite count_true_all_false by apply all_false_init.
Qed.

Lemma run_traced_outcome fuel :
  (length searchStr < fuel)%nat ->
  outcome searchStr (init_state puzzle) (run_traced puzzle searchStr fuel).
Proof.
  intros Hfuel. unfold run_traced.
  apply for_until_traced_outcome. intros i _.
  apply for_until_traced_outcome. intros j Hj%elem_of_seq.
  destruct (decide (searchStr = [])) as [Hnil|Hne].
  - destruct fuel as [|fuel]; [lia|]. cbn [canFindStartedFrom_traced].
    replace (cell_matches _ _ _ _ _) with false.
    { eexists false, _, _. split_and!; [done..|].
      pose proof balanced_init. repeat constructor; done. }
    symmetry. unfold cell_matches, row_length in *. rewrite js_get_nat.
    destruct (puzzle !! i) as [[|a row]|]; [done| |done].
    rewrite Hnil. cbn [init_state index]. apply bool_decide_eq_false.
    rewrite js_get_nat. cbn in Hj.
    destruct (lookup_lt_is_Some_2 (a :: row) j) as [c ->]; [cbn; lia|done].
  - assert (0 < length searchStr)%nat
      by (destruct searchStr; [done|cbn; lia]).
    apply (canFind_traced_outcome fuel 0%nat);
      [lia|lia|apply same_shape_init|apply is_visited_init|].
    apply count_true_all_false, all_false_init.
Qed.

End History.

(** ** The claims about the visited mask *)

(** C4, as the code behaves: every call of [canFindStartedFrom] that
    returns [false] leaves [visited] (and [index]) exactly as it found
    them, and when the whole search returns [false] the mask is all
    [false] again.  On success nothing is unwound: the calls return
    [true] straight away and the cells of the path found stay marked, one
    for each character of the word. *)
Theorem mask_unwound_on_failure (puzzle : list (list ascii))
    (searchStr : list ascii) (fuel : nat) :
  (length searchStr < fuel)%nat ->
  exists b st tr,
    run_traced puzzle searchStr fuel = Some (b, st, tr) /\
    run puzzle searchStr fuel = Some (b, st) /\
    (forall i j entry st', Return i j entry false st' ∈ tr -> st' = entry) /\
    (b = false -> visited st = init_visited puzzle /\ all_false (visited st)) /\
    (b = true ->
       count_true (visited st) = length searchStr /\
       (0 < length searchStr)%nat).
Proof.
  intros Hfuel.
  destruct (run_traced_outcome puzzle searchStr fuel Hfuel)
    as (b & st & tr & Hrun & Hf & Ht & Htr).
  exists b, st, tr. split_and!.
  - done.
  - by rewrite <- erase_run, Hrun.
  - intros i j entry st' Hin.
    rewrite Forall_forall in Htr. by destruct (Htr _ Hin) as [? _].
  - intros Hb. rewrite (Hf Hb). split; [done|]. apply all_false_init.
  - intros Hb. destruct (Ht Hb) as [Hbal Hidx].
    unfold balanced in Hbal. split; [lia|].
    destruct searchStr as [|c w]; [|cbn; lia].
    pose proof (erase_run puzzle [] fuel) as He. rewrite Hrun in He.
    rewrite run_source_order, run_ordered_empty in He by (done || lia).
    cbn in He. congruence.
Qed.

Lemma mask_unwound_on_failure_witness :
  exists b st tr,
    run_traced [["A"; "B"]; ["C"; "D"]]%char ["A"; "C"; "B"]%char 4
      = Some (b, st, tr) /\
    run [["A"; "B"]; ["C"; "D"]]%char ["A"; "C"; "B"]%char 4 = Some (b, st) /\
    (forall i j entry st', Return i j entry false st' ∈ tr -> st' = entry) /\
    (b = false ->
       visited st = init_visited [["A"; "B"]; ["C"; "D"]]%char /\
       all_false (visited st)) /\
    (b = true ->
       count_true (visited st) = length ["A"; "C"; "B"]%char /\
       (0 < length ["A"; "C"; "B"]%char)%nat).
Proof. apply mask_unwound_on_failure. cbn. lia. Defined.

(** C4 fails as stated: the search for "A" in the one-cell grid "A"
    returns [true] with the cell still marked. *)
Lemma mask_left_marked_on_success :
  run [["A"]]%char ["A"]%char 2
    = Some (true, {| index := 1; visited := [[true]] |}) /\
  ~ all_false [[true]].
Proof.
  split; [reflexivity|]. intros H.
  apply Forall_cons in H as [H _]. apply Forall_cons in H as [H _]. done.
Qed.

(** C5: throughout the search the number of marked cells is the number
    of characters matched so far: at the start, at every call of
    [canFindStartedFrom], once a call has taken its cell
    ([index++; visited[i][j] = true]), at every return, and at the end. *)
Theorem marked_cells_count_matched_prefix (puzzle : list (list ascii))
    (searchStr : list ascii) (fuel : nat) :
  (length searchStr < fuel)%nat ->
  exists b st tr,
    run_traced puzzle searchStr fuel = Some (b, st, tr) /\
    run puzzle searchStr fuel = Some (b, st) /\
    balanced (init_state puzzle) /\
    (forall e st', e ∈ tr -> st' ∈ event_states e -> balanced st') /\
    balanced st.
Proof.
  intros Hfuel.
  destruct (run_traced_outcome puzzle searchStr fuel Hfuel)
    as (b & st & tr & Hrun & Hf & Ht & Htr).
  exists b, st, tr. split_and!.
  - done.
  - by rewrite <- erase_run, Hrun.
  - apply balanced_init.
  - intros e st' He Hst'. rewrite Forall_forall in Htr.
    destruct (Htr _ He) as [_ Hb]. rewrite Forall_forall in Hb. auto.
  - destruct b; [by apply Ht|]. rewrite Hf by done. apply balanced_init.
Qed.

Lemma marked_cells_count_matched_prefix_witness :
  exists b st tr,
    run_traced [["A"; "B"]; ["C"; "D"]]%char ["A"; "C"; "B"]%char 4
      = Some (b, st, tr) /\
    run [["A"; "B"]; ["C"; "D"]]%char ["A"; "C"; "B"]%char 4 = Some (b, st) /\
    balanced (init_state [["A"; "B"]; ["C"; "D"]]%char) /\
    (forall e st', e ∈ tr -> st' ∈ event_states e -> balanced st') /\
    balanced st.
Proof. apply marked_cells_count_matched_prefix. cbn. lia. Defined.

End SnakingPuzzleProofs.

(** * Proofs: permutations *)

Module PermutationsProofs.

Import Permutations.

Local Open Scope nat_scope.

(** ** Arithmetic of the positions *)

Ltac no_if t :=
  lazymatch t with context [if _ then _ else _] => fail | _ => idtac end.

Ltac split_if :=
  match goal with
  | |- context [ Nat.eqb ?a ?b ] =>
      no_if a; no_if b; destruct (Nat.eqb_spec a b)
  | |- context [ Nat.leb ?a ?b ] =>
      no_if a; no_if b; destruct (Nat.leb_spec a b)
  | |- context [ Nat.ltb ?a ?b ] =>
      no_if a; no_if b; destruct (Nat.ltb_spec a b)
  end.

Ltac crunch :=
  repeat (cbv beta iota zeta; cbn [andb orb negb]; try lia; split_if).

Lemma even_shape k : Nat.even k = true -> exists q, k = 2 * q.
Proof. by intros ?%Nat.even_spec. Qed.

Lemma odd_shape k : Nat.even k = false -> exists q, k = 2 * q + 1.
Proof.
  intros Hk. rewrite <- Nat.negb_odd in Hk.
  by apply negb_false_iff, Nat.odd_spec in Hk.
Qed.

Lemma even_pred k : 0 < k -> Nat.even (k - 1) = negb (Nat.even k).
Proof.
  intros Hk. destruct k as [|k]; [lia|].
  replace (S k - 1) with k by lia.
  rewrite Nat.even_succ, <- Nat.negb_even. by destruct (Nat.even k).
Qed.

Lemma transp_lt a b p n : a < n -> b < n -> p < n -> transp a b p < n.
Proof. intros. unfold transp. crunch. Qed.

Lemma tau_even_lt k p n : k <= n -> p < n -> tau_even k p < n.
Proof. intros. unfold tau_even. crunch. Qed.

Lemma tau_lt k p n : 0 < k <= n -> p < n -> tau k p < n.
Proof.
  intros. unfold tau. destruct (Nat.even k).
  - apply tau_even_lt; lia.
  - apply transp_lt; lia.
Qed.

Lemma cyc_idx_lt k p : p < k -> cyc_idx k p < k.
Proof. intros. unfold cyc_idx. crunch. Qed.

Lemma cyc_pos_lt k c : c < k -> cyc_pos k c < k.
Proof. intros. unfold cyc_pos. crunch. Qed.

Lemma cyc_pos_idx k p : p < k -> cyc_pos k (cyc_idx k p) = p.
Proof. intros. unfold cyc_idx, cyc_pos. crunch. Qed.

Lemma cyc_idx_pos k c : c < k -> cyc_idx k (cyc_pos k c) = c.
Proof. intros. unfold cyc_idx, cyc_pos. crunch. Qed.

Lemma cyc_idx_first k p : p < k -> cyc_idx k p = 0 <-> p = 0.
Proof. intros. unfold cyc_idx. crunch. Qed.

Lemma cyc_idx_last k p : p < k -> cyc_idx k p = k - 1 <-> p = k - 1.
Proof. intros. unfold cyc_idx. crunch. Qed.

(** Seen along the cycle, [generate (k - 1)] moves every element one
    place on. *)
Lemma cyc_idx_tau k p :
  Nat.even k = false -> 3 <= k -> p < k - 1 ->
  cyc_idx k (tau_even (k - 1) p) =
  if cyc_idx k p =? 0 then k - 2 else cyc_idx k p - 1.
Proof.
  intros [q ->]%odd_shape ? ?. unfold cyc_idx, tau_even. crunch.
Qed.

Lemma cyc_idx_transp k p :
  p < k -> cyc_idx k (transp (k - 1) 0 p) = transp (k - 1) 0 (cyc_idx k p).
Proof. intros. unfold cyc_idx, transp. crunch. Qed.

Lemma start_0 k p : start k 0 p = p.
Proof.
  unfold start, start_even, start_odd. destruct (Nat.even k); [done|].
  destruct (Nat.leb_spec k p); [done|]. cbv zeta.
  replace (if 0 <=? cyc_idx k p then cyc_idx k p - 0 else cyc_idx k p + k - 0)
    with (cyc_idx k p) by crunch.
  by apply cyc_pos_idx.
Qed.

Lemma start_above k t p : k <= p -> start k t p = p.
Proof.
  intros. unfold start, start_even, start_odd.
  destruct (Nat.even k); crunch.
Qed.

Lemma start_even_step k t p :
  Nat.even k = true -> 2 <= k -> t < k - 1 ->
  start_even k (S t) p =
  start_even k t (transp 0 (k - 2) (transp (k - 1) t p)).
Proof.
  intros [q ->]%even_shape Hk Ht. unfold start_even, transp.
  rewrite Nat.odd_succ, <- Nat.negb_odd.
  destruct (Nat.odd t) eqn:Hodd.
  - apply Nat.odd_spec in Hodd as [r ->]. crunch.
  - rewrite <- Nat.negb_even in Hodd.
    apply negb_false_iff, Nat.even_spec in Hodd as [r ->]. crunch.
Qed.

Lemma start_odd_step k t p :
  Nat.even k = false -> 3 <= k -> t < k - 1 ->
  start_odd k (S t) p =
  start_odd k t (tau_even (k - 1) (transp (k - 1) 0 p)).
Proof.
  intros Hodd Hk Ht. unfold start_odd.
  destruct (Nat.leb_spec k p) as [Hp|Hp].
  { unfold tau_even, transp. crunch. }
  assert (Hq : transp (k - 1) 0 p < k) by (apply transp_lt; lia).
  pose proof (tau_even_lt (k - 1) _ k ltac:(lia) Hq) as Hr.
  destruct (Nat.leb_spec k (tau_even (k - 1) (transp (k - 1) 0 p))); [lia|].
  cbv zeta. f_equal.
  destruct (decide (transp (k - 1) 0 p = k - 1)) as [He|He].
  - assert (p = 0) as -> by (revert He; unfold transp; crunch).
    rewrite He. unfold tau_even, cyc_idx. crunch.
  - assert (p <> 0) by (intros ->; revert He; unfold transp; crunch).
    rewrite cyc_idx_tau, cyc_idx_transp by (done || lia).
    pose proof (cyc_idx_lt k p Hp).
    pose proof (cyc_idx_first k p Hp).
    pose proof (cyc_idx_last k p Hp).
    generalize dependent (cyc_idx k p). intros c. intros.
    unfold transp. crunch.
Qed.

(** From one inner call to the next: [generate (k - 1)], then the
    exchange. *)
Lemma start_step k t p :
  2 <= k -> t < k - 1 ->
  start k (S t) p =
  start k t (tau (k - 1) (transp (k - 1) (if Nat.even k then t else 0) p)).
Proof.
  intros Hk Ht. unfold start, tau. rewrite even_pred by lia.
  destruct (Nat.even k) eqn:Hev; cbn [negb].
  - replace (k - 1 - 1) with (k - 2) by lia. by apply start_even_step.
  - apply start_odd_step; [done| |done].
    apply odd_shape in Hev as [q ->]. lia.
Qed.

Lemma tau_even_final k p :
  Nat.even k = true -> 2 <= k ->
  tau_even k p = start_even k (k - 1) (transp 0 (k - 2) p).
Proof.
  intros [q ->]%even_shape Hk. unfold start_even, tau_even, transp.
  replace (Nat.odd (2 * q - 1)) with true; [crunch|].
  symmetry. apply Nat.odd_spec. exists (q - 1). lia.
Qed.

Lemma tau_odd_final k p :
  Nat.even k = false -> 3 <= k ->
  transp 0 (k - 1) p = start_odd k (k - 1) (tau_even (k - 1) p).
Proof.
  intros Hodd Hk. unfold start_odd.
  destruct (Nat.leb_spec k p) as [Hp|Hp].
  { unfold tau_even, transp. crunch. }
  pose proof (tau_even_lt (k - 1) p k ltac:(lia) Hp) as Hr.
  destruct (Nat.leb_spec k (tau_even (k - 1) p)); [lia|]. cbv zeta.
  destruct (decide (p = k - 1)) as [->|He].
  - replace (tau_even (k - 1) (k - 1)) with (k - 1)
      by (unfold tau_even; crunch).
    unfold cyc_idx, cyc_pos, transp. crunch.
  - rewrite cyc_idx_tau by (done || lia).
    pose proof (cyc_idx_lt k p Hp).
    pose proof (cyc_idx_first k p Hp).
    pose proof (cyc_idx_last k p Hp).
    pose proof (cyc_pos_idx k p Hp) as Hpos. revert Hpos.
    generalize dependent (cyc_idx k p). intros c. intros. subst p.
    unfold transp.
    destruct (Nat.eqb_spec c 0) as [->|Hc].
    + replace (if k - 1 <=? k - 2 then k - 2 - (k - 1)
               else k - 2 + k - (k - 1)) with (k - 1) by crunch.
      unfold cyc_pos. crunch.
    + replace (if k - 1 <=? c - 1 then c - 1 - (k - 1)
               else c - 1 + k - (k - 1)) with c by crunch.
      destruct (Nat.eqb_spec (cyc_pos k c) 0) as [E|E]; [|crunch].
      apply (f_equal (cyc_idx k)) in E. rewrite cyc_idx_pos in E by lia.
      revert E. unfold cyc_idx. crunch.
Qed.

(** The last inner call leaves the array of [tau k]. *)
Lemma tau_final k p : 2 <= k -> tau k p = start k (k - 1) (tau (k - 1) p).
Proof.
  intros Hk. unfold start, tau. rewrite even_pred by lia.
  destruct (Nat.even k) eqn:Hev; cbn [negb].
  - replace (k - 1 - 1) with (k - 2) by lia. by apply tau_even_final.
  - apply tau_odd_final; [done|].
    apply odd_shape in Hev as [q ->]. lia.
Qed.

(** No two inner calls start with the same last element. *)
Lemma start_last_inj k s t :
  2 <= k -> s < k -> t < k ->
  start k s (k - 1) = start k t (k - 1) -> s = t.
Proof.
  intros Hk Hs Ht. unfold start. destruct (Nat.even k) eqn:Hev.
  - unfold start_even. crunch.
  - unfold start_odd. destruct (Nat.leb_spec k (k - 1)); [lia|]. cbv zeta.
    replace (cyc_idx k (k - 1)) with (k - 1) by (unfold cyc_idx; crunch).
    intros E. apply (f_equal (cyc_idx k)) in E.
    rewrite !cyc_idx_pos in E by crunch. revert E. crunch.
Qed.

Lemma start_lt k t p n : 2 <= k <= n -> t < k -> p < n -> start k t p < n.
Proof.
  intros Hk Ht Hp. destruct (Nat.leb_spec k p).
  { by rewrite start_above. }
  enough (start k t p < k) by lia.
  unfold start. destruct (Nat.even k).
  - unfold start_even. destruct (Nat.odd t); crunch.
  - unfold start_odd. destruct (Nat.leb_spec k p); [lia|]. cbv zeta.
    pose proof (cyc_idx_lt k p ltac:(lia)).
    apply cyc_pos_lt. crunch.
Qed.

(** ** Exchanges and gathers *)

Section Lists.

Context {A : Type}.
Implicit Types l : list A.

Lemma insert_head_Permutation l i x z :
  l !! i = Some x -> x :: <[i := z]> l ≡ₚ z :: l.
Proof.
  revert i. induction l as [|w l IH]; intros [|i] Hi; simplify_eq/=.
  - apply perm_swap.
  - rewrite perm_swap, (IH i Hi). apply perm_swap.
Qed.

Lemma swap_Permutation a b l : swap a b l ≡ₚ l.
Proof.
  unfold swap.
  destruct (l !! a) as [x|] eqn:Ha; [|done].
  destruct (l !! b) as [y|] eqn:Hb; [|done].
  revert a b Ha Hb. induction l as [|w l IH]; intros [|a] [|b] Ha Hb;
    simplify_eq/=; [done| | |].
  - by apply insert_head_Permutation.
  - by apply insert_head_Permutation.
  - by rewrite IH.
Qed.

Lemma length_swap a b l : length (swap a b l) = length l.
Proof. apply Permutation_length, swap_Permutation. Qed.

Lemma lookup_swap a b l p :
  a < length l -> b < length l -> swap a b l !! p = l !! transp a b p.
Proof.
  intros Ha Hb. unfold swap, transp.
  destruct (lookup_lt_is_Some_2 l a Ha) as [x Hx].
  destruct (lookup_lt_is_Some_2 l b Hb) as [y Hy].
  rewrite Hx, Hy.
  destruct (Nat.eqb_spec p a) as [->|Hpa].
  - destruct (decide (a = b)) as [->|Hab].
    + rewrite list_lookup_insert_eq by (by rewrite length_insert). congruence.
    + rewrite list_lookup_insert_ne by done.
      rewrite list_lookup_insert_eq by done. done.
  - destruct (Nat.eqb_spec p b) as [->|Hpb].
    + rewrite list_lookup_insert_eq by (by rewrite length_insert). done.
    + by rewrite !list_lookup_insert_ne by done.
Qed.

Lemma gathers_ext f g (src dst : list A) :
  (forall p, p < length src -> f p = g p) ->
  gathers f src dst -> gathers g src dst.
Proof.
  intros Hfg [Hlen H]. split; [done|]. intros p Hp. rewrite <- Hfg by done. auto.
Qed.

Lemma gathers_id l : gathers (fun p => p) l l.
Proof. by split. Qed.

Lemma gathers_comp f g (l1 l2 l3 : list A) :
  (forall p, p < length l1 -> g p < length l1) ->
  gathers f l1 l2 -> gathers g l2 l3 ->
  gathers (fun p => f (g p)) l1 l3.
Proof.
  intros Hg [Hlen2 H2] [Hlen3 H3]. split; [congruence|].
  intros p Hp. rewrite H3 by lia. apply H2. auto.
Qed.

Lemma gathers_swap a b l :
  a < length l -> b < length l -> gathers (transp a b) l (swap a b l).
Proof.
  intros. split; [apply length_swap|]. intros. by apply lookup_swap.
Qed.

Lemma fold_left_seq_ind {S : Type} (I : nat -> S -> Prop)
    (body : S -> nat -> S) (n : nat) (s0 : S) :
  I 0 s0 ->
  (forall t s, t < n -> I t s -> I (Datatypes.S t) (body s t)) ->
  I n (fold_left body (seq 0 n) s0).
Proof.
  intros H0 Hstep. induction n as [|n IH]; [done|].
  rewrite seq_S, fold_left_app. simpl. apply Hstep; [lia|].
  apply IH. intros. apply Hstep; [lia|done].
Qed.


(** ** Heap's algorithm *)

Lemma heap_fst_Permutation m l : (heap m l).1 ≡ₚ l.
Proof.
  revert l. induction m as [|m IH]; intros l; [done|].
  cbn [heap].
  apply (fold_left_seq_ind (fun _ s => s.1 ≡ₚ l)); [apply IH|].
  intros t s _ Hs. cbn. by rewrite IH, swap_Permutation.
Qed.

Lemma length_heap_fst m l : length (heap m l).1 = length l.
Proof. apply Permutation_length, heap_fst_Permutation. Qed.

Lemma heap_first m l : exists rest, (heap m l).2 = l :: rest.
Proof.
  revert l. induction m as [|m IH]; intros l; [by exists []|].
  cbn [heap].
  apply (fold_left_seq_ind (fun _ s => exists rest, s.2 = l :: rest));
    [apply IH|].
  intros t s _ [rest Hs]. cbn. rewrite Hs. eauto.
Qed.

Lemma heap_correct m l :
  S m <= length l -> NoDup l ->
  gathers (tau (S m)) l (heap m l).1 /\
  length (heap m l).2 = fact (S m) /\
  NoDup (heap m l).2 /\
  forall o, o ∈ (heap m l).2 ->
    o ≡ₚ l /\ forall p, S m <= p -> o !! p = l !! p.
Proof.
  revert l. induction m as [|m IH]; intros l Hlen Hnd.
  { cbn. split_and!.
    - eapply gathers_ext, gathers_id. intros p _.
      unfold tau, transp. cbn [Nat.even]. crunch.
    - done.
    - apply NoDup_singleton.
    - by intros o ->%list_elem_of_singleton. }
  set (k := S (S m)). assert (Hk : k = S (S m)) by done.
  pose (I := fun t (s : list A * list (list A)) =>
       gathers (fun p => start k t (tau (S m) p)) l s.1 /\
       s.1 ≡ₚ l /\
       length s.2 = S t * fact (S m) /\
       NoDup s.2 /\
       forall o, o ∈ s.2 ->
         o ≡ₚ l /\ (forall p, k <= p -> o !! p = l !! p) /\
         exists s', s' <= t /\ o !! (S m) = l !! start k s' (S m)).
  assert (Hinv : I (S m) (heap (S m) l)).
  { cbn [heap].
    apply (fold_left_seq_ind I); unfold I.
    - destruct (IH l ltac:(lia) Hnd) as (Hg & Hl & Hn & Ho).
      split_and!.
      + eapply gathers_ext, Hg. intros. cbv beta. by rewrite start_0.
      + apply heap_fst_Permutation.
      + lia.
      + done.
      + intros o [Hp Hfix]%Ho. split_and!; [done|intros; apply Hfix; lia|].
        exists 0. split; [lia|]. rewrite start_0. apply Hfix. lia.
    - intros t [a out] Ht (Hg & Hpa & Hl & Hn & Ho).
      cbv beta zeta. cbn [fst snd] in *. change (S (S m)) with k.
      set (j := if Nat.even k then t else 0).
      assert (Hj : j < S m) by (subst j; destruct (Nat.even k); lia).
      assert (Hla : length a = length l) by apply Hg.
      set (a1 := swap (S m) j a).
      assert (Hg1 : gathers (start k (S t)) l a1).
      { eapply gathers_ext; [|eapply gathers_comp;
          [|exact Hg|apply gathers_swap]].
        - intros p Hp. cbv beta. symmetry.
          pose proof (start_step k t p) as E.
          replace (k - 1) with (S m) in E by lia. apply E; lia.
        - intros p Hp. apply transp_lt; [lia|lia|done].
        - lia.
        - lia. }
      assert (Hp1 : a1 ≡ₚ l) by (subst a1; by rewrite swap_Permutation).
      assert (Hlen1 : S m <= length a1) by (rewrite (Permutation_length Hp1); lia).
      assert (Hnd1 : NoDup a1) by (by rewrite Hp1).
      destruct (IH a1 Hlen1 Hnd1) as (Hg' & Hl' & Hn' & Ho').
      assert (Hnew : forall o, o ∈ (heap m a1).2 ->
                o ≡ₚ l /\ (forall p, k <= p -> o !! p = l !! p) /\
                o !! (S m) = l !! start k (S t) (S m)).
      { intros o [Hpo Hfix]%Ho'. split_and!.
        - by rewrite Hpo.
        - intros p Hp. rewrite Hfix by lia.
          destruct Hg1 as [Hlg Hg1].
          destruct (decide (p < length l)) as [Hpl|Hpl].
          + rewrite Hg1 by done. by rewrite start_above.
          + rewrite !lookup_ge_None_2; [done|lia|lia].
        - rewrite Hfix by lia. destruct Hg1 as [_ Hg1]. apply Hg1. lia. }
      split_and!.
      + eapply gathers_ext; [|eapply gathers_comp; [|exact Hg1|exact Hg']].
        * done.
        * intros p Hp. apply tau_lt; [lia|done].
      + by rewrite heap_fst_Permutation.
      + rewrite length_app, Hl, Hl'. lia.
      + apply NoDup_app. split_and!; [done| |done].
        intros o (_ & _ & s' & Hs' & E1)%Ho (_ & _ & E2)%Hnew.
        rewrite E1 in E2.
        assert (start k s' (S m) = start k (S t) (S m)) as Heq.
        { assert (start k s' (S m) < length l) as [x Hx]%lookup_lt_is_Some_2
            by (apply start_lt; lia).
          eapply NoDup_lookup; [exact Hnd|exact Hx|].
          by rewrite <- E2. }
        pose proof (start_last_inj k s' (S t)) as E.
        replace (k - 1) with (S m) in E by lia. apply E in Heq; lia.
      + intros o [Hin|Hin]%elem_of_app.
        * destruct (Ho o Hin) as (? & ? & s' & ? & ?).
          split_and!; [done..|]. exists s'. split; [lia|done].
        * destruct (Hnew o Hin) as (? & ? & ?).
          split_and!; [done..|]. exists (S t). split; [lia|done]. }
  unfold I in Hinv. destruct Hinv as (Hg & _ & Hl & Hn & Ho).
  split_and!.
  - eapply gathers_ext, Hg. intros p _. cbv beta. symmetry.
    pose proof (tau_final k p) as E.
    replace (k - 1) with (S m) in E by lia. apply E. lia.
  - rewrite Hl. done.
  - done.
  - intros o (? & ? & _)%Ho. done.
Qed.

End Lists.

(** ** [generate] is Heap's algorithm *)

Lemma join_fmap_Some (l : list ascii) : join (Some <$> l) = l.
Proof. unfold join. induction l as [|x l IH]; [done|]. cbn. by rewrite IH. Qed.

Lemma arr_get_fmap (l : list ascii) (n : nat) :
  arr_get (Some <$> l) (Z.of_nat n) = l !! n.
Proof.
  unfold arr_get. rewrite js_get_nat, list_lookup_fmap.
  by destruct (l !! n).
Qed.

Lemma arr_set_fmap (l : list ascii) (n : nat) (x : ascii) :
  n < length l ->
  arr_set (Some <$> l) (Z.of_nat n) (Some x) = Some <$> <[n := x]> l.
Proof.
  intros Hn. unfold arr_set.
  destruct (Z.ltb_spec (Z.of_nat n) 0); [lia|].
  rewrite Nat2Z.id, length_fmap.
  destruct (Nat.ltb_spec n (length l)); [|lia].
  by rewrite list_fmap_insert.
Qed.

(** [tmp = arr[a]; arr[a] = arr[b]; arr[b] = tmp] inside the array. *)
Lemma exchange_fmap (l : list ascii) (a b : nat) :
  a < length l -> b < length l ->
  arr_set (arr_set (Some <$> l) (Z.of_nat a) (arr_get (Some <$> l) (Z.of_nat b)))
          (Z.of_nat b) (arr_get (Some <$> l) (Z.of_nat a))
  = Some <$> swap a b l.
Proof.
  intros Ha Hb. rewrite !arr_get_fmap. unfold swap.
  destruct (lookup_lt_is_Some_2 l a Ha) as [x ->].
  destruct (lookup_lt_is_Some_2 l b Hb) as [y ->].
  rewrite arr_set_fmap by done.
  by rewrite arr_set_fmap by (by rewrite length_insert).
Qed.

Lemma rem_2_even (k : nat) :
  (Z.rem (Z.of_nat k) 2 =? 0)%Z = Nat.even k.
Proof.
  rewrite Z.rem_mod_nonneg by lia.
  destruct (Nat.even k) eqn:E.
  - apply even_shape in E as [q ->]. apply Z.eqb_eq.
    replace (Z.of_nat (2 * q)) with (Z.of_nat q * 2)%Z by lia.
    by rewrite Z.mod_mul.
  - apply odd_shape in E as [q ->]. apply Z.eqb_neq.
    replace (Z.of_nat (2 * q + 1)) with (1 + Z.of_nat q * 2)%Z by lia.
    by rewrite Z.mod_add.
Qed.

(** With [k <= 0] the first thing [generate] does is to call itself with
    [k - 1]: the calls never end. *)
Lemma generate_nonpos (fuel : nat) (k : Z) (st : state) :
  (k <= 0)%Z -> generate fuel k st = None.
Proof.
  revert k st. induction fuel as [|fuel IH]; intros k st Hk; [done|].
  cbn [generate]. destruct (Z.eqb_spec k 1); [lia|].
  by rewrite IH by lia.
Qed.

Lemma generate_heap (m fuel : nat) (l : list ascii) (o : list (list ascii)) :
  m < fuel -> S m <= length l ->
  generate fuel (Z.of_nat (S m)) {| arr := Some <$> l; output := o |} =
  Some {| arr := Some <$> (heap m l).1; output := o ++ (heap m l).2 |}.
Proof.
  revert fuel l o. induction m as [|m IH]; intros [|fuel] l o Hf Hl; try lia.
  { cbn. by rewrite join_fmap_Some. }
  cbn [generate heap].
  destruct (Z.eqb_spec (Z.of_nat (S (S m))) 1); [lia|].
  replace (Z.of_nat (S (S m)) - 1)%Z with (Z.of_nat (S m)) by lia.
  rewrite IH by lia. cbn [mbind option_bind].
  rewrite rem_2_even.
  unfold seqZ. rewrite Nat2Z.id.
  assert (Hrange : Forall (fun i => i < S m) (seq 0 (S m))).
  { apply Forall_forall. intros i Hi%elem_of_seq. lia. }
  revert Hrange.
  assert (Hlen0 : length (heap m l).1 = length l) by apply length_heap_fst.
  revert Hlen0.
  generalize (heap m l) as s. generalize (seq 0 (S m)) as range.
  induction range as [|i range IHr]; intros s Hs Hrange; [done|].
  apply Forall_cons in Hrange as [Hi Hrange].
  cbn [fmap list_fmap for_each fold_left].
  replace (Z.of_nat i + 0)%Z with (Z.of_nat i) by lia.
  replace (if Nat.even (S (S m)) then Z.of_nat i else 0%Z)
    with (Z.of_nat (if Nat.even (S (S m)) then i else 0))
    by (by destruct (Nat.even (S (S m)))).
  set (j := if Nat.even (S (S m)) then i else 0).
  assert (j < S m) by (subst j; destruct (Nat.even (S (S m))); lia).
  cbn [arr output].
  rewrite exchange_fmap by lia.
  rewrite IH by (rewrite ?length_swap; lia).
  cbn [mbind option_bind]. rewrite <- app_assoc.
  apply (IHr ((heap m (swap (S m) j s.1)).1,
              s.2 ++ (heap m (swap (S m) j s.1)).2)); [|done].
  cbn [fst]. rewrite length_heap_fst, length_swap. done.
Qed.

Lemma getPermutations_heap (fuel : nat) (chars : list ascii) :
  chars <> [] -> length chars <= fuel ->
  getPermutations fuel chars = Some (heap (length chars - 1) chars).2.
Proof.
  intros Hne Hf. unfold getPermutations.
  destruct chars as [|c chars]; [done|].
  replace (length (c :: chars) - 1) with (length chars)
    by (cbn [length]; lia).
  change (length (c :: chars)) with (S (length chars)) in *.
  by rewrite generate_heap by (cbn [length]; lia).
Qed.

(** ** The claims about [getPermutations] *)

(** The examples of the doc comment of the function. *)
Example documented_ab :
  getPermutations 2 (list_ascii_of_string "ab") =
  Some (list_ascii_of_string <$> ["ab"; "ba"]%string).
Proof. vm_compute. reflexivity. Qed.

Example documented_abc :
  getPermutations 3 (list_ascii_of_string "abc") =
  Some (list_ascii_of_string <$>
          ["abc"; "bac"; "cab"; "acb"; "bca"; "cba"]%string).
Proof. vm_compute. reflexivity. Qed.

Lemma getPermutations_nil (fuel : nat) : getPermutations fuel [] = None.
Proof.
  unfold getPermutations. cbn [length]. by rewrite generate_nonpos.
Qed.

(** C3, as the code behaves: on the empty input the generator yields
    nothing at all, not even the empty string.  [generate(0, [])] is not the
    base case [k === 1], so it calls [generate(-1, [])], which calls
    [generate(-2, [])], and so on without end: however deep the calls
    may nest, [getPermutations('')] never reaches its first [yield]. *)
Theorem getPermutations_empty_never_yields (fuel : nat) :
  getPermutations fuel [] = None.
Proof. apply getPermutations_nil. Qed.

(** C10: for a non-empty input (with distinct symbols or not), the first
    string [getPermutations] yields is the input itself. *)
Theorem getPermutations_first_is_input (fuel : nat) (chars : list ascii) :
  chars <> [] -> length chars <= fuel ->
  exists rest, getPermutations fuel chars = Some (chars :: rest).
Proof.
  intros Hne Hf. rewrite getPermutations_heap by done.
  destruct (heap_first (length chars - 1) chars) as [rest ->]. eauto.
Qed.

Lemma getPermutations_first_is_input_witness :
  exists rest,
    getPermutations 2 ["a"; "b"]%char = Some (["a"; "b"]%char :: rest).
Proof.
  apply getPermutations_first_is_input; [done|cbn; lia].
Defined.

(** C1, as the code behaves: for an input of [n >= 1] distinct symbols
    [getPermutations] yields exactly [n!] strings, each a rearrangement of
    the input, and no string twice; for [n = 0] it yields nothing (the
    calls of [generate] never end), where the claim asks for [0! = 1]
    string. *)
Theorem getPermutations_distinct_input (chars : list ascii) :
  NoDup chars ->
  (chars = [] -> forall fuel, getPermutations fuel chars = None) /\
  (chars <> [] -> forall fuel, length chars <= fuel ->
     exists out,
       getPermutations fuel chars = Some out /\
       length out = fact (length chars) /\
       (forall o, o ∈ out -> o ≡ₚ chars) /\
       NoDup out).
Proof.
  intros Hnd. split.
  - intros -> fuel. apply getPermutations_nil.
  - intros Hne fuel Hf. eexists. split; [by apply getPermutations_heap|].
    assert (Hlen : S (length chars - 1) = length chars).
    { destruct chars; [done|]. cbn [length]. lia. }
    destruct (heap_correct (length chars - 1) chars) as (_ & Hl & Hn & Ho);
      [lia|done|].
    rewrite Hlen in Hl. split_and!; [done| |done].
    intros o Hin. by apply Ho.
Qed.

Lemma getPermutations_distinct_input_witness :
  exists out,
    getPermutations 3 ["a"; "b"; "c"]%char = Some out /\
    length out = 6 /\
    (forall o, o ∈ out -> o ≡ₚ ["a"; "b"; "c"]%char) /\
    NoDup out.
Proof.
  assert (Hnd : NoDup ["a"; "b"; "c"]%char).
  { apply (bool_decide_unpack _). vm_compute. exact I. }
  destruct (getPermutations_distinct_input ["a"; "b"; "c"]%char Hnd)
    as [_ H].
  apply (H ltac:(done) 3). cbn. lia.
Defined.

End PermutationsProofs.

(** * Running to completion *)

Lemma findStringInSnakingPuzzle_answers (puzzle : list (list ascii))
    (searchStr : list ascii) (fuel : nat) :
  (length searchStr < fuel)%nat ->
  is_Some (SnakingPuzzle.findStringInSnakingPuzzle puzzle searchStr fuel).
Proof.
  intros Hfuel. rewrite SnakingPuzzleProofs.findString_source_order.
  unfold SnakingPuzzle.findStringInSnakingPuzzle_ordered.
  destruct (decide (searchStr = [])) as [Hnil|Hne].
  - by rewrite SnakingPuzzleProofs.run_ordered_empty by (done || lia).
  - destruct (SnakingPuzzleProofs.run_ordered_spec puzzle searchStr
                SnakingPuzzle.source_order fuel
                SnakingPuzzleProofs.all_directions Hne)
      as (b & st & -> & _); [lia|done].
Qed.

(** C6, as the code behaves: every call of [findStringInSnakingPuzzle]
    runs to completion (with room for one more nested call than the word
    has characters it answers), and so does every call of
    [getPermutations] on a non-empty input (with room for as many nested
    calls as the input has symbols); on the empty input the calls of
    [generate] never end and [getPermutations] does not complete. *)
Theorem calls_run_to_completion :
  (forall puzzle searchStr fuel,
     (length searchStr < fuel)%nat ->
     is_Some (SnakingPuzzle.findStringInSnakingPuzzle puzzle searchStr fuel)) /\
  (forall chars fuel,
     chars <> [] -> (length chars <= fuel)%nat ->
     is_Some (Permutations.getPermutations fuel chars)) /\
  (forall fuel, Permutations.getPermutations fuel [] = None).
Proof.
  split_and!.
  - apply findStringInSnakingPuzzle_answers.
  - intros chars fuel Hne Hfuel.
    by rewrite PermutationsProofs.getPermutations_heap.
  - apply PermutationsProofs.getPermutations_nil.
Qed.

Lemma calls_run_to_completion_witness :
  is_Some (SnakingPuzzle.findStringInSnakingPuzzle
             [["A"; "B"]; ["C"; "D"]]%char ["A"; "C"]%char 3) /\
  is_Some (Permutations.getPermutations 2 ["a"; "b"]%char) /\
  Permutations.getPermutations 7 [] = None.
Proof.
  destruct calls_run_to_completion as (Hfind & Hperm & Hnil).
  split_and!; [apply Hfind; cbn; lia|apply Hperm; [done|cbn; lia]|apply Hnil].
Defined.

(** * Proofs: paths through the puzzle *)

Module SnakePathsProofs.
Import SnakingPuzzle SnakingPuzzleProofs SnakePaths.

Section Paths.

Variable puzzle : list (list ascii).

Lemma is_visited_set_other v i j b i' j' :
  (i, j) <> (i', j') ->
  is_visited (set_visited i j b v) i' j' = is_visited v i' j'.
Proof. intros. by rewrite !is_visited_flag, flag_at_set_ne. Qed.

Lemma is_visited_set_same v i j c :
  same_shape puzzle v -> grid_at puzzle i j = Some c ->
  is_visited (set_visited i j true v) i j = true.
Proof.
  intros Hv Hc. rewrite is_visited_flag.
  destruct (proj2 (same_shape_flag puzzle v i j Hv)) as [b Hb]; [by eexists|].
  assert (forall b0,
    flag_at v i j = Some b0 -> flag_at (set_visited i j true v) i j = Some true)
    as Hset.
  { intros b0 (Hi & Hj & row & Hrow & Hb0)%flag_at_Some.
    rewrite <- (Z2Nat.id i), <- (Z2Nat.id j) by done.
    rewrite set_visited_nat, flag_at_nat, list_lookup_alter_eq, Hrow. cbn.
    apply list_lookup_insert_eq. by eapply lookup_lt_Some. }
  by rewrite (Hset b Hb).
Qed.

(** A snake from cell [(i, j)] over a mask is a path from that cell
    whose further cells are unmarked. *)
Lemma snake_path word i j v :
  same_shape puzzle v ->
  snake puzzle word i j v <->
  exists rest,
    snaking_path puzzle word ((i, j) :: rest) /\
    Forall (fun cell => is_visited v cell.1 cell.2 = false) rest.
Proof.
  revert i j v. induction word as [|c word IH]; intros i j v Hv.
  { split; [done|]. intros (rest & (H & _) & _). inversion H. }
  cbn [snake]. split.
  - intros [Hc [->|(d & Hfree & Hs)]].
    { exists []. split; [|done]. split_and!; [|done|].
      - by repeat constructor.
      - apply NoDup_singleton. }
    cbv zeta in *. remember (move d i j) as m eqn:Hm.
    destruct m as [i' j']. cbn [fst snd] in *.
    apply IH in Hs as (rest & (Hspell & Hconn & Hnd) & Hrest);
      [|by apply same_shape_set].
    assert (Hnot : (i, j) ∉ ((i', j') :: rest)).
    { intros [Heq|Hin]%elem_of_cons.
      - simplify_eq. by rewrite (is_visited_set_same v i' j' c) in Hfree.
      - rewrite Forall_forall in Hrest. specialize (Hrest _ Hin).
        cbn in Hrest. by rewrite (is_visited_set_same v i j c) in Hrest. }
    exists ((i', j') :: rest). split; [split_and!|].
    + by constructor.
    + split; [|done]. by exists d.
    + by apply NoDup_cons.
    + apply Forall_cons. split.
      * cbn. rewrite <- Hfree. symmetry. apply is_visited_set_other.
        intros Heq. apply Hnot, elem_of_cons. by left.
      * apply Forall_forall. intros [i2 j2] Hin. cbn.
        rewrite Forall_forall in Hrest. rewrite <- (Hrest _ Hin). cbn.
        symmetry. apply is_visited_set_other.
        intros Heq. apply Hnot, elem_of_cons. right. by rewrite Heq.
  - intros (rest & (Hspell & Hconn & Hnd) & Hrest).
    apply Forall2_cons_inv_l in Hspell as (cell & rest' & Hc & Hspell & Heq).
    simplify_eq. cbn in Hc. split; [done|].
    destruct word as [|c' word].
    { left. done. }
    right. apply Forall2_cons_inv_l in Hspell as Hsp.
    destruct Hsp as ([i' j'] & rest & Hc' & _ & ->).
    destruct Hconn as [[d Hd] Hconn]. cbn in Hd.
    apply NoDup_cons in Hnd as [Hnot Hnd].
    exists d. cbv zeta. rewrite <- Hd. cbn [fst snd].
    apply Forall_cons in Hrest as [Hfree Hrest]. cbn in Hfree.
    split.
    + rewrite is_visited_set_other; [done|].
      intros Heq. apply Hnot, elem_of_cons. by left.
    + apply IH; [by apply same_shape_set|]. exists rest. split; [done|].
      apply Forall_forall. intros [i2 j2] Hin. cbn.
      rewrite Forall_forall in Hrest.
      rewrite is_visited_set_other; [by apply (Hrest _ Hin)|].
      intros Heq. apply Hnot, elem_of_cons. right. by rewrite Heq.
Qed.

End Paths.

(** X1: The search finds exactly the words that can be read along a path of
    neighbouring cells that uses no cell twice. *)
Theorem found_iff_snaking_path (puzzle : list (list ascii))
    (searchStr : list ascii) (fuel : nat) :
  searchStr <> [] ->
  (length searchStr <= fuel)%nat ->
  exists b,
    findStringInSnakingPuzzle puzzle searchStr fuel = Some b /\
    (b = true <-> exists path, snaking_path puzzle searchStr path).
Proof.
  intros Hne Hfuel. rewrite findString_source_order.
  unfold findStringInSnakingPuzzle_ordered.
  destruct (run_ordered_spec puzzle searchStr source_order fuel
              all_directions Hne Hfuel) as (b & st & -> & _ & Htrue).
  exists b. split; [done|]. rewrite Htrue. split.
  - intros (i & j & Hs).
    apply snake_path in Hs as (rest & Hpath & _); [|apply same_shape_init].
    eauto.
  - intros (path & Hpath).
    destruct path as [|[i j] rest].
    { destruct Hpath as (H & _). inversion H; by subst. }
    exists i, j. apply snake_path; [apply same_shape_init|].
    exists rest. split; [done|]. apply Forall_forall. intros. apply is_visited_init.
Qed.

Lemma found_iff_snaking_path_witness :
  exists b,
    findStringInSnakingPuzzle [["A"; "B"]; ["C"; "D"]]%char
      ["A"; "B"; "D"]%char 3 = Some b /\
    (b = true <->
     exists path,
       snaking_path [["A"; "B"]; ["C"; "D"]]%char ["A"; "B"; "D"]%char path).
Proof. apply found_iff_snaking_path; [done|cbn; lia]. Defined.

End SnakePathsProofs.

(** * Proofs: counting the permutations *)

Module PermutationsMore.
Import Permutations PermutationsProofs.

Local Open Scope nat_scope.

Section Counting.

Context {A : Type}.

Lemma length_interleave (x : A) (l : list A) :
  length (interleave x l) = S (length l).
Proof.
  induction l as [|y l IH]; [done|]. cbn. by rewrite length_fmap, IH.
Qed.

Lemma length_bind_const {X B : Type} (f : X -> list B) (l : list X)
    (n : nat) :
  Forall (fun x => length (f x) = n) l -> length (l ≫= f) = length l * n.
Proof.
  induction 1 as [|x l Hx _ IH]; [done|].
  cbn. rewrite length_app, Hx, IH. lia.
Qed.

(** A list of [n] elements has [n!] arrangements, counted with
    repetition. *)
Lemma length_permutations (l : list A) :
  length (permutations l) = fact (length l).
Proof.
  induction l as [|x l IH]; [done|].
  change (permutations (x :: l)) with (permutations l ≫= interleave x).
  rewrite (length_bind_const _ _ (S (length l))).
  - rewrite IH. cbn [length fact]. nia.
  - apply Forall_forall. intros l' Hl'%permutations_Permutation.
    rewrite length_interleave. by rewrite <- Hl'.
Qed.

(** Without any assumption on the elements: [n!] arrays are emitted, each
    a rearrangement of the array. *)
Lemma heap_outputs m (l : list A) :
  length (heap m l).2 = fact (S m) /\
  forall o, o ∈ (heap m l).2 -> o ≡ₚ l.
Proof.
  revert l. induction m as [|m IH]; intros l.
  { split; [done|]. by intros o ->%list_elem_of_singleton. }
  cbn [heap].
  pose (I := fun t (s : list A * list (list A)) =>
    s.1 ≡ₚ l /\ length s.2 = S t * fact (S m) /\
    forall o, o ∈ s.2 -> o ≡ₚ l).
  assert (Hinv : I (S m) (fold_left (fun s i =>
      let r := heap m (swap (S m) (if Nat.even (S (S m)) then i else 0) s.1) in
      (r.1, s.2 ++ r.2)) (seq 0 (S m)) (heap m l))).
  { apply (fold_left_seq_ind I); unfold I.
    - destruct (IH l) as [Hl Ho].
      split_and!; [apply heap_fst_Permutation|lia|done].
    - intros t [a out] _ (Ha & Hl & Ho). cbv beta zeta. cbn [fst snd] in *.
      set (a1 := swap _ _ a). destruct (IH a1) as [Hl' Ho'].
      assert (a1 ≡ₚ l) by (subst a1; by rewrite swap_Permutation).
      split_and!.
      + by rewrite heap_fst_Permutation.
      + rewrite length_app, Hl, Hl'. lia.
      + intros o [?|Hin]%elem_of_app; [by apply Ho|].
        by rewrite (Ho' o Hin). }
  destruct Hinv as (_ & Hl & Ho). split; [|done].
  etransitivity; [exact Hl|done].
Qed.

End Counting.

(** X2: Also when symbols repeat, a non-empty input of [n] symbols makes
    [getPermutations] yield [n!] strings, each a rearrangement of the
    input. *)
Theorem getPermutations_counts (fuel : nat) (chars : list ascii) :
  chars <> [] -> length chars <= fuel ->
  exists out,
    getPermutations fuel chars = Some out /\
    length out = fact (length chars) /\
    forall o, o ∈ out -> o ≡ₚ chars.
Proof.
  intros Hne Hfuel. eexists. split; [by apply getPermutations_heap|].
  assert (Hlen : S (length chars - 1) = length chars).
  { destruct chars; [done|]. cbn [length]. lia. }
  destruct (heap_outputs (length chars - 1) chars) as [Hl Ho].
  by rewrite Hlen in Hl.
Qed.

Lemma getPermutations_counts_witness :
  exists out,
    getPermutations 3 ["a"; "b"; "a"]%char = Some out /\
    length out = fact (length ["a"; "b"; "a"]%char) /\
    forall o, o ∈ out -> o ≡ₚ ["a"; "b"; "a"]%char.
Proof. apply getPermutations_counts; [done|cbn; lia]. Defined.

(** X3: Every rearrangement of a non-empty input of distinct symbols is
    yielded. *)
Theorem getPermutations_complete (fuel : nat) (chars p : list ascii) :
  NoDup chars -> chars <> [] -> length chars <= fuel ->
  p ≡ₚ chars ->
  exists out, getPermutations fuel chars = Some out /\ p ∈ out.
Proof.
  intros Hnd Hne Hfuel Hp.
  eexists. split; [by apply getPermutations_heap|].
  assert (Hk : S (length chars - 1) = length chars).
  { destruct chars; [done|]. cbn [length]. lia. }
  destruct (heap_correct (length chars - 1) chars)
    as (_ & Hlen & Hndo & Hperm); [lia|done|].
  rewrite Hk in Hlen. set (out := (heap _ chars).2) in *.
  assert (Hsub : out ⊆+ permutations chars).
  { apply NoDup_submseteq; [done|]. intros o Ho.
    apply permutations_Permutation. symmetry. by apply Hperm. }
  clearbody out.
  apply submseteq_length_Permutation in Hsub;
    [|by rewrite length_permutations, Hlen].
  rewrite Hsub. apply permutations_Permutation. by symmetry.
Qed.

Lemma getPermutations_complete_witness :
  exists out,
    getPermutations 3 ["a"; "b"; "c"]%char = Some out /\
    ["c"; "a"; "b"]%char ∈ out.
Proof.
  apply getPermutations_complete; [|done|cbn; lia|].
  - apply (bool_decide_unpack _). vm_compute. exact I.
  - change ["c"; "a"; "b"]%char with (["c"]%char ++ ["a"; "b"]%char).
    apply (Permutation_app_comm ["c"]%char ["a"; "b"]%char).
Defined.

End PermutationsMore.

(** * Proofs: the url shortener *)

Module UrlShortenerProofs.
Import UrlShortener.

Lemma list_pair_ind {A : Type} (P : list A -> Prop) :
  P [] -> (forall x, P [x]) -> (forall x y l, P l -> P (x :: y :: l)) ->
  forall l, P l.
Proof.
  intros Hnil Hone Hstep l.
  enough (P l /\ forall x, P (x :: l)) by tauto.
  induction l as [|y l [IH1 IH2]]; [by split|]. split; [apply IH2|].
  intros x. by apply Hstep.
Qed.

Lemma encode_step_twice cs a b :
  encode_step (encode_step {| codes := cs; code := [] |} a) b =
  {| codes := cs ++ [Z.lor (Z.shiftl (indexOf urlAllowedChars a) 8)
                           (indexOf urlAllowedChars b)];
     code := [] |}.
Proof. reflexivity. Qed.

Lemma fold_encode_codes l cs :
  fold_left encode_step l {| codes := cs; code := [] |} =
  let st := fold_left encode_step l {| codes := []; code := [] |} in
  {| codes := cs ++ codes st; code := code st |}.
Proof.
  revert cs. induction l as [| |x y l IH] using list_pair_ind; intros cs.
  - cbn. by rewrite app_nil_r.
  - cbn. by rewrite app_nil_r.
  - cbn [fold_left]. rewrite !encode_step_twice.
    rewrite IH. rewrite (IH ([] ++ _)). cbv zeta. cbn [codes code app].
    by rewrite <- app_assoc.
Qed.

Lemma encode_nil : encode [] = [].
Proof. done. Qed.

Lemma encode_one c : encode [c] = [indexOf urlAllowedChars c mod 65536].
Proof. done. Qed.

(** The short link is made pair by pair. *)
Lemma encode_pair a b rest :
  encode (a :: b :: rest) =
  Z.lor (Z.shiftl (indexOf urlAllowedChars a) 8) (indexOf urlAllowedChars b)
    mod 65536 :: encode rest.
Proof.
  unfold encode. cbn [fold_left]. rewrite encode_step_twice.
  rewrite fold_encode_codes. cbv zeta. cbn [codes code app].
  set (st := fold_left _ rest _). by destruct (code st) as [|? [|? ?]].
Qed.

Lemma decode_cons cu code :
  decode (cu :: code) = omap id (decode_unit cu) ++ decode code.
Proof. unfold decode. cbn. by rewrite omap_app. Qed.

Lemma indexOf_from_spec s c i :
  c ∈ s ->
  i <= indexOf_from s c i < i + Z.of_nat (length s) /\
  s !! Z.to_nat (indexOf_from s c i - i) = Some c.
Proof.
  revert i. induction s as [|x s IH]; intros i Hc; [by apply elem_of_nil in Hc|].
  cbn [indexOf_from length]. destruct (Z.eqb_spec x c) as [->|Hne].
  - split; [lia|]. by rewrite Z.sub_diag.
  - apply elem_of_cons in Hc as [?|Hc]; [congruence|].
    destruct (IH (i + 1) Hc) as [Hr Hl]. split; [lia|].
    replace (Z.to_nat (indexOf_from s c (i + 1) - i))
      with (S (Z.to_nat (indexOf_from s c (i + 1) - (i + 1)))) by lia.
    done.
Qed.

Lemma indexOf_allowed c :
  c ∈ urlAllowedChars ->
  0 <= indexOf urlAllowedChars c < 84 /\
  js_get urlAllowedChars (indexOf urlAllowedChars c) = Some c.
Proof.
  intros Hc. destruct (indexOf_from_spec _ c 0 Hc) as [Hr Hl].
  change (Z.of_nat (length urlAllowedChars)) with 84 in Hr.
  unfold indexOf. split; [lia|].
  rewrite Z.sub_0_r in Hl. unfold js_get.
  destruct (Z.ltb_spec (indexOf_from urlAllowedChars c 0) 0); [lia|done].
Qed.

Lemma indexOf_letter_A c :
  c ∈ urlAllowedChars -> indexOf urlAllowedChars c = 0 <-> c = letter_A.
Proof.
  intros Hc. destruct (indexOf_allowed c Hc) as [_ Hget]. split.
  - intros H0. rewrite H0 in Hget. vm_compute in Hget. by simplify_eq.
  - by intros ->.
Qed.

(** Two places of the alphabet packed into one code unit, and unpacked. *)
Lemma pack_unpack a b :
  0 <= a < 84 -> 0 <= b < 84 ->
  Z.lor (Z.shiftl a 8) b mod 65536 = 256 * a + b /\
  Z.shiftr (Z.lor (Z.shiftl a 8) b mod 65536) 8 = a /\
  Z.land 255 (Z.lor (Z.shiftl a 8) b mod 65536) = b.
Proof.
  intros Ha Hb.
  assert (Hall : Forall (fun a => Forall (fun b =>
      Z.lor (Z.shiftl a 8) b mod 65536 = 256 * a + b /\
      Z.shiftr (Z.lor (Z.shiftl a 8) b mod 65536) 8 = a /\
      Z.land 255 (Z.lor (Z.shiftl a 8) b mod 65536) = b)
      (seqZ 0 84)) (seqZ 0 84)).
  { apply (bool_decide_unpack _). vm_compute. exact I. }
  rewrite Forall_forall in Hall.
  specialize (Hall a ltac:(apply elem_of_seqZ; lia)).
  rewrite Forall_forall in Hall.
  apply (Hall b). apply elem_of_seqZ. lia.
Qed.

Lemma decode_unit_pair a b :
  a ∈ urlAllowedChars -> b ∈ urlAllowedChars -> a <> letter_A ->
  omap id (decode_unit
    (Z.lor (Z.shiftl (indexOf urlAllowedChars a) 8)
           (indexOf urlAllowedChars b) mod 65536)) = [a; b].
Proof.
  intros Ha Hb HA.
  destruct (indexOf_allowed a Ha) as [Hra Hga].
  destruct (indexOf_allowed b Hb) as [Hrb Hgb].
  assert (indexOf urlAllowedChars a <> 0) by by rewrite indexOf_letter_A.
  destruct (pack_unpack _ _ Hra Hrb) as (Hw & Hhi & Hlo).
  unfold decode_unit.
  destruct (Z.gtb_spec (Z.lor (Z.shiftl (indexOf urlAllowedChars a) 8)
              (indexOf urlAllowedChars b) mod 65536) 255); [|lia].
  rewrite Hhi, Hlo, Hga, Hgb. done.
Qed.

Lemma decode_unit_single c :
  c ∈ urlAllowedChars ->
  omap id (decode_unit (indexOf urlAllowedChars c mod 65536)) = [c].
Proof.
  intros Hc. destruct (indexOf_allowed c Hc) as [Hr Hg].
  rewrite Z.mod_small by lia. unfold decode_unit.
  destruct (Z.gtb_spec (indexOf urlAllowedChars c) 255); [lia|].
  by rewrite Hg.
Qed.

(** X4: [decode] gives the address back when every character is of the
    alphabet and no pair of characters starts with the letter A. *)
Theorem decode_encode (url : list Z) :
  Forall (fun c => c ∈ urlAllowedChars) url ->
  (forall i : nat, Nat.even i = true -> is_Some (url !! S i) ->
     url !! i <> Some letter_A) ->
  decode (encode url) = url.
Proof.
  induction url as [| |a b url IH] using list_pair_ind; intros Hall HA.
  - done.
  - apply Forall_cons in Hall as [Hx _].
    by rewrite encode_one, decode_cons, decode_unit_single.
  - apply Forall_cons in Hall as [Ha Hall].
    apply Forall_cons in Hall as [Hb Hall].
    rewrite encode_pair, decode_cons, decode_unit_pair; [|done|done|].
    + cbn. do 2 f_equal. apply IH; [done|].
      intros i Hi Hsome. apply (HA (S (S i))); [|done].
      by rewrite !Nat.even_succ_succ.
    + intros ->. by apply (HA 0%nat); [done|eexists|].
Qed.

Lemma decode_encode_witness :
  decode (encode (code_units "https://en.wikipedia.org/wiki/URL_shortening"))
  = code_units "https://en.wikipedia.org/wiki/URL_shortening".
Proof.
  apply decode_encode.
  - apply (bool_decide_unpack _). vm_compute. exact I.
  - intros i Hi Hsome.
    assert (Hnone : Forall (fun c => c <> letter_A)
      (code_units "https://en.wikipedia.org/wiki/URL_shortening")).
    { apply (bool_decide_unpack _). vm_compute. exact I. }
    rewrite Forall_forall in Hnone. intros Hl.
    apply list_elem_of_lookup_2 in Hl. by apply (Hnone letter_A).
Defined.

(** X5: A pair of characters that starts with the letter A comes back
    without it: its code unit is below 256 and reads as one character. *)
Theorem decode_encode_drops_A (c : Z) (rest : list Z) :
  c ∈ urlAllowedChars ->
  decode (encode (letter_A :: c :: rest)) = c :: decode (encode rest).
Proof.
  intros Hc. rewrite encode_pair, decode_cons.
  change (indexOf urlAllowedChars letter_A) with 0.
  change (Z.shiftl 0 8) with 0. rewrite Z.lor_0_l.
  by rewrite decode_unit_single.
Qed.

Lemma decode_encode_drops_A_witness :
  decode (encode (code_units "AB")) = code_units "B".
Proof.
  apply (decode_encode_drops_A 66 []).
  apply (bool_decide_unpack _). vm_compute. exact I.
Defined.

(** X6: The short link has one code unit for every two characters of the
    address, rounded up. *)
Theorem length_encode (url : list Z) :
  length (encode url) = Nat.div2 (S (length url)).
Proof.
  induction url as [| |a b url IH] using list_pair_ind; [done..|].
  rewrite encode_pair. cbn [length Nat.div2]. by rewrite IH.
Qed.

End UrlShortenerProofs.

(** * Proofs: stock quotes *)

Module StockQuotesProofs.
Import StockQuotes.






Lemma highest_nil q : highest q [] = q.
Proof. done. Qed.

Lemma highest_cons q x later :
  highest q (x :: later) = Z.max x (highest q later).
Proof. done. Qed.



Lemma highest_mono a b later : a <= b -> highest a later <= highest b later.
Proof.
  intros Hab. induction later as [|x later IH];
    rewrite ?highest_nil, ?highest_cons; lia.
Qed.






Local Open Scope nat_scope.





(** The examples of the doc comment. *)
Example documented_quotes :
  getMostProfitFromStockQuotes [1; 2; 3; 4; 5; 6]%Z = 15%Z /\
  getMostProfitFromStockQuotes [6; 5; 4; 3; 2; 1]%Z = 0%Z /\
  getMostProfitFromStockQuotes [1; 6; 5; 10; 8; 7]%Z = 18%Z.
Proof. by vm_compute. Qed.





End StockQuotesProofs.

(** * Proofs: text wrapping *)

Module WrapTextProofs.
Import WrapText.

Lemma fold_boundary text (places : list Z) (wb0 : Z) :
  let wb := fold_left (fun wb i => if is_space_at text i then i else wb)
                      places wb0 in
  (wb = wb0 /\ Forall (fun i => js_get text i <> Some " "%char) places) \/
  (wb ∈ places /\ js_get text wb = Some " "%char).
Proof.
  cbv zeta. induction places as [|i places IH] using rev_ind.
  { left.
    split.
    - reflexivity.
    - constructor. }
  rewrite fold_left_app. cbn [fold_left].
  destruct (is_space_at text i) eqn:Hsp.
  - apply bool_decide_eq_true in Hsp.
    right. split; [|done]. apply elem_of_app. right. left.
  - apply bool_decide_eq_false in Hsp.
    destruct IH as [[-> Hall]|[Hin Hwb]].
    + left. split; [done|]. apply Forall_app. split; [done|].
      by apply Forall_singleton.
    + right. split; [|done]. apply elem_of_app. by left.
Qed.

(** Where the line is broken: at a space within the limit, or, when
    there is none, at the end of the text. *)
Lemma wordBoundary_spec text columns :
  (wordBoundary text columns = Z.of_nat (length text) /\
   unbreakable columns text) \/
  (1 <= wordBoundary text columns <= columns /\
   js_get text (wordBoundary text columns) = Some " "%char).
Proof.
  destruct (fold_boundary text (seqZ 1 columns) (Z.of_nat (length text)))
    as [[Hwb Hall]|[Hin Hsp]]; fold (wordBoundary text columns) in *.
  - left. split; [done|]. intros i Hi. rewrite Forall_forall in Hall.
    apply Hall, elem_of_seqZ. lia.
  - right. split; [|done]. apply elem_of_seqZ in Hin. lia.
Qed.

Lemma join_spaces_cons line rest :
  rest <> [] -> join_spaces (line :: rest) = line ++ " "%char :: join_spaces rest.
Proof. by destruct rest. Qed.

Lemma break_at_space text n :
  js_get text n = Some " "%char ->
  text = substring_to text n ++ " "%char :: substr_from text (n + 1).
Proof.
  intros [Hn Hsp]%js_get_Some. unfold substring_to, substr_from.
  replace (Z.to_nat (n + 1)) with (S (Z.to_nat n)) by lia.
  by rewrite take_drop_middle.
Qed.

(** What [wrapText] does for a limit that is not negative. *)
Lemma wrapText_spec fuel text columns :
  0 <= columns -> (length text < fuel)%nat ->
  exists lines,
    wrapText fuel text columns = Some lines /\
    lines <> [] /\
    Forall (fun line => fits columns line \/ unbreakable columns line) lines /\
    (Forall (fits columns) lines -> join_spaces lines = text) /\
    (~ Forall (fits columns) lines ->
       join_spaces lines = text ++ [" "%char]).
Proof.
  intros Hcol. revert text. induction fuel as [|fuel IH]; intros text Hfuel;
    [lia|].
  cbn [wrapText]. destruct (Z.gtb_spec (Z.of_nat (length text)) columns)
    as [Hlong|Hshort].
  2: { exists [text]. split_and!; [done|done| |done|].
       - apply Forall_singleton. by left.
       - intros []. by apply Forall_singleton. }
  cbv zeta.
  destruct (wordBoundary_spec text columns) as [[Hwb Hunb]|[Hwb Hsp]].
  - rewrite Hwb. unfold substr_from, substring_to.
    rewrite drop_ge, Nat2Z.id, firstn_all by lia.
    destruct fuel as [|fuel]; [lia|]. cbn [wrapText length].
    destruct (Z.gtb_spec (Z.of_nat 0) columns); [lia|]. cbn.
    exists [text; []]. split_and!; [done|done| | |].
    + apply Forall_cons. split; [by right|]. apply Forall_singleton.
      left. unfold fits. cbn. lia.
    + intros [Hfit _]%Forall_cons. unfold fits in Hfit. lia.
    + intros _. done.
  - pose proof (break_at_space text _ Hsp) as Hbreak.
    set (wb := wordBoundary text columns) in *.
    assert (Hlen : (length (substr_from text (wb + 1)) < fuel)%nat).
    { unfold substr_from. rewrite length_drop. lia. }
    destruct (IH _ Hlen) as (rest & -> & Hne & Hall & Hfit & Hunfit).
    cbn. exists (substring_to text wb :: rest).
    assert (Hline : fits columns (substring_to text wb)).
    { unfold fits, substring_to. rewrite length_take. lia. }
    split_and!; [done|done| | |].
    + apply Forall_cons. split; [by left|done].
    + intros [_ Hrest]%Forall_cons.
      rewrite join_spaces_cons, (Hfit Hrest) by done. by rewrite <- Hbreak.
    + intros Hnot.
      assert (Hrest : ~ Forall (fits columns) rest)
        by (intros Hrest; apply Hnot; by apply Forall_cons).
      rewrite join_spaces_cons by done. rewrite (Hunfit Hrest).
      transitivity ((substring_to text wb ++
                     " "%char :: substr_from text (wb + 1)) ++ [" "%char]).
      * by rewrite <- app_assoc.
      * by rewrite <- Hbreak.
Qed.

(** The examples of the doc comment. *)
Example documented_wrap_26 :
  wrapText 100
    (list_ascii_of_string
       "The String global object is a constructor for strings, or a sequence of characters.")
    26
  = Some (list_ascii_of_string <$>
      ["The String global object"; "is a constructor for";
       "strings, or a sequence of"; "characters."]%string).
Proof. vm_compute. reflexivity. Qed.

Example documented_wrap_12 :
  wrapText 100
    (list_ascii_of_string
       "The String global object is a constructor for strings, or a sequence of characters.")
    12
  = Some (list_ascii_of_string <$>
      ["The String"; "global"; "object is a"; "constructor"; "for strings,";
       "or a"; "sequence of"; "characters."]%string).
Proof. vm_compute. reflexivity. Qed.

(** X10: With a limit that is not negative the generator comes to an end, and
    its lines joined by single spaces are the text again when every line
    is within the limit; when some line is not, they are the text
    followed by one more space. *)
Theorem wrapText_rejoined (fuel : nat) (text : list ascii) (columns : Z) :
  0 <= columns -> (length text < fuel)%nat ->
  exists lines,
    wrapText fuel text columns = Some lines /\
    (Forall (fits columns) lines -> join_spaces lines = text) /\
    (~ Forall (fits columns) lines ->
       join_spaces lines = text ++ [" "%char]).
Proof.
  intros Hcol Hfuel.
  destruct (wrapText_spec fuel text columns Hcol Hfuel)
    as (lines & Hrun & _ & _ & Hfit & Hunfit).
  by exists lines.
Qed.

Lemma wrapText_rejoined_witness :
  exists lines,
    wrapText 20 (list_ascii_of_string "or a sequence") 7 = Some lines /\
    (Forall (fits 7) lines ->
       join_spaces lines = list_ascii_of_string "or a sequence") /\
    (~ Forall (fits 7) lines ->
       join_spaces lines = list_ascii_of_string "or a sequence" ++ [" "%char]).
Proof. apply wrapText_rejoined; [lia|cbn; lia]. Defined.

(** X11: A yielded line is longer than the limit only when it has no space
    within the limit to break it at. *)
Theorem wrapText_long_line_unbreakable (fuel : nat) (text : list ascii)
    (columns : Z) :
  0 <= columns -> (length text < fuel)%nat ->
  exists lines,
    wrapText fuel text columns = Some lines /\
    forall line, line ∈ lines ->
      fits columns line \/ unbreakable columns line.
Proof.
  intros Hcol Hfuel.
  destruct (wrapText_spec fuel text columns Hcol Hfuel)
    as (lines & Hrun & _ & Hall & _).
  exists lines. split; [done|]. by apply Forall_forall.
Qed.

Lemma wrapText_long_line_unbreakable_witness :
  exists lines,
    wrapText 20 (list_ascii_of_string "or a sequence") 7 = Some lines /\
    forall line, line ∈ lines -> fits 7 line \/ unbreakable 7 line.
Proof. apply wrapText_long_line_unbreakable; [lia|cbn; lia]. Defined.

(** X12: With a negative limit the [while] loop never ends: the text is
    always longer than the limit. *)
Theorem wrapText_negative_limit (fuel : nat) (text : list ascii)
    (columns : Z) :
  columns < 0 -> wrapText fuel text columns = None.
Proof.
  intros Hcol. revert text. induction fuel as [|fuel IH]; intros text; [done|].
  cbn [wrapText].
  destruct (Z.gtb_spec (Z.of_nat (length text)) columns); [|lia].
  cbv zeta. by rewrite IH.
Qed.

Lemma wrapText_negative_limit_witness :
  wrapText 50 (list_ascii_of_string "abc") (-1) = None.
Proof. apply wrapText_negative_limit. lia. Defined.

End WrapTextProofs.

(** * Proofs: bank account numbers *)

Module BankAccountProofs.
Import BankAccount.

Example documented_accounts :
  parseBankAccount (picture [1; 2; 3; 4; 5; 6; 7; 8; 9]%nat) = Number 123456789 /\
  parseBankAccount (picture [0; 2; 3; 0; 5; 6; 7; 8; 9]%nat) = Number 23056789 /\
  parseBankAccount (picture [8; 2; 3; 8; 5; 6; 9; 8; 9]%nat) = Number 823856989.
Proof. by vm_compute. Qed.


Local Open Scope nat_scope.

Lemma split_line r rest :
  nl ∉ r -> split nl (r ++ nl :: rest) = r :: split nl rest.
Proof.
  induction r as [|c r IH]; intros Hr; cbn [app split].
  - by rewrite decide_True.
  - apply not_elem_of_cons in Hr as [Hc Hr].
    rewrite decide_False by done. by rewrite IH.
Qed.

Lemma split_end r : nl ∉ r -> split nl (r ++ [nl]) = [r; []].
Proof. intros Hr. by rewrite split_line. Qed.

Lemma glyph_row_shape k d :
  d < 10 -> length (glyph_row k d) = 3 /\ nl ∉ glyph_row k d.
Proof.
  intros Hd.
  assert (Hall : Forall (fun d => Forall (fun k =>
      length (glyph_row k d) = 3 /\ nl ∉ glyph_row k d) [0; 1; 2])
      (seq 0 10)).
  { apply (bool_decide_unpack _). vm_compute. exact I. }
  rewrite Forall_forall in Hall.
  specialize (Hall d ltac:(apply elem_of_seq; lia)).
  destruct k as [|[|k]];
    [by apply Forall_cons in Hall as [? _]
    |by apply Forall_cons in Hall as [_ [? _]%Forall_cons]|].
  apply Forall_cons in Hall as [_ [_ [H _]%Forall_cons]%Forall_cons].
  unfold glyph_row in *. by destruct (glyphs !! d) as [[[? ?] ?]|].
Qed.

Lemma row_no_line_feed k digits :
  Forall (fun d => d < 10) digits -> nl ∉ mjoin (glyph_row k <$> digits).
Proof.
  induction 1 as [|d digits Hd _ IH]; cbn; [by apply not_elem_of_nil|].
  rewrite elem_of_app. intros [Hin|Hin]; [|done].
  by destruct (glyph_row_shape k d Hd) as [_ []].
Qed.

(** The [i]-th group of three characters of a row is the row of the
    [i]-th picture. *)
Lemma slice_row k digits i d :
  Forall (fun d => d < 10) digits -> digits !! i = Some d ->
  slice (mjoin (glyph_row k <$> digits)) (3 * i) (3 * i + 3) = glyph_row k d.
Proof.
  unfold slice. replace (3 * i + 3 - 3 * i) with 3 by lia.
  intros Hall. revert i. induction Hall as [|d0 digits Hd0 _ IH];
    intros i Hi; [done|].
  destruct (glyph_row_shape k d0 Hd0) as [Hlen _].
  change (mjoin (glyph_row k <$> d0 :: digits))
    with (glyph_row k d0 ++ mjoin (glyph_row k <$> digits)).
  destruct i as [|i].
  - simplify_eq/=. rewrite drop_0. by rewrite take_app_length' by done.
  - cbn in Hi. rewrite drop_app_ge by lia.
    replace (3 * S i - length (glyph_row k d0)) with (3 * i) by lia.
    by apply IH.
Qed.

Lemma map_at_glyph d :
  d < 10 ->
  map_at (key (glyph_row 0 d) (glyph_row 1 d) (glyph_row 2 d))
  = Some (digit_char d).
Proof.
  intros Hd.
  assert (Hall : Forall (fun d =>
      map_at (key (glyph_row 0 d) (glyph_row 1 d) (glyph_row 2 d))
      = Some (digit_char d)) (seq 0 10)).
  { apply (bool_decide_unpack _). vm_compute. exact I. }
  rewrite Forall_forall in Hall. apply Hall, elem_of_seq. lia.
Qed.

Lemma leading_digits_chars digits :
  Forall (fun d => d < 10) digits ->
  leading_digits (digit_char <$> digits) = digits.
Proof.
  induction 1 as [|d digits Hd _ IH]; [done|].
  cbn [fmap list_fmap leading_digits]. cbv zeta.
  assert (Hd' : nat_of_ascii (digit_char d) = 48 + d)
    by (unfold digit_char; apply nat_ascii_embedding; lia).
  rewrite !Hd', bool_decide_true by lia. rewrite IH. f_equal. lia.
Qed.

(** X13: An account number of nine digits written with the pictures of [map]
    is read back. *)
Theorem parse_picture (digits : list nat) :
  length digits = 9 -> Forall (fun d => d < 10) digits ->
  parseBankAccount (picture digits) = Number (decimal digits).
Proof.
  intros Hlen Hall. unfold parseBankAccount, picture.
  rewrite split_line by by apply row_no_line_feed.
  rewrite split_line by by apply row_no_line_feed.
  rewrite split_end by by apply row_no_line_feed.
  cbv zeta. cbn [lookup list_lookup].
  do 10 (destruct digits as [|? digits]; try done).
  cbn [seq fold_left].
  repeat match goal with
         | |- context [slice (mjoin (glyph_row ?k <$> ?l)) (3 * ?i) _] =>
             erewrite (slice_row k l i _ Hall); [|reflexivity]
         end.
  repeat match goal with
         | H : Forall _ (_ :: _) |- _ => apply Forall_cons in H as [? H]
         end.
  rewrite !map_at_glyph by done. cbn [append app].
  unfold parseInt.
  match goal with
  | |- context [leading_digits ?s] =>
      change s with (digit_char <$> [n; n0; n1; n2; n3; n4; n5; n6; n7])
  end.
  rewrite leading_digits_chars
    by (repeat first [apply Forall_nil_2 | apply Forall_cons_2; [done|]]).
  done.
Qed.

Lemma parse_picture_witness :
  parseBankAccount (picture [1; 2; 3; 4; 5; 6; 7; 8; 9])
  = Number (decimal [1; 2; 3; 4; 5; 6; 7; 8; 9]).
Proof.
  apply parse_picture; [done|]. repeat constructor; lia.
Defined.

Lemma length_split s :
  length (split nl s) = S (length (filter (fun c => c = nl) s)).
Proof.
  induction s as [|c s IH]; [done|]. cbn [split].
  destruct (decide (c = nl)) as [->|Hc].
  - rewrite filter_cons_True by done. cbn [length]. by rewrite IH.
  - rewrite filter_cons_False by done.
    destruct (split nl s); [done|]. by rewrite <- IH.
Qed.

Lemma parseInt_returns s : parseInt s <> TypeError.
Proof. unfold parseInt. by destruct (leading_digits s). Qed.

(** X14: The call throws exactly when the text has fewer than two line
    feeds, that is fewer than three lines. *)
Theorem parse_throws_iff_short (bankAccount : list ascii) :
  parseBankAccount bankAccount = TypeError
  <-> length (filter (fun c => c = nl) bankAccount) < 2.
Proof.
  pose proof (length_split bankAccount) as Hlen.
  unfold parseBankAccount. cbv zeta.
  destruct (split nl bankAccount) as [|r0 [|r1 [|r2 rows]]];
    cbn [lookup list_lookup length] in *.
  - lia.
  - split; [lia|done].
  - split; [lia|done].
  - split; [by intros ?%parseInt_returns|lia].
Qed.

Lemma fold_append {X} (f : X -> option ascii) (l : list X) result :
  exists more, fold_left (fun result i => append result (f i)) l result
               = result ++ more.
Proof.
  revert result. induction l as [|x l IH]; intros result; cbn [fold_left].
  - exists []. by rewrite app_nil_r.
  - destruct (IH (append result (f x))) as [more ->].
    unfold append. rewrite <- app_assoc. eauto.
Qed.

(** X15: When the first three columns are no picture of a digit the result
    is [NaN], whatever follows. *)
Theorem parse_unknown_first_picture (bankAccount r0 r1 r2 : list ascii)
    (rows : list (list ascii)) :
  split nl bankAccount = r0 :: r1 :: r2 :: rows ->
  map_at (key (slice r0 0 3) (slice r1 0 3) (slice r2 0 3)) = None ->
  parseBankAccount bankAccount = NaN.
Proof.
  intros Hrows Hkey. unfold parseBankAccount. rewrite Hrows.
  cbv zeta. cbn [lookup list_lookup].
  change (seq 0 9) with (0 :: seq 1 8). cbn [fold_left].
  change (3 * 0) with 0. change (0 + 3) with 3. rewrite Hkey.
  destruct (fold_append (fun i =>
      map_at (key (slice r0 (3 * i) (3 * i + 3))
                  (slice r1 (3 * i) (3 * i + 3))
                  (slice r2 (3 * i) (3 * i + 3))))
      (seq 1 8) (append [] None)) as [more ->].
  done.
Qed.

Lemma parse_unknown_first_picture_witness :
  parseBankAccount
    (list_ascii_of_string "|_|" ++ nl :: list_ascii_of_string "   "
       ++ nl :: list_ascii_of_string "   ") = NaN.
Proof.
  eapply parse_unknown_first_picture; [reflexivity|]. by vm_compute.
Defined.

End BankAccountProofs.

(** * Proofs: rectangles of a figure *)

Module FigureRectanglesProofs.
Import FigureRectangles.

Local Open Scope string_scope.

Example documented_figures :
  getFigureRectangles (figure_of
    ["+------------+"; "|            |"; "|            |"; "|            |";
     "+------+-----+"; "|      |     |"; "|      |     |"; "+------+-----+"])
  = ([figure_of ["+------------+"; "|            |"; "|            |";
             "|            |"; "+------------+"];
      figure_of ["+------+"; "|      |"; "|      |"; "+------+"];
      figure_of ["+-----+"; "|     |"; "|     |"; "+-----+"]], None)
  /\
  getFigureRectangles (figure_of
    ["   +-----+     "; "   |     |     "; "+--+-----+----+";
     "|             |"; "|             |"; "+-------------+"])
  = ([figure_of ["+-----+"; "|     |"; "+-----+"];
      figure_of ["+-------------+"; "|             |"; "|             |";
             "+-------------+"]], None).
Proof. by vm_compute. Qed.

Local Close Scope string_scope.
Local Open Scope nat_scope.

Ltac run := unfold mbind, result_bind in *; cbn beta iota in *.

Lemma find_first_Some test l i :
  find_first test l = Ok (Some i) -> i ∈ l /\ test i = Ok true.
Proof.
  induction l as [|j l IH]; [done|]. cbn [find_first]. run.
  destruct (test j) as [[|]|] eqn:Hj; [| |done].
  - intros [= ->]. split; [left|done].
  - intros [Hin Hi]%IH. split; [by right|done].
Qed.

Lemma find_first_returns test l :
  (forall i, i ∈ l -> exists b, test i = Ok b) ->
  exists found, find_first test l = Ok found.
Proof.
  induction l as [|j l IH]; intros Htest; [by eexists|].
  cbn [find_first]. run.
  destruct (Htest j) as [[|] ->]; [by left|by eexists|].
  apply IH. intros i Hi. apply Htest. by right.
Qed.

Lemma find_first_seq test a n i :
  a <= i < a + n ->
  (forall j, a <= j < i -> test j = Ok false) -> test i = Ok true ->
  find_first test (seq a n) = Ok (Some i).
Proof.
  revert a. induction n as [|n IH]; intros a Hi Hbefore Hat; [lia|].
  cbn [seq find_first]. run.
  destruct (decide (a = i)) as [->|Hne]; [by rewrite Hat|].
  rewrite Hbefore by lia. apply IH; [lia| |done].
  intros j Hj. apply Hbefore. lia.
Qed.

Lemma char_at_returns rows top left :
  top < length rows -> exists x, char_at rows top left = Ok x.
Proof.
  intros [row Hrow]%lookup_lt_is_Some. unfold char_at. rewrite Hrow. by eexists.
Qed.

Lemma char_at_Ok rows top left x :
  char_at rows top left = Ok x -> top < length rows.
Proof.
  unfold char_at. destruct (rows !! top) eqn:Hrow; [|done].
  intros _. by eapply lookup_lt_Some.
Qed.

Lemma is_char_true c x : is_char c x = true -> x = Some c.
Proof. unfold is_char. by intros ?%bool_decide_eq_true. Qed.

Lemma isTopLeft_true rows top left :
  isTopLeft rows top left = Ok true ->
  char_at rows top left = Ok (Some "+"%char) /\ S top < length rows.
Proof.
  unfold isTopLeft. run.
  destruct (char_at rows top left) as [a|] eqn:Ha; [|done].
  destruct (is_char "+" a) eqn:Hplus; [|done]. cbn [negb].
  apply is_char_true in Hplus as ->.
  destruct (char_at rows (top + 1) left) as [b|] eqn:Hb; [|done].
  apply char_at_Ok in Hb. intros _. split; [done|lia].
Qed.

Lemma getWidth_found rows top left width :
  getWidth rows top left = Ok width -> width <> 0%Z ->
  exists right, left < right /\ char_at rows top right = Ok (Some "+"%char)
    /\ width = (Z.of_nat right - Z.of_nat left + 1)%Z.
Proof.
  unfold getWidth. destruct (rows !! top) as [row|]; [|done]. run.
  destruct (find_first _ _) as [[right|]|] eqn:Hfound; [| |done];
    intros [= <-] Hwidth; [|done].
  apply find_first_Some in Hfound as [[Hright _]%elem_of_seq Htest].
  exists right. split_and!; [lia| |done].
  destruct (char_at rows top right) as [a|]; [|done].
  destruct (is_char "+" a) eqn:Hplus; [|done].
  by apply is_char_true in Hplus as ->.
Qed.

Lemma getHeight_found rows top left height :
  getHeight rows top left = Ok height -> height <> 0%Z ->
  exists bottom, top < bottom /\ char_at rows bottom left = Ok (Some "+"%char)
    /\ height = (Z.of_nat bottom - Z.of_nat top + 1)%Z.
Proof.
  unfold getHeight. run.
  destruct (find_first _ _) as [[bottom|]|] eqn:Hfound; [| |done];
    intros [= <-] Hheight; [|done].
  apply find_first_Some in Hfound as [[Hbottom _]%elem_of_seq Htest].
  exists bottom. split_and!; [lia| |done].
  destruct (char_at rows bottom left) as [a|]; [|done].
  destruct (is_char "+" a) eqn:Hplus; [|done].
  by apply is_char_true in Hplus as ->.
Qed.

(** What [visit] has checked when it yields a piece. *)
Lemma visit_Some rows top left piece :
  visit rows top left = Ok (Some piece) ->
  exists right bottom,
    left < right /\ top < bottom /\
    char_at rows top left = Ok (Some "+"%char) /\
    char_at rows top right = Ok (Some "+"%char) /\
    char_at rows bottom left = Ok (Some "+"%char) /\
    buildRect top left (Z.of_nat right - Z.of_nat left + 1)
      (Z.of_nat bottom - Z.of_nat top + 1) = Ok piece.
Proof.
  unfold visit. run.
  destruct (isTopLeft rows top left) as [[|]|] eqn:Hcorner; [| |done];
    [|done].
  apply isTopLeft_true in Hcorner as [Hcorner _].
  destruct (getWidth rows top left) as [width|] eqn:Hwidth; [|done].
  destruct (getHeight rows top left) as [height|] eqn:Hheight; [|done].
  destruct (width =? 0)%Z eqn:Hw; [done|].
  destruct (height =? 0)%Z eqn:Hh; [done|]. cbn [negb andb].
  apply Z.eqb_neq in Hw, Hh.
  destruct (getWidth_found _ _ _ _ Hwidth Hw) as (right & ? & ? & ->).
  destruct (getHeight_found _ _ _ _ Hheight Hh) as (bottom & ? & ? & ->).
  destruct (buildRect _ _ _ _) as [p|] eqn:Hbuild; [|done].
  intros [= ->]. by exists right, bottom.
Qed.

Lemma scan_pieces rows cells piece :
  piece ∈ (scan rows cells).1 ->
  exists top left, visit rows top left = Ok (Some piece).
Proof.
  induction cells as [|[top left] cells IH]; cbn [scan fst snd].
  - by intros ?%elem_of_nil.
  - destruct (visit rows top left) as [[p|]|] eqn:Hvisit;
      [| |by intros ?%elem_of_nil];
      destruct (scan rows cells) as [pieces e]; cbn [fst] in *; [|done].
    intros [->|Hin]%elem_of_cons; [by eauto|by apply IH].
Qed.

(** X16: Every piece yielded is a rectangle at least two wide and two high,
    and the figure has a plus sign where its top left, top right and
    bottom left corners are. *)
Theorem pieces_have_three_corners (figure piece : list ascii) :
  piece ∈ (getFigureRectangles figure).1 ->
  exists top left right bottom,
    left < right /\ top < bottom /\
    let rows := BankAccount.split BankAccount.nl figure in
    char_at rows top left = Ok (Some "+"%char) /\
    char_at rows top right = Ok (Some "+"%char) /\
    char_at rows bottom left = Ok (Some "+"%char) /\
    buildRect top left (Z.of_nat right - Z.of_nat left + 1)
      (Z.of_nat bottom - Z.of_nat top + 1) = Ok piece.
Proof.
  unfold getFigureRectangles. cbv zeta.
  intros (top & left & Hvisit)%scan_pieces.
  apply visit_Some in Hvisit as (right & bottom & ?).
  by exists top, left, right, bottom.
Qed.

Lemma pieces_have_three_corners_witness :
  exists top left right bottom,
    left < right /\ top < bottom /\
    let rows := BankAccount.split BankAccount.nl
                  (figure_of ["+-+-+"; "| | |"; "+-+-+"]%string) in
    char_at rows top left = Ok (Some "+"%char) /\
    char_at rows top right = Ok (Some "+"%char) /\
    char_at rows bottom left = Ok (Some "+"%char) /\
    buildRect top left (Z.of_nat right - Z.of_nat left + 1)
      (Z.of_nat bottom - Z.of_nat top + 1)
    = Ok (figure_of ["+-+"; "| |"; "+-+"]%string).
Proof.
  apply pieces_have_three_corners. vm_compute. left.
Defined.

Lemma repeat_returns s count :
  (0 <= count)%Z -> exists r, repeat s count = Ok r.
Proof.
  intros Hcount. unfold repeat.
  destruct (Z.ltb_spec count 0); [lia|by eexists].
Qed.

Lemma buildRect_returns top left width height :
  (2 <= width)%Z -> (2 <= height)%Z ->
  exists piece, buildRect top left width height = Ok piece.
Proof.
  intros Hw Hh. unfold buildRect.
  destruct (repeat_returns ["-"%char] (width - 2)) as [border ->]; [lia|].
  destruct (repeat_returns [" "%char] (width - 2)) as [inner ->]; [lia|].
  run.
  destruct (repeat_returns ("|"%char :: inner ++ ["|"%char; BankAccount.nl])
              (height - 2)) as [middle ->]; [lia|].
  by eexists.
Qed.

(** Above the last row nothing throws. *)
Lemma visit_returns rows top left :
  S top < length rows -> exists piece, visit rows top left = Ok piece.
Proof.
  intros Htop. unfold visit.
  assert (exists corner, isTopLeft rows top left = Ok corner) as [corner ->].
  { unfold isTopLeft.
    destruct (char_at_returns rows top left) as [a ->]; [lia|].
    destruct (char_at_returns rows (top + 1) left) as [b ->]; [lia|].
    destruct (char_at_returns rows top (left + 1)) as [c ->]; [lia|].
    run. repeat case_match; by eexists. }
  run. destruct corner; [|by eexists].
  assert (exists width, getWidth rows top left = Ok width) as [width Hwidth].
  { unfold getWidth.
    destruct (lookup_lt_is_Some_2 rows top) as [row ->]; [lia|].
    destruct (find_first_returns (fun i =>
        a ← char_at rows top i;
        if negb (is_char "+" a) then Ok false else
        b ← char_at rows (top + 1) i;
        Ok (is_char "|" b || is_char "+" b))
      (seq (left + 1) (length row - (left + 1)))) as [found ->];
      [|by eexists].
    intros i _.
    destruct (char_at_returns rows top i) as [a ->]; [lia|].
    destruct (char_at_returns rows (top + 1) i) as [b ->]; [lia|].
    run. case_match; by eexists. }
  assert (exists height, getHeight rows top left = Ok height)
    as [height Hheight].
  { unfold getHeight.
    destruct (find_first_returns (fun i =>
        a ← char_at rows i left;
        if negb (is_char "+" a) then Ok false else
        b ← char_at rows i (left + 1);
        Ok (is_char "-" b || is_char "+" b))
      (seq (top + 1) (length rows - (top + 1)))) as [found ->];
      [|by eexists].
    intros i [? ?]%elem_of_seq.
    destruct (char_at_returns rows i left) as [a ->]; [lia|].
    destruct (char_at_returns rows i (left + 1)) as [b ->]; [lia|].
    run. case_match; by eexists. }
  rewrite Hwidth, Hheight.
  destruct (width =? 0)%Z eqn:Hw; [by eexists|].
  destruct (height =? 0)%Z eqn:Hh; [by eexists|]. cbn [negb andb].
  apply Z.eqb_neq in Hw, Hh.
  destruct (getWidth_found _ _ _ _ Hwidth Hw) as (right & ? & ? & ->).
  destruct (getHeight_found _ _ _ _ Hheight Hh) as (bottom & ? & ? & ->).
  destruct (buildRect_returns top left
    (Z.of_nat right - Z.of_nat left + 1)
    (Z.of_nat bottom - Z.of_nat top + 1)) as [piece ->]; [lia|lia|].
  by eexists.
Qed.

(** In the last row a plus sign throws, anything else is passed. *)
Lemma visit_last rows top row left :
  S top = length rows -> rows !! top = Some row ->
  visit rows top left
  = if is_char "+" (row !! left) then Throw TypeError else Ok None.
Proof.
  intros Htop Hrow. unfold visit, isTopLeft, char_at. rewrite Hrow. run.
  destruct (is_char "+" (row !! left)); cbn [negb]; [|done].
  by rewrite (lookup_ge_None_2 rows (top + 1)) by lia.
Qed.

Lemma scan_app rows cells1 cells2 :
  scan rows (cells1 ++ cells2)
  = match scan rows cells1 with
    | (pieces, Some e) => (pieces, Some e)
    | (pieces, None) =>
      ((pieces ++ (scan rows cells2).1), (scan rows cells2).2)
    end.
Proof.
  induction cells1 as [|[top left] cells1 IH]; cbn [app scan fst snd].
  - by destruct (scan rows cells2).
  - destruct (visit rows top left) as [piece|]; [|done]. rewrite IH.
    destruct (scan rows cells1) as [pieces [e|]]; [done|].
    by destruct piece.
Qed.

Lemma scan_returns rows cells :
  Forall (fun at_ => S at_.1 < length rows) cells ->
  (scan rows cells).2 = None.
Proof.
  induction 1 as [|[top left] cells Htop _ IH]; [done|].
  cbn [scan fst snd] in *.
  destruct (visit_returns rows top left Htop) as [piece ->].
  by destruct (scan rows cells).
Qed.

Lemma scan_last rows top row lefts :
  S top = length rows -> rows !! top = Some row ->
  scan rows ((fun left => (top, left)) <$> lefts)
  = ([], if bool_decide (Exists (fun left => row !! left = Some "+"%char)
                           lefts)
         then Some TypeError else None).
Proof.
  intros Htop Hrow. induction lefts as [|left lefts IH].
  - cbn [fmap list_fmap scan].
    by rewrite bool_decide_false by by intros ?%Exists_nil.
  - rewrite fmap_cons. cbn [scan fst snd].
    rewrite (visit_last rows top row left Htop Hrow). unfold is_char.
    destruct (decide (row !! left = Some "+"%char)) as [Hplus|Hplus].
    + rewrite bool_decide_true by done.
      by rewrite bool_decide_true by by left.
    + rewrite bool_decide_false by done.
      rewrite IH. f_equal.
      apply (f_equal (fun b : bool => if b then _ else _)).
      apply bool_decide_ext. rewrite Exists_cons.
      split; [by right|by intros [?|?]].
Qed.

Lemma cells_snoc rows row :
  cells (rows ++ [row])
  = cells rows ++ ((fun left => (length rows, left)) <$> seq 0 (length row)).
Proof.
  unfold cells. rewrite imap_app, join_app. cbn [imap mjoin list_join].
  rewrite app_nil_r. by rewrite Nat.add_0_r.
Qed.

Lemma cells_above rows :
  Forall (fun at_ => at_.1 < length rows) (cells rows).
Proof.
  induction rows as [|row rows IH] using rev_ind; [by constructor|].
  rewrite cells_snoc, length_app. cbn [length]. apply Forall_app. split.
  - eapply Forall_impl; [exact IH|]. intros at_ ?. cbn beta in *. lia.
  - apply Forall_fmap, Forall_forall. intros left _. cbn. lia.
Qed.

Lemma split_snoc s :
  exists rows row, BankAccount.split BankAccount.nl s = rows ++ [row].
Proof.
  destruct (BankAccount.split BankAccount.nl s) as [|r rows] eqn:Hsplit
    using rev_ind.
  - pose proof (BankAccountProofs.length_split s) as Hlen.
    by rewrite Hsplit in Hlen.
  - by eauto.
Qed.

(** X17: The iteration ends in a [TypeError] exactly when the last line of
    the figure, the text after its last line feed, has a plus sign;
    nothing else is ever thrown. *)
Theorem throws_iff_plus_in_last_line (figure : list ascii) :
  (getFigureRectangles figure).2
  = if bool_decide ("+"%char ∈
         default [] (last (BankAccount.split BankAccount.nl figure)))
    then Some TypeError else None.
Proof.
  unfold getFigureRectangles. cbv zeta.
  destruct (split_snoc figure) as (rows & row & ->).
  rewrite last_snoc, cells_snoc, scan_app. cbn [default].
  rewrite (surjective_pairing (scan (rows ++ [row]) (cells rows))).
  rewrite scan_returns.
  2:{ eapply Forall_impl; [apply cells_above|].
      intros at_ ?. rewrite length_app. cbn in *. lia. }
  rewrite (scan_last (rows ++ [row]) (length rows) row).
  2:{ rewrite length_app. cbn. lia. }
  2:{ by rewrite list_lookup_middle. }
  cbn [snd]. apply (f_equal (fun b : bool => if b then _ else _)).
  apply bool_decide_ext. rewrite Exists_exists. split.
  - intros (left & _ & Hleft). by eapply list_elem_of_lookup_2.
  - intros [left Hleft]%list_elem_of_lookup_1. exists left. split; [|done].
    apply elem_of_seq. apply lookup_lt_Some in Hleft. unfold id in Hleft. lia.
Qed.

Lemma mjoin_cons {A} (x : list A) l : mjoin (x :: l) = x ++ mjoin l.
Proof. done. Qed.

Lemma mjoin_replicate_singleton {A} n (c : A) :
  mjoin (replicate n [c]) = replicate n c.
Proof.
  induction n as [|n IH]; [done|].
  change (mjoin (replicate (S n) [c])) with (c :: mjoin (replicate n [c])).
  by rewrite IH.
Qed.

Lemma buildRect_rows top left width height :
  (2 <= width)%Z -> (2 <= height)%Z ->
  buildRect top left width height
  = Ok (lines (edge (Z.to_nat (width - 2))
               :: replicate (Z.to_nat (height - 2))
                            (side (Z.to_nat (width - 2)))
               ++ [edge (Z.to_nat (width - 2))])).
Proof.
  intros Hw Hh. unfold buildRect, repeat.
  destruct (Z.ltb_spec (width - 2) 0); [lia|].
  destruct (Z.ltb_spec (height - 2) 0); [lia|]. run. f_equal.
  unfold lines, edge, side.
  rewrite fmap_cons, fmap_app, fmap_replicate, !mjoin_replicate_singleton.
  cbn [fmap list_fmap mjoin list_join app].
  rewrite join_app. cbn [mjoin list_join app].
  rewrite <- !app_assoc, app_nil_r. cbn [app]. done.
Qed.

Lemma split_lines rows :
  Forall (fun row => BankAccount.nl ∉ row) rows ->
  BankAccount.split BankAccount.nl (lines rows) = rows ++ [[]].
Proof.
  induction 1 as [|row rows Hrow _ IH]; [done|].
  unfold lines in *. rewrite fmap_cons, mjoin_cons.
  rewrite <- app_assoc. cbn [app].
  rewrite BankAccountProofs.split_line by done. by rewrite IH.
Qed.

Lemma elem_of_cells rows at_ :
  at_ ∈ cells rows ->
  exists row, rows !! at_.1 = Some row /\ at_.2 < length row.
Proof.
  induction rows as [|row rows IH] using rev_ind.
  - by intros ?%elem_of_nil.
  - rewrite cells_snoc. intros [Hin|Hin]%elem_of_app.
    + destruct (IH Hin) as (row' & Hrow' & Hlen). exists row'.
      split; [|done]. by apply lookup_app_l_Some.
    + apply list_elem_of_fmap in Hin as (left & -> & [_ Hleft]%elem_of_seq).
      exists row. cbn [fst snd]. split; [|lia].
      by rewrite list_lookup_middle.
Qed.

Lemma mjoin_imap_S {A B} (f : nat -> A -> list B) (g : B -> B) l :
  (forall i x, f (S i) x = g <$> f i x) ->
  mjoin (imap (f ∘ S) l) = g <$> mjoin (imap f l).
Proof.
  revert f. induction l as [|x l IH]; intros f Hf; [done|].
  rewrite !imap_cons, !mjoin_cons, fmap_app. f_equal; [apply Hf|].
  apply IH. intros i y. apply Hf.
Qed.

Lemma cells_cons row rows :
  cells (row :: rows)
  = ((fun left => (0, left)) <$> seq 0 (length row))
    ++ ((fun at_ => (S at_.1, at_.2)) <$> cells rows).
Proof.
  unfold cells. rewrite imap_cons, mjoin_cons. f_equal.
  apply mjoin_imap_S. intros i x. by rewrite <- list_fmap_compose.
Qed.

Lemma scan_nothing rows cells :
  Forall (fun at_ => visit rows at_.1 at_.2 = Ok None) cells ->
  scan rows cells = ([], None).
Proof.
  induction 1 as [|at_ cells Hvisit _ IH]; [done|].
  cbn [scan]. by rewrite Hvisit, IH.
Qed.

Lemma lookup_S {A} (x : A) l i : (x :: l) !! S i = l !! i.
Proof. done. Qed.

Lemma lookup_replicate_snoc {A} n (x y : A) :
  (replicate n x ++ [y]) !! n = Some y.
Proof.
  rewrite lookup_app_r by by rewrite length_replicate.
  by rewrite length_replicate, Nat.sub_diag.
Qed.

Lemma edge_inv w left c :
  edge w !! left = Some c ->
  (left = 0 /\ c = "+"%char) \/ (1 <= left <= w /\ c = "-"%char)
  \/ (left = S w /\ c = "+"%char).
Proof.
  unfold edge. destruct left as [|left]; [naive_solver|]. rewrite lookup_S.
  intros [[-> Hleft]%lookup_replicate|[Hleft Hc]]%lookup_app_Some.
  - right. left. split; [lia|done].
  - rewrite length_replicate in *.
    destruct (left - w) as [|?] eqn:Hdiff; simplify_eq/=.
    right. right. split; [f_equal; lia|done].
Qed.

Lemma edge_corner w : edge w !! S w = Some "+"%char.
Proof.
  unfold edge. rewrite lookup_S.
  apply lookup_replicate_snoc.
Qed.

Lemma edge_end w : edge w !! S (S w) = None.
Proof.
  apply lookup_ge_None_2. unfold edge. cbn [length].
  rewrite length_app, length_replicate. cbn. lia.
Qed.

Lemma edge_second w :
  edge w !! 1 = Some "-"%char \/ edge w !! 1 = Some "+"%char.
Proof. destruct w; [by right|by left]. Qed.

Lemma length_edge w : length (edge w) = S (S w).
Proof.
  unfold edge. cbn [length]. rewrite length_app, length_replicate. cbn. lia.
Qed.

Lemma side_inv w left c : side w !! left = Some c -> c <> "+"%char.
Proof.
  unfold side. destruct left as [|left]; [by intros [= <-]|].
  rewrite lookup_S.
  intros [[-> Hleft]%lookup_replicate|[Hleft Hc]]%lookup_app_Some; [done|].
  destruct (left - _); by simplify_eq/=.
Qed.

Lemma side_end w : side w !! S w = Some "|"%char.
Proof.
  unfold side. rewrite lookup_S.
  apply lookup_replicate_snoc.
Qed.

Lemma no_line_feed_edge w : BankAccount.nl ∉ edge w.
Proof.
  intros [left Hleft]%list_elem_of_lookup_1.
  by apply edge_inv in Hleft as [[_ ?]|[[_ ?]|[_ ?]]].
Qed.

Lemma no_line_feed_side w : BankAccount.nl ∉ side w.
Proof.
  unfold side.
  intros [?|[[? _]%elem_of_replicate|?%list_elem_of_singleton]%elem_of_app]
    %elem_of_cons; done.
Qed.

Section Rectangle.
Variables w h : nat.

Lemma rows_inv top row :
  rectangle_rows w h !! top = Some row ->
  (top = 0 /\ row = edge w) \/ (1 <= top <= h /\ row = side w)
  \/ (top = S h /\ row = edge w) \/ (top = S (S h) /\ row = []).
Proof.
  unfold rectangle_rows. destruct top as [|top]; [naive_solver|].
  rewrite lookup_S.
  intros [[-> Htop]%lookup_replicate|[Htop Hrow]]%lookup_app_Some.
  - right. left. split; [lia|done].
  - rewrite length_replicate in *.
    destruct (top - h) as [|[|?]] eqn:Hdiff; simplify_eq/=.
    + right. right. left. split; [lia|done].
    + right. right. right. split; [lia|done].
Qed.

Lemma rows_side top :
  1 <= top <= h -> rectangle_rows w h !! top = Some (side w).
Proof.
  intros Htop. unfold rectangle_rows. destruct top as [|top]; [lia|].
  rewrite lookup_S.
  rewrite lookup_app_l by (rewrite length_replicate; lia).
  apply lookup_replicate_2. lia.
Qed.

Lemma rows_bottom : rectangle_rows w h !! S h = Some (edge w).
Proof.
  unfold rectangle_rows. rewrite lookup_S.
  rewrite lookup_app_r by by rewrite length_replicate.
  by rewrite length_replicate, Nat.sub_diag.
Qed.

Lemma rows_end : rectangle_rows w h !! S (S h) = Some [].
Proof.
  unfold rectangle_rows. rewrite lookup_S.
  rewrite lookup_app_r by (rewrite length_replicate; lia).
  rewrite length_replicate. by replace (S h - h) with 1 by lia.
Qed.

Lemma rows_second :
  exists row, rectangle_rows w h !! 1 = Some row
    /\ (row !! 0 = Some "|"%char \/ row !! 0 = Some "+"%char)
    /\ (row !! S w = Some "|"%char \/ row !! S w = Some "+"%char).
Proof.
  destruct h as [|h'].
  - exists (edge w). split_and!; [done|by right|right; apply edge_corner].
  - exists (side w). split_and!; [done|by left|left; apply side_end].
Qed.

Lemma length_rows : length (rectangle_rows w h) = S (S (S h)).
Proof.
  unfold rectangle_rows. cbn [length].
  rewrite length_app, length_replicate. cbn. lia.
Qed.

Lemma isTopLeft_elsewhere top left row :
  rectangle_rows w h !! top = Some row -> left < length row ->
  (top, left) <> (0, 0) ->
  isTopLeft (rectangle_rows w h) top left = Ok false.
Proof.
  intros Hrow Hleft Hne. unfold isTopLeft, char_at. rewrite Hrow. run.
  destruct (lookup_lt_is_Some_2 row left Hleft) as [c Hc]. rewrite Hc.
  destruct (rows_inv top row Hrow)
    as [[-> ->]|[[Htop ->]|[[-> ->]|[-> ->]]]].
  - destruct (edge_inv w left c Hc) as [[-> ->]|[[_ ->]|[-> ->]]];
      [done|done|].
    change (0 + 1) with 1.
    destruct rows_second as (row' & -> & _ & _).
    replace (S w + 1) with (S (S w)) by lia. rewrite edge_end.
    change (is_char "+" (Some "+"%char)) with true. cbn [negb].
    by destruct (negb _).
  - apply side_inv in Hc. unfold is_char at 1.
    by rewrite bool_decide_false by congruence.
  - replace (S h + 1) with (S (S h)) by lia. rewrite rows_end.
    by destruct (edge_inv w left c Hc) as [[-> ->]|[[_ ->]|[-> ->]]].
  - cbn in Hleft. lia.
Qed.

Lemma visit_elsewhere top left row :
  rectangle_rows w h !! top = Some row -> left < length row ->
  (top, left) <> (0, 0) ->
  visit (rectangle_rows w h) top left = Ok None.
Proof.
  intros Hrow Hleft Hne. unfold visit.
  by rewrite (isTopLeft_elsewhere top left row).
Qed.

Lemma isTopLeft_corner : isTopLeft (rectangle_rows w h) 0 0 = Ok true.
Proof.
  unfold isTopLeft, char_at.
  destruct rows_second as (row & Hrow & Hfirst & _).
  change (0 + 1) with 1. rewrite Hrow.
  change (rectangle_rows w h !! 0) with (Some (edge w)). run.
  change (edge w !! 0) with (Some "+"%char).
  destruct Hfirst as [-> | ->], (edge_second w) as [-> | ->]; done.
Qed.

Lemma getWidth_corner :
  getWidth (rectangle_rows w h) 0 0 = Ok (Z.of_nat w + 2)%Z.
Proof.
  unfold getWidth. change (rectangle_rows w h !! 0) with (Some (edge w)).
  cbv beta iota. rewrite length_edge.
  rewrite (find_first_seq _ _ _ (S w)); [run; f_equal; lia|lia| |].
  - intros j Hj. unfold char_at.
    change (rectangle_rows w h !! 0) with (Some (edge w)). run.
    destruct (lookup_lt_is_Some_2 (edge w) j) as [c Hc];
      [rewrite length_edge; lia|].
    rewrite Hc.
    by destruct (edge_inv w j c Hc) as [[-> ->]|[[_ ->]|[-> ->]]];
      [lia| |lia].
  - unfold char_at. change (rectangle_rows w h !! 0) with (Some (edge w)).
    destruct rows_second as (row & Hrow & _ & Hlast).
    change (0 + 1) with 1. rewrite Hrow. run. rewrite edge_corner.
    by destruct Hlast as [-> | ->].
Qed.

Lemma getHeight_corner :
  getHeight (rectangle_rows w h) 0 0 = Ok (Z.of_nat h + 2)%Z.
Proof.
  unfold getHeight. rewrite length_rows.
  rewrite (find_first_seq _ _ _ (S h)); [run; f_equal; lia|lia| |].
  - intros j Hj. unfold char_at. rewrite rows_side by lia. by run.
  - unfold char_at. rewrite rows_bottom. run.
    change (edge w !! 0) with (Some "+"%char). change (0 + 1) with 1.
    by destruct (edge_second w) as [-> | ->].
Qed.

Lemma visit_corner :
  visit (rectangle_rows w h) 0 0
  = Ok (Some (lines (edge w :: replicate h (side w) ++ [edge w]))).
Proof.
  unfold visit. rewrite isTopLeft_corner, getWidth_corner, getHeight_corner.
  run. destruct (Z.eqb_spec (Z.of_nat w + 2) 0); [lia|].
  destruct (Z.eqb_spec (Z.of_nat h + 2) 0); [lia|]. cbn [negb andb].
  rewrite buildRect_rows by lia.
  replace (Z.to_nat (Z.of_nat w + 2 - 2)) with w by lia.
  by replace (Z.to_nat (Z.of_nat h + 2 - 2)) with h by lia.
Qed.

Lemma scan_rectangle :
  scan (rectangle_rows w h) (cells (rectangle_rows w h))
  = ([lines (edge w :: replicate h (side w) ++ [edge w])], None).
Proof.
  unfold rectangle_rows at 2. rewrite cells_cons, length_edge.
  change (seq 0 (S (S w))) with (0 :: seq 1 (S w)).
  rewrite fmap_cons, <- app_comm_cons. cbn [scan fst snd].
  rewrite visit_corner, scan_nothing; [done|]. apply Forall_app. split.
  - apply Forall_forall. intros at_ (left & -> & [? ?]%elem_of_seq)
      %list_elem_of_fmap. cbn [fst snd].
    apply (visit_elsewhere 0 left (edge w)); [done| |].
    + rewrite length_edge. lia.
    + intros [= ->]. lia.
  - apply Forall_forall. intros at_ ([top left] & -> & Hin)
      %list_elem_of_fmap. cbn [fst snd].
    apply elem_of_cells in Hin as (row & Hrow & Hleft).
    by apply (visit_elsewhere (S top) left row).
Qed.

End Rectangle.

Lemma buildRect_Ok top left width height piece :
  buildRect top left width height = Ok piece ->
  (2 <= width)%Z /\ (2 <= height)%Z.
Proof.
  unfold buildRect, repeat.
  destruct (Z.ltb_spec (width - 2) 0); [done|]. run.
  destruct (Z.ltb_spec (height - 2) 0); [done|]. lia.
Qed.

(** X18: A rectangle alone is its own single piece: what [buildRect] draws
    is read back as it is, and the iteration ends without an exception. *)
Theorem rectangle_read_back (top left : nat) (width height : Z)
    (piece : list ascii) :
  buildRect top left width height = Ok piece ->
  getFigureRectangles piece = ([piece], None).
Proof.
  intros Hpiece. destruct (buildRect_Ok _ _ _ _ _ Hpiece) as [Hw Hh].
  revert Hpiece. rewrite buildRect_rows by done. intros [= <-].
  unfold getFigureRectangles. cbv zeta.
  set (w := Z.to_nat (width - 2)). set (h := Z.to_nat (height - 2)).
  rewrite split_lines.
  - rewrite <- (scan_rectangle w h). unfold rectangle_rows.
    by rewrite <- app_comm_cons, <- app_assoc.
  - apply Forall_cons. split; [apply no_line_feed_edge|].
    apply Forall_app. split.
    + apply Forall_replicate, no_line_feed_side.
    + apply Forall_singleton, no_line_feed_edge.
Qed.

Lemma rectangle_read_back_witness :
  getFigureRectangles (figure_of ["+--+"; "|  |"; "+--+"]%string)
  = ([figure_of ["+--+"; "|  |"; "+--+"]%string], None).
Proof.
  by apply (rectangle_read_back 0 0 4 3).
Defined.

End FigureRectanglesProofs.

(** * Proofs: poker hands *)

Module PokerHandsProofs.
Import PokerHands.

Local Open Scope string_scope.

Example documented_hands :
  getPokerHandRank [card "4" hearts; card "5" hearts; card "6" hearts;
                    card "7" hearts; card "8" hearts] = Some StraightFlush /\
  getPokerHandRank [card "A" spades; card "4" spades; card "3" spades;
                    card "5" spades; card "2" spades] = Some StraightFlush /\
  getPokerHandRank [card "4" clubs; card "4" diamonds; card "4" hearts;
                    card "4" spades; card "10" hearts] = Some FourOfKind /\
  getPokerHandRank [card "4" clubs; card "4" diamonds; card "5" diamonds;
                    card "5" spades; card "5" hearts] = Some FullHouse /\
  getPokerHandRank [card "4" clubs; card "5" clubs; card "6" clubs;
                    card "7" clubs; card "Q" clubs] = Some Flush /\
  getPokerHandRank [card "2" spades; card "3" hearts; card "4" hearts;
                    card "5" hearts; card "6" hearts] = Some Straight /\
  getPokerHandRank [card "2" hearts; card "4" diamonds; card "5" hearts;
                    card "A" diamonds; card "3" spades] = Some Straight /\
  getPokerHandRank [card "2" hearts; card "2" spades; card "2" diamonds;
                    card "7" hearts; card "A" hearts] = Some ThreeOfKind /\
  getPokerHandRank [card "2" hearts; card "4" diamonds; card "4" hearts;
                    card "A" diamonds; card "A" spades] = Some TwoPairs /\
  getPokerHandRank [card "3" hearts; card "4" hearts; card "10" hearts;
                    card "3" diamonds; card "A" spades] = Some OnePair /\
  getPokerHandRank [card "A" hearts; card "K" hearts; card "Q" hearts;
                    card "2" diamonds; card "3" spades] = Some HighCard.
Proof. by vm_compute. Qed.

Local Close Scope string_scope.

(** ** Objects *)

Lemma get_set o k n k' :
  get (set o k n) k' = if decide (k = k') then Some n else get o k'.
Proof.
  induction o as [|[k0 n0] o IH]; cbn [set get].
  - done.
  - destruct (decide (k0 = k)) as [->|Hne]; cbn [get].
    + by destruct (decide (k = k')).
    + rewrite IH. destruct (decide (k0 = k')) as [->|]; [|done].
      by rewrite decide_False by done.
Qed.

Lemma get_None o k : get o k = None <-> k ∉ o.*1.
Proof.
  induction o as [|[k0 n0] o IH]; cbn [get fmap list_fmap fst].
  - split; [intros _; apply not_elem_of_nil|done].
  - rewrite not_elem_of_cons. destruct (decide (k0 = k)) as [->|Hne].
    + split; [done|by intros [? _]].
    + rewrite IH. split; [by intros ?; split; [congruence|]|by intros [_ ?]].
Qed.

Lemma get_Some o k n : NoDup o.*1 -> get o k = Some n <-> (k, n) ∈ o.
Proof.
  induction o as [|[k0 n0] o IH]; cbn [get fmap list_fmap fst].
  - intros _. split; [done|by intros ?%elem_of_nil].
  - intros [Hk0 Ho]%NoDup_cons. rewrite elem_of_cons.
    destruct (decide (k0 = k)) as [->|Hne].
    + split; [intros [= ->]; by left|].
      intros [[= ->]|Hin]; [done|]. destruct Hk0.
      apply list_elem_of_fmap. by exists (k, n).
    + rewrite IH by done. split; [by right|].
      by intros [[= ? ?]|?].
Qed.

Lemma keys_set o k n :
  (set o k n).*1 = if decide (k ∈ o.*1) then o.*1 else o.*1 ++ [k].
Proof.
  induction o as [|[k0 n0] o IH]; cbn [set fmap list_fmap fst app].
  - by rewrite decide_False by apply not_elem_of_nil.
  - destruct (decide (k0 = k)) as [->|Hne]; cbn [fmap list_fmap fst].
    + by rewrite decide_True by by left.
    + fold (fmap (M:=list) (@fst (list Z) Z)). rewrite IH.
      destruct (decide (k ∈ o.*1)) as [Hin|Hin].
      * by rewrite decide_True by by right.
      * rewrite decide_False; [done|].
        by intros [?|?]%elem_of_cons.
Qed.

Lemma NoDup_set o k n : NoDup o.*1 -> NoDup (set o k n).*1.
Proof.
  intros Ho. rewrite keys_set. case_decide; [done|].
  apply NoDup_app. split_and!; [done| |apply NoDup_singleton].
  by intros k' Hk' ->%list_elem_of_singleton.
Qed.

(** Two objects with the same properties list them in some order. *)
Lemma same_properties o o' :
  NoDup o.*1 -> NoDup o'.*1 -> (forall k, get o k = get o' k) -> o ≡ₚ o'.
Proof.
  intros Ho Ho' Hget. apply NoDup_Permutation.
  - by apply NoDup_fmap_1 in Ho.
  - by apply NoDup_fmap_1 in Ho'.
  - intros [k n]. by rewrite <- !get_Some, Hget.
Qed.

Lemma own_Permutation o : own o ≡ₚ o.
Proof.
  unfold own. rewrite merge_sort_Permutation.
  induction o as [|e o IH]; [done|]. cbn [omap list_omap].
  destruct (array_index e.1) as [n|] eqn:Hindex; cbn [mbind option_bind].
  - rewrite filter_cons_False by congruence. cbn [fmap list_fmap snd app].
    by apply Permutation_skip.
  - rewrite filter_cons_True by done.
    rewrite <- Permutation_middle. by apply Permutation_skip.
Qed.

(** ** Counting *)

Lemma count_None k : count None k = None.
Proof. done. Qed.

Lemma fold_count_None ks : fold_left count ks None = None.
Proof. by induction ks. Qed.

Lemma occurrences_snoc_same (ks : list (list Z)) k :
  length (filter (fun k' => k' = k) (ks ++ [k]))
  = S (length (filter (fun k' => k' = k) ks)).
Proof.
  rewrite filter_app, length_app, filter_cons_True by done. cbn. lia.
Qed.

Lemma occurrences_snoc_other (ks : list (list Z)) k k0 :
  k0 <> k ->
  length (filter (fun k' => k' = k) (ks ++ [k0]))
  = length (filter (fun k' => k' = k) ks).
Proof.
  intros Hne. rewrite filter_app, length_app, filter_cons_False by done.
  cbn. lia.
Qed.

Lemma occurrences_positive (ks : list (list Z)) k :
  k ∈ ks -> (0 < length (filter (fun k' => k' = k) ks))%nat.
Proof.
  intros Hin. destruct (filter _ ks) eqn:Hfilter; [|cbn; lia].
  by destruct (filter_nil_not_elem_of _ _ k Hfilter).
Qed.

(** What the [reduce] calls build: no object when a key is inherited;
    otherwise the object that has every key once, with the number of
    its occurrences. *)
Lemma tally_spec (ks : list (list Z)) :
  match fold_left count ks (Some []) with
  | None => exists k, k ∈ ks /\ k ∈ inherited
  | Some o =>
    Forall (fun k => k ∉ inherited) ks /\ NoDup o.*1 /\
    forall k, get o k
              = if decide (k ∈ ks)
                then Some (Z.of_nat (length (filter (fun k' => k' = k) ks)))
                else None
  end.
Proof.
  induction ks as [|k0 ks IH] using rev_ind.
  - cbn [fold_left]. split_and!; [done|apply NoDup_nil_2|].
    intros k. by rewrite decide_False by apply not_elem_of_nil.
  - rewrite fold_left_app. cbn [fold_left].
    destruct (fold_left count ks (Some [])) as [o|].
    + destruct IH as (Hks & Ho & Hget). unfold count. cbn [mbind option_bind].
      destruct (decide (k0 ∈ inherited)) as [Hin|Hin].
      { exists k0. split; [|done]. apply elem_of_app. right. by left. }
      cbv zeta. split_and!.
      * apply Forall_app. split; [done|by apply Forall_singleton].
      * by apply NoDup_set.
      * intros k. rewrite get_set.
        destruct (decide (k0 = k)) as [->|Hne].
        -- rewrite decide_True by (apply elem_of_app; right; by left).
           rewrite occurrences_snoc_same, Hget. f_equal.
           destruct (decide (k ∈ ks)) as [Hk|Hk].
           ++ pose proof (occurrences_positive ks k Hk).
              destruct (Z.eqb_spec
                (Z.of_nat (length (filter (fun k' => k' = k) ks))) 0); lia.
           ++ destruct (filter _ ks) as [|k1 rest] eqn:Hfilter; [done|].
              assert (k1 ∈ filter (fun k' => k' = k) ks)
                as [-> ?]%list_elem_of_filter by (rewrite Hfilter; by left).
              done.
        -- rewrite Hget, occurrences_snoc_other by done.
           destruct (decide (k ∈ ks)) as [Hk|Hk].
           ++ by rewrite decide_True by (apply elem_of_app; by left).
           ++ rewrite decide_False; [done|].
              intros [?|Hk0%list_elem_of_singleton]%elem_of_app;
                [done|congruence].
    + destruct IH as (k & Hk & Hin). cbn. exists k. split; [|done].
      apply elem_of_app. by left.
Qed.

Lemma tally_Permutation (ks ks' : list (list Z)) :
  ks ≡ₚ ks' ->
  match fold_left count ks (Some []), fold_left count ks' (Some []) with
  | Some o, Some o' => o ≡ₚ o'
  | None, None => True
  | _, _ => False
  end.
Proof.
  intros Hperm. pose proof (tally_spec ks) as H. pose proof (tally_spec ks') as H'.
  destruct (fold_left count ks (Some [])) as [o|],
           (fold_left count ks' (Some [])) as [o'|]; [| | |done].
  - destruct H as (_ & Ho & Hget), H' as (_ & Ho' & Hget').
    apply same_properties; [done|done|]. intros k. rewrite Hget, Hget'.
    destruct (decide (k ∈ ks)) as [Hk|Hk].
    + rewrite decide_True by by rewrite <- Hperm. by rewrite Hperm.
    + by rewrite decide_False by by rewrite <- Hperm.
  - destruct H as (Hks & _), H' as (k & Hk & Hin).
    rewrite <- Hperm in Hk. by eapply Forall_forall in Hks.
  - destruct H' as (Hks & _), H as (k & Hk & Hin).
    rewrite Hperm in Hk. by eapply Forall_forall in Hks.
Qed.

Lemma fold_count_fmap (f : list Z -> list Z) hand o :
  fold_left (fun o card => count o (f card)) hand o
  = fold_left count (f <$> hand) o.
Proof. revert o. induction hand as [|card hand IH]; intros o; [done|apply IH]. Qed.

(** ** The tests *)

Lemma forallb_Permutation {A} (f : A -> bool) l l' :
  l ≡ₚ l' -> forallb f l = forallb f l'.
Proof.
  induction 1 as [|x l l' _ IH|x y l|l l' l'' _ IH _ IH']; cbn.
  - done.
  - by rewrite IH.
  - by destruct (f x), (f y).
  - by rewrite IH.
Qed.

Lemma existsb_Permutation {A} (f : A -> bool) l l' :
  l ≡ₚ l' -> existsb f l = existsb f l'.
Proof.
  induction 1 as [|x l l' _ IH|x y l|l l' l'' _ IH _ IH']; cbn.
  - done.
  - by rewrite IH.
  - by destruct (f x), (f y).
  - by rewrite IH.
Qed.

Lemma merge_sort_Permutation_eq (l l' : list Z) :
  l ≡ₚ l' -> merge_sort Z.le l = merge_sort Z.le l'.
Proof.
  intros Hperm. apply (StronglySorted_unique Z.le).
  - apply StronglySorted_merge_sort; apply _.
  - apply StronglySorted_merge_sort; apply _.
  - by rewrite !merge_sort_Permutation.
Qed.

Lemma Object_values_Permutation o o' :
  o ≡ₚ o' -> Object_values o ≡ₚ Object_values o'.
Proof. intros Hperm. unfold Object_values. by rewrite !own_Permutation, Hperm. Qed.

Lemma Object_keys_Permutation o o' :
  o ≡ₚ o' -> Object_keys o ≡ₚ Object_keys o'.
Proof. intros Hperm. unfold Object_keys. by rewrite !own_Permutation, Hperm. Qed.

Lemma in_a_row_Permutation keys keys' aceLast :
  keys ≡ₚ keys' -> in_a_row keys aceLast = in_a_row keys' aceLast.
Proof.
  intros Hperm. unfold in_a_row.
  rewrite (Permutation_length Hperm). f_equal. cbv zeta.
  by rewrite (merge_sort_Permutation_eq _
    ((fun v => order_indexOf v (if aceLast then 1 else 0)%nat) <$> keys'))
    by by rewrite Hperm.
Qed.

Lemma isStraight_Permutation o o' aceLast :
  o ≡ₚ o' -> isStraight o aceLast = isStraight o' aceLast.
Proof.
  intros Hperm%Object_keys_Permutation. by apply in_a_row_Permutation.
Qed.

Lemma rank_of_Permutation suits suits' values values' :
  suits ≡ₚ suits' -> values ≡ₚ values' ->
  rank_of suits values = rank_of suits' values'.
Proof.
  intros Hsuits Hvalues. unfold rank_of.
  rewrite !(isStraight_Permutation values values') by done.
  pose proof (Object_values_Permutation _ _ Hsuits) as Hs.
  pose proof (Object_values_Permutation _ _ Hvalues) as Hv.
  unfold isFlush, isFourOfKind, isFullHouse, isThreeOfKind, isTwoPairs,
    isPair.
  rewrite (forallb_Permutation _ _ _ Hs).
  rewrite !(existsb_Permutation _ _ _ Hv).
  by rewrite Hv.
Qed.

(** X19: The rank does not depend on the order of the cards in the hand;
    a hand in which a value is a name of [inherited] has no rank here,
    in any order. *)
Theorem rank_of_rearranged_hand (hand hand' : list (list Z)) :
  hand ≡ₚ hand' -> getPokerHandRank hand = getPokerHandRank hand'.
Proof.
  intros Hperm. unfold getPokerHandRank.
  rewrite !(fold_count_fmap suit_of), !(fold_count_fmap value_of).
  pose proof (tally_Permutation (suit_of <$> hand) (suit_of <$> hand'))
    as Hsuits.
  pose proof (tally_Permutation (value_of <$> hand) (value_of <$> hand'))
    as Hvalues.
  destruct (fold_left count (suit_of <$> hand) (Some [])) as [suits|],
           (fold_left count (suit_of <$> hand') (Some [])) as [suits'|];
    try (by destruct Hsuits; rewrite Hperm); [|done].
  destruct (fold_left count (value_of <$> hand) (Some [])) as [values|],
           (fold_left count (value_of <$> hand') (Some [])) as [values'|];
    try (by destruct Hvalues; rewrite Hperm); [|done].
  cbn [mbind option_bind]. f_equal.
  apply rank_of_Permutation; [apply Hsuits|apply Hvalues]; by rewrite Hperm.
Qed.

Lemma rank_of_rearranged_hand_witness :
  getPokerHandRank [card "2" hearts; card "A" diamonds; card "5" hearts;
                    card "4" diamonds; card "3" spades]
  = getPokerHandRank [card "A" diamonds; card "2" hearts; card "5" hearts;
                      card "4" diamonds; card "3" spades].
Proof. apply rank_of_rearranged_hand, perm_swap. Defined.

(** ** Flushes *)

Lemma rank_of_flush suits values :
  rank_of suits values = Flush \/ rank_of suits values = StraightFlush
  <-> isFlush suits = true.
Proof.
  unfold rank_of.
  destruct (isStraight values false || isStraight values true),
    (isFlush suits), (isFourOfKind values), (isFullHouse values),
    (isThreeOfKind values), (isTwoPairs values), (isPair values);
    split; first [done | by intros [?|?] | by left | by right].
Qed.

Lemma isFlush_tally (ks : list (list Z)) o :
  fold_left count ks (Some []) = Some o ->
  isFlush o = true
  <-> forall k, k ∈ ks -> length (filter (fun k' => k' = k) ks) = 5%nat.
Proof.
  intros Ho. pose proof (tally_spec ks) as Hspec. rewrite Ho in Hspec.
  destruct Hspec as (_ & Hdup & Hget). unfold isFlush.
  rewrite (forallb_Permutation _ _ (o.*2)) by (unfold Object_values;
    by rewrite own_Permutation).
  rewrite <- Is_true_true, forallb_True, Forall_fmap, Forall_forall. split.
  - intros Hall k Hk. specialize (Hget k). rewrite decide_True in Hget by done.
    apply get_Some in Hget; [|done]. apply Hall in Hget. cbn in Hget.
    apply Is_true_true, Z.eqb_eq in Hget. lia.
  - intros Hall [k n] Hin. cbn. apply Is_true_true, Z.eqb_eq.
    apply get_Some in Hin; [|done]. rewrite Hget in Hin.
    destruct (decide (k ∈ ks)) as [Hk|]; [|done].
    rewrite (Hall k Hk) in Hin. by injection Hin as <-.
Qed.

Lemma all_occurrences (ks : list (list Z)) :
  ks <> [] ->
  (forall k, k ∈ ks -> length (filter (fun k' => k' = k) ks) = length ks)
  <-> exists k, Forall (fun k' => k' = k) ks.
Proof.
  intros Hks. split.
  - intros Hall. destruct ks as [|k ks]; [done|]. exists k.
    apply Forall_forall. intros k' Hk'.
    destruct (decide (k' = k)) as [|Hne]; [done|].
    pose proof (length_filter_lt (fun k' => k' = k) (k :: ks) k' Hk' Hne).
    specialize (Hall k ltac:(by left)). lia.
  - intros [k Hall] k' Hk'.
    rewrite (proj1 (Forall_forall _ _) Hall k' Hk').
    clear Hk' Hks. induction Hall as [|k0 ks Hk0 _ IH]; [done|].
    rewrite filter_cons_True by exact Hk0. cbn [length]. by rewrite IH.
Qed.

(** X20: A hand of five cards ranks as a flush or a straight flush exactly
    when its cards end in the same suit sign. *)
Theorem flush_iff_one_suit (hand : list (list Z)) (rank : PokerRank) :
  length hand = 5%nat -> getPokerHandRank hand = Some rank ->
  (rank = Flush \/ rank = StraightFlush)
  <-> exists suit, Forall (fun card => suit_of card = suit) hand.
Proof.
  intros Hlen. unfold getPokerHandRank.
  rewrite !(fold_count_fmap suit_of), !(fold_count_fmap value_of).
  destruct (fold_left count (suit_of <$> hand) (Some [])) as [suits|]
    eqn:Hsuits; [|done].
  destruct (fold_left count (value_of <$> hand) (Some [])) as [values|];
    [|done].
  cbn [mbind option_bind]. intros [= <-].
  rewrite rank_of_flush, (isFlush_tally _ _ Hsuits).
  assert (Hfive : length (suit_of <$> hand) = 5%nat)
    by by rewrite length_fmap.
  rewrite <- Hfive, all_occurrences by by destruct hand.
  by setoid_rewrite Forall_fmap.
Qed.

Lemma flush_iff_one_suit_witness :
  (Flush = Flush \/ Flush = StraightFlush)
  <-> exists suit, Forall (fun card => suit_of card = suit)
        [card "4" clubs; card "5" clubs; card "6" clubs; card "7" clubs;
         card "Q" clubs].
Proof. by apply flush_iff_one_suit. Defined.

(** ** Straights *)

Lemma rank_of_straight suits values :
  rank_of suits values = Straight \/ rank_of suits values = StraightFlush
  <-> isStraight values false || isStraight values true = true.
Proof.
  unfold rank_of.
  destruct (isStraight values false || isStraight values true),
    (isFlush suits), (isFourOfKind values), (isFullHouse values),
    (isThreeOfKind values), (isTwoPairs values), (isPair values);
    split; first [done | by intros [?|?] | by left | by right].
Qed.

Lemma filter_sublists {A} (P : A -> Prop) `{!forall x, Decision (P x)} l :
  filter P l ∈ sublists l.
Proof.
  induction l as [|x l IH]; [by left|]. cbn [sublists].
  apply elem_of_app. destruct (decide (P x)).
  - left. rewrite filter_cons_True by done. apply list_elem_of_fmap. eauto.
  - right. by rewrite filter_cons_False by done.
Qed.

(** The test on every choice of recognised values. *)
Lemma in_a_row_sublists :
  Forall (fun keys =>
      in_a_row keys false || in_a_row keys true
      = bool_decide (Exists (fun i => keys ⊆ window i /\ window i ⊆ keys)
                            (seq 0 10)))
    (sublists (take 13 order)).
Proof. apply (bool_decide_unpack _). vm_compute. exact I. Qed.

Lemma order_thirteen v : v ∈ order <-> v ∈ take 13 order.
Proof.
  assert (order ⊆ take 13 order) as Hsub
    by (apply (bool_decide_unpack _); vm_compute; exact I).
  split; [apply Hsub|apply subseteq_take].
Qed.

Lemma NoDup_thirteen : NoDup (take 13 order).
Proof. apply (bool_decide_unpack _). vm_compute. exact I. Qed.

Lemma tally_keys (ks : list (list Z)) o k :
  fold_left count ks (Some []) = Some o -> k ∈ o.*1 <-> k ∈ ks.
Proof.
  intros Ho. pose proof (tally_spec ks) as Hspec. rewrite Ho in Hspec.
  destruct Hspec as (_ & _ & Hget). specialize (Hget k).
  destruct (decide (k ∈ ks)) as [Hk|Hk].
  - split; [done|]. intros _.
    destruct (decide (k ∈ o.*1)) as [|Hin%get_None]; [done|congruence].
  - apply get_None in Hget. tauto.
Qed.

(** X21: When every value of the hand is one of [order], the hand ranks as
    a straight or a straight flush exactly when its values are five in
    a row of [order], the ace before the two or after the king. *)
Theorem straight_iff_five_in_a_row (hand : list (list Z))
    (rank : PokerRank) :
  Forall (fun card => value_of card ∈ order) hand ->
  getPokerHandRank hand = Some rank ->
  (rank = Straight \/ rank = StraightFlush)
  <-> exists i, (i <= 9)%nat /\
        forall v, v ∈ value_of <$> hand <-> v ∈ window i.
Proof.
  intros Hknown. unfold getPokerHandRank.
  rewrite !(fold_count_fmap suit_of), !(fold_count_fmap value_of).
  destruct (fold_left count (suit_of <$> hand) (Some [])) as [suits|];
    [|done].
  destruct (fold_left count (value_of <$> hand) (Some [])) as [values|]
    eqn:Hvalues; [|done].
  cbn [mbind option_bind]. intros [= <-]. rewrite rank_of_straight.
  pose proof (tally_spec (value_of <$> hand)) as Hspec.
  rewrite Hvalues in Hspec. destruct Hspec as (_ & Hdup & _).
  set (keys := filter (fun v => v ∈ Object_keys values) (take 13 order)).
  assert (Hmem : forall v, v ∈ keys <-> v ∈ value_of <$> hand).
  { intros v. unfold keys, Object_keys.
    rewrite list_elem_of_filter, own_Permutation,
      (tally_keys _ _ _ Hvalues), <- order_thirteen.
    split; [by intros [? _]|]. intros Hv. split; [done|].
    apply list_elem_of_fmap in Hv as (card & -> & Hcard).
    by eapply Forall_forall in Hknown. }
  assert (Hperm : Object_keys values ≡ₚ keys).
  { apply NoDup_Permutation.
    - unfold Object_keys. by rewrite own_Permutation.
    - apply NoDup_filter, NoDup_thirteen.
    - intros v. rewrite Hmem. unfold Object_keys.
      by rewrite own_Permutation, (tally_keys _ _ _ Hvalues). }
  unfold isStraight. rewrite !(in_a_row_Permutation _ _ _ Hperm).
  pose proof in_a_row_sublists as Hall. rewrite Forall_forall in Hall.
  rewrite (Hall keys) by apply filter_sublists.
  rewrite bool_decide_eq_true, Exists_exists. split.
  - intros (i & [_ Hi]%elem_of_seq & Hsub & Hsup). exists i.
    split; [lia|]. intros v. rewrite <- Hmem. split; [apply Hsub|apply Hsup].
  - intros (i & Hi & Hwindow). exists i.
    split; [apply elem_of_seq; lia|].
    split; intros v; rewrite Hmem; apply Hwindow.
Qed.

Lemma straight_iff_five_in_a_row_witness :
  (Straight = Straight \/ Straight = StraightFlush)
  <-> exists i, (i <= 9)%nat /\
        forall v, v ∈ value_of <$>
                    [card "2" hearts; card "4" diamonds; card "5" hearts;
                     card "A" diamonds; card "3" spades]
                  <-> v ∈ window i.
Proof.
  apply straight_iff_five_in_a_row; [|done].
  apply (bool_decide_unpack _). vm_compute. exact I.
Defined.

End PokerHandsProofs.
